(** * Transform and quantisation core of x265: [source/common/quant.cpp]

    A shallow embedding of the quantiser of the encoder (noise reduction,
    the coefficient rate functions, plain quantisation with sign-bit hiding,
    rate-distortion optimised quantisation and the transform-bypass copies),
    followed by the properties proved about it.

    Conventions.
    - C integers are mathematical integers ([Z]) with the wrap-around of the
      C type written out where the source computes in that type: [u32],
      [s32], [u64], [s64].
    - [coeff_t] is the 32-bit type the source converts 16-bit residuals
      into ([cvt16to32_shl] writes [m_resiDctCoeff]); the 16-bit range of a
      quantised level is a property of the values, not of the type.
    - Arrays are lists read with [!!!] and written with [<[i:=v]>].
    - [double] is the IEEE binary64 type of the kernel ([PrimFloat]).
    - The object state the functions read ([Quant], [TComDataCU], the
      scaling list, the CABAC bit estimates) is passed as records. *)

From Stdlib Require Import ZArith Lia List Bool.
From Stdlib Require Import Floats Uint63.
From stdpp Require Import base list numbers.

Local Open Scope Z_scope.

(* ================================================================== *)
(** * Part I: the model *)
(* ================================================================== *)

(** ** Machine integers *)

Definition u32 (z : Z) : Z := z mod 4294967296.
Definition s32 (z : Z) : Z := (z + 2147483648) mod 4294967296 - 2147483648.
Definition u64 (z : Z) : Z := z mod 18446744073709551616.
Definition s64 (z : Z) : Z :=
  (z + 9223372036854775808) mod 18446744073709551616 - 9223372036854775808.
Definition s16 (z : Z) : Z := (z + 32768) mod 65536 - 32768.

Definition MAX_INT : Z := 2147483647.
Definition MAX_INT64 : Z := 9223372036854775807.

(** [x >> 31] on an [int]: the sign mask, [-1] or [0]. *)
Definition asr31 (x : Z) : Z := Z.shiftr x 31.

(** ** Doubles *)

#[global] Instance float_inhabited : Inhabited float := populate 0%float.

(** Conversion of an integer to [double], rounded to nearest even. *)
Definition double_of_Z (z : Z) : float :=
  SF2Prim (binary_normalize prec emax z 0 false).

(** Conversion of a [double] to [int64_t]: truncation towards zero. *)
Definition int64_of_double (f : float) : Z :=
  match Prim2SF f with
  | S754_finite sg m e =>
      let mag := if 0 <=? e then Z.shiftl (Z.pos m) e else Z.shiftr (Z.pos m) (- e) in
      s64 (if sg then - mag else mag)
  | _ => 0
  end.

(** [MAX_DOUBLE] is the macro [1.7e+308]: the nearest binary64 value. *)
Definition MAX_DOUBLE : float := 0x1.e42d130773b76p+1023%float.

(** ** Loops *)

(** [for (i = i0; i < i0 + n; i++) s = body i s] *)
Fixpoint for_up {St : Type} (n : nat) (i0 : nat) (body : nat -> St -> St) (s : St) : St :=
  match n with
  | O => s
  | S n' => for_up n' (S i0) body (body i0 s)
  end.

(** [for (i = n - 1; i >= 0; i--) s = body i s] *)
Fixpoint for_down {St : Type} (n : nat) (body : nat -> St -> St) (s : St) : St :=
  match n with
  | O => s
  | S n' => for_down n' body (body n' s)
  end.

(** ** Constants *)

Definition IEP_RATE : Z := 32768.
Definition SBH_THRESHOLD : Z := 4.
(** [cgSize = 1 << MLS_CG_SIZE] is the 16 coefficients of a 4x4 group. *)
Definition MLS_CG_SIZE : Z := 4.
Definition LOG2_SCAN_SET_SIZE : Z := 4.
Definition SCAN_SET_SIZE : nat := 16.
Definition COEF_REMAIN_BIN_REDUCTION : Z := 3.
Definition C1FLAG_NUMBER : Z := 8.
Definition QUANT_SHIFT : Z := 14.
Definition QUANT_IQUANT_SHIFT : Z := 20.
Definition SCALE_BITS : Z := 15.
Definition MAX_TR_DYNAMIC_RANGE : Z := 15.

(** ** Noise reduction: [denoiseDct] (lines 52-63) *)

Definition denoise_step (offset : list Z) (i : nat) (st : list Z * list Z) : list Z * list Z :=
  let '(dctCoef, resSum) := st in
  let level := dctCoef !!! i in
  let sign := asr31 level in
  let level := Z.lxor (s32 (level + sign)) sign in
  let resSum := <[i := u32 (resSum !!! i + level)]> resSum in
  let level := s32 (level - offset !!! i) in
  (<[i := if level <? 0 then 0 else s32 (Z.lxor level sign - sign)]> dctCoef, resSum).

Definition denoiseDct (dctCoef resSum offset : list Z) (size : nat) : list Z * list Z :=
  for_up size 0 (denoise_step offset) (dctCoef, resSum).

(** ** Coefficient rate functions (lines 47-50, 65-164) *)

(** [fastMin]: branch-free minimum on [int]. *)
Definition fastMin (x y : Z) : Z :=
  s32 (y + Z.land (s32 (x - y)) (asr31 (s32 (x - y)))).

(** The macro [CLZ32(id, x)] is declared outside this file; the source
    documents it as the BSR instruction: the index of the highest set bit. *)
Definition CLZ32 (x : Z) : Z := Z.log2 x.

(** The Rice range table [g_goRiceRange] is declared outside this file (the
    read-only tables of TLibCommon); the rate functions take it as a
    parameter.  [g_goRiceRange_hevc] is the table of the HEVC binarisation
    for Rice parameters 0..4. *)
Definition g_goRiceRange_hevc : list Z := [7; 14; 26; 46; 78].

Section RateFunctions.

Variable g_goRiceRange : list Z.

Definition getICRate (absLevel diffLevel : Z) (greaterOneBits levelAbsBits : list Z)
    (absGoRice c1c2Idx : Z) : Z :=
  if absLevel =? 0 then 0
  else
    let rate := 0 in
    if diffLevel <? 0 then
      let rate := s32 (rate + greaterOneBits !!! (if absLevel =? 2 then 1%nat else 0%nat)) in
      if absLevel =? 2 then s32 (rate + levelAbsBits !!! 0%nat) else rate
    else
      let symbol := u32 diffLevel in
      let maxVlc := g_goRiceRange !!! Z.to_nat absGoRice in
      let expGolomb := maxVlc <? symbol in
      let '(rate, symbol) :=
        if expGolomb then
          let absLevel := u32 (symbol - maxVlc) in
          let size := CLZ32 absLevel in
          let egs := s32 (size * 2 + 1) in
          (s32 (rate + s32 (Z.shiftl egs 15)), u32 (maxVlc + 1))
        else (rate, symbol) in
      let prefLen := u32 (Z.shiftr symbol absGoRice + 1) in
      let numBins := u32 (fastMin (s32 (u32 (prefLen + absGoRice))) 8) in
      let rate := s32 (rate + u32 (Z.shiftl numBins 15)) in
      let rate := if Z.land c1c2Idx 1 =? 0 then rate else s32 (rate + greaterOneBits !!! 1%nat) in
      if c1c2Idx =? 3 then s32 (rate + levelAbsBits !!! 1%nat) else rate.

End RateFunctions.

(** Calculates the cost for specific absolute transform level. *)
Definition getICRateCost (absLevel diffLevel : Z) (greaterOneBits levelAbsBits : list Z)
    (absGoRice c1c2Idx : Z) : Z :=
  let rate := IEP_RATE in
  if diffLevel <? 0 then
    let rate := u32 (rate + greaterOneBits !!! (if absLevel =? 2 then 1%nat else 0%nat)) in
    if absLevel =? 2 then u32 (rate + levelAbsBits !!! 0%nat) else rate
  else
    let symbol := u32 diffLevel in
    let rate :=
      if Z.shiftr symbol absGoRice <? COEF_REMAIN_BIN_REDUCTION then
        let length := Z.shiftr symbol absGoRice in
        u32 (rate + u32 (Z.shiftl (u32 (length + 1 + absGoRice)) 15))
      else
        let symbol := u32 (Z.shiftr symbol absGoRice - COEF_REMAIN_BIN_REDUCTION) in
        let length := if symbol =? 0 then 0 else u32 (CLZ32 (u32 (symbol + 1))) in
        u32 (rate + u32 (Z.shiftl (u32 (COEF_REMAIN_BIN_REDUCTION + length + absGoRice + 1 + length)) 15)) in
    let rate := if Z.land c1c2Idx 1 =? 0 then rate else u32 (rate + greaterOneBits !!! 1%nat) in
    if c1c2Idx =? 3 then u32 (rate + levelAbsBits !!! 1%nat) else rate.

(** ** CABAC bit estimates *)

Record EstBitsSbac := {
  significantCoeffGroupBits : list (list Z);
  significantBits : list (list Z);
  lastXBits : list Z;
  lastYBits : list Z;
  greaterOneBits : list (list Z);
  levelAbsBits : list (list Z);
  blockCbpBits : list (list Z);
  blockRootCbpBits : list (list Z)
}.

(** [tbl[ctx][bin]] *)
Definition bits2 (tbl : list (list Z)) (ctx : Z) (bin : nat) : Z :=
  (tbl !!! Z.to_nat ctx) !!! bin.

(** ** Cost of the last significant position: [getRateLast] (lines 1084-1096) *)

(** [getGroupIdx] is a member declared in quant.h, outside this file;
    [getRateLast] takes it as a parameter.  [getGroupIdx_hevc] is the group
    index of the HEVC last-position binarisation for positions 0..31. *)
Definition getGroupIdx_hevc (idx : Z) : Z :=
  nth (Z.to_nat idx)
    [0; 1; 2; 3; 4; 4; 5; 5; 6; 6; 6; 6; 7; 7; 7; 7;
     8; 8; 8; 8; 8; 8; 8; 8; 9; 9; 9; 9; 9; 9; 9; 9] 0.

Section RateLast.

Variable getGroupIdx : Z -> Z.
Variable m_estBitsSbac : EstBitsSbac.

Definition getRateLast (posx posy : Z) : Z :=
  let ctxX := getGroupIdx posx in
  let ctxY := getGroupIdx posy in
  let cost := u32 (s32 (lastXBits m_estBitsSbac !!! Z.to_nat ctxX
                        + lastYBits m_estBitsSbac !!! Z.to_nat ctxY)) in
  let maskX := asr31 (s32 (u32 (2 - posx))) in
  let maskY := asr31 (s32 (u32 (2 - posy))) in
  let cost := u32 (cost + Z.land (u32 maskX) (u32 (IEP_RATE * Z.shiftr (u32 (ctxX - 2)) 1))) in
  let cost := u32 (cost + Z.land (u32 maskY) (u32 (IEP_RATE * Z.shiftr (u32 (ctxY - 2)) 1))) in
  cost.

End RateLast.

(** ** The objects the quantiser reads *)

Inductive TextType := TEXT_LUMA | TEXT_CHROMA_U | TEXT_CHROMA_V.

Definition ttypeIdx (t : TextType) : Z :=
  match t with TEXT_LUMA => 0 | TEXT_CHROMA_U => 1 | TEXT_CHROMA_V => 2 end.

Definition isLuma (t : TextType) : bool :=
  match t with TEXT_LUMA => true | _ => false end.

Record QpParam := { rem : Z; per : Z }.

(** [m_quantCoef[sizeIdx][listType][rem]] and [m_errScale[...]] are tables
    of per-position factors; [s_invQuantScales] has six entries. *)
Record ScalingList := {
  m_bEnabled : bool;
  m_quantCoef : Z -> Z -> Z -> list Z;
  m_errScale : Z -> Z -> Z -> list float;
  s_invQuantScales : list Z
}.

Definition SCAN_VER : Z := 2.

Record TUEntropyCodingParameters := {
  scan : list nat;
  scanCG : list nat;
  scanType : Z;
  log2TrSizeCG : nat;
  firstSignificanceMapContext : Z
}.

(** What the source asks of the coding unit at the partition it works on. *)
Record TComDataCU := {
  isIntra : bool;
  getCUTransquantBypass : bool;
  predModeIsIntra : bool;
  sliceIsI : bool;
  bSignHideEnabled : bool;
  getTransformIdx : Z;
  getCtxQtCbf : TextType -> Z;
  getTUEntropyCodingParameters : Z -> bool -> TUEntropyCodingParameters
}.

Record NoiseReduction := {
  bNoiseReduction : bool;
  residualSum : Z -> list Z;
  offset : Z -> list Z;
  count : Z -> Z
}.

(** The members of [Quant]; [m_lambda2] is the value [selectLambda] installs
    for a text type. *)
Record Quant := {
  m_useRDOQ : bool;
  m_psyRdoqScale : Z;
  m_scalingList : ScalingList;
  m_qpParam : TextType -> QpParam;
  m_lambda2 : TextType -> float;
  m_estBitsSbac : EstBitsSbac;
  m_nr : NoiseReduction;
  m_resiDctCoeff : list Z;
  m_fencDctCoeff : list Z;
  m_fencShortBuf : list Z
}.

(** The forward kernels of the primitives table, implemented outside this
    file: each returns the destination buffer it has written.
    - [cvt16to32_shl dst src stride shift size]
    - [dct index src dst stride]
    - [square_copy_ps sizeIdx dst dstStride src srcStride] *)
Record Primitives := {
  cvt16to32_shl : list Z -> list Z -> nat -> Z -> Z -> list Z;
  dct : Z -> list Z -> list Z -> nat -> list Z;
  square_copy_ps : Z -> list Z -> Z -> list Z -> nat -> list Z
}.

Definition DCT_4x4 : Z := 1.

(** ** Quantisation kernels of the primitives table *)

(** Modelled from the spec: [primitives.quant] is a kernel of the primitives
    table, implemented outside this file.  Per position,
    [level = (|dct[i]| * scaling[i] + round) >> qbits], saturated to int16,
    with the original sign reapplied, is written to [qCoef[i]];
    [deltaU[i] = ((|dct[i]|*scaling[i]) - (level << qbits)) >> (qbits - 8)];
    the result is the count of nonzero output levels. *)
Definition quant_level (c q qBits add : Z) : Z :=
  Z.shiftr (Z.abs c * q + add) qBits.

Definition saturate_sign (c level : Z) : Z :=
  let m := Z.min level 32767 in
  if c <? 0 then - m else m.

Definition prim_quant_step (coef quantCoeff : list Z) (qBits add : Z) (i : nat)
    (st : list Z * list Z * Z) : list Z * list Z * Z :=
  let '(deltaU, qCoef, numSig) := st in
  let tmplevel := Z.abs (coef !!! i) * quantCoeff !!! i in
  let level := quant_level (coef !!! i) (quantCoeff !!! i) qBits add in
  (<[i := Z.shiftr (tmplevel - Z.shiftl level qBits) (qBits - 8)]> deltaU,
   <[i := saturate_sign (coef !!! i) level]> qCoef,
   if saturate_sign (coef !!! i) level =? 0 then numSig else numSig + 1).

Definition prim_quant (coef quantCoeff deltaU qCoef : list Z) (qBits add : Z) (numCoeff : nat)
    : list Z * list Z * Z :=
  for_up numCoeff 0 (prim_quant_step coef quantCoeff qBits add) (deltaU, qCoef, 0).

(** Modelled from the spec: [primitives.nquant] is the kernel of the
    primitives table described as "quant producing scaled coefficients":
    [scaledCoeff[i] = |dct[i]| * quantCoef[i]] and the plain-quant candidate
    [(scaledCoeff[i] + add) >> qbits], saturated and signed like [quant]. *)
Definition prim_nquant_step (coef quantCoeff : list Z) (qBits add : Z) (i : nat)
    (st : list Z * list Z * Z) : list Z * list Z * Z :=
  let '(scaledCoeff, qCoef, numSig) := st in
  let tmplevel := Z.abs (coef !!! i) * quantCoeff !!! i in
  let level := quant_level (coef !!! i) (quantCoeff !!! i) qBits add in
  (<[i := tmplevel]> scaledCoeff,
   <[i := saturate_sign (coef !!! i) level]> qCoef,
   if saturate_sign (coef !!! i) level =? 0 then numSig else numSig + 1).

Definition prim_nquant (coef quantCoeff scaledCoeff qCoef : list Z) (qBits add : Z)
    (numCoeff : nat) : list Z * list Z * Z :=
  for_up numCoeff 0 (prim_nquant_step coef quantCoeff qBits add) (scaledCoeff, qCoef, 0).

(** ** Sign-bit hiding on plain quantisation: [signBitHidingHDQ] (lines 219-324) *)

(** [for (n = SCAN_SET_SIZE - 1; n >= 0; --n) if (qCoef[scan[n + subPos]]) break;]
    as a search from [n - 1] downwards; [None] stands for [n < 0]. *)
Fixpoint lastNZPos (qCoef : list Z) (scan : list nat) (subPos : nat) (n : nat) : option nat :=
  match n with
  | O => None
  | S n' =>
      if qCoef !!! (scan !!! (n' + subPos)%nat) =? 0
      then lastNZPos qCoef scan subPos n' else Some n'
  end.

(** [for (n = 0;; n++) if (qCoef[scan[n + subPos]]) break;]  The loop has no
    bound of its own; it stops at the last nonzero position at the latest,
    which bounds the number of steps. *)
Fixpoint firstNZPos (qCoef : list Z) (scan : list nat) (subPos : nat) (fuel : nat) (n : nat) : nat :=
  match fuel with
  | O => n
  | S f =>
      if qCoef !!! (scan !!! (n + subPos)%nat) =? 0
      then firstNZPos qCoef scan subPos f (S n) else n
  end.

(** [absSum += qCoef[scan[n + subPos]]] for [n] in [first .. last]; [wrap]
    is the type of [absSum] ([uint32_t] in the plain pass, [int] in the RDO
    pass). *)
Definition sumCG (wrap : Z -> Z) (qCoef : list Z) (scan : list nat) (subPos first last : nat) : Z :=
  for_up (S last - first) first
    (fun n absSum => wrap (absSum + qCoef !!! (scan !!! (n + subPos)%nat))) 0.

(** The state of the candidate search. *)
Record SbhSearch := {
  minCostInc : Z;
  minPos : Z;
  finalChange : Z;
  curCost : Z;
  curChange : Z
}.

Definition sbhSelect (blkPos : nat) (curCost curChange : Z) (s : SbhSearch) : SbhSearch :=
  if curCost <? minCostInc s then
    {| minCostInc := curCost; minPos := Z.of_nat blkPos; finalChange := curChange;
       curCost := curCost; curChange := curChange |}
  else
    {| minCostInc := minCostInc s; minPos := minPos s; finalChange := finalChange s;
       curCost := curCost; curChange := curChange |}.

Definition hdqCandidate (qCoef coef deltaU : list Z) (scan : list nat) (subPos : nat)
    (firstNZPosInCG : nat) (signbit : Z) (n : nat) (s : SbhSearch) : SbhSearch :=
  let blkPos := scan !!! (n + subPos)%nat in
  let '(cost, change) :=
    if negb (qCoef !!! blkPos =? 0) then
      if 0 <? deltaU !!! blkPos then (s32 (- deltaU !!! blkPos), 1)
      else if (n =? firstNZPosInCG)%nat && (Z.abs (qCoef !!! blkPos) =? 1)
           then (MAX_INT, curChange s)
           else (deltaU !!! blkPos, -1)
    else if (n <? firstNZPosInCG)%nat then
      let thisSignBit := if 0 <=? coef !!! blkPos then 0 else 1 in
      if negb (thisSignBit =? signbit) then (MAX_INT, curChange s)
      else (s32 (- deltaU !!! blkPos), 1)
    else (s32 (- deltaU !!! blkPos), 1) in
  sbhSelect blkPos cost change s.

Definition hdqSearch (qCoef coef deltaU : list Z) (scan : list nat) (subPos : nat)
    (lastCG : Z) (firstNZPosInCG lastNZPosInCG : nat) (signbit : Z) : SbhSearch :=
  for_down (if lastCG =? 1 then S lastNZPosInCG else SCAN_SET_SIZE)
    (hdqCandidate qCoef coef deltaU scan subPos firstNZPosInCG signbit)
    {| minCostInc := MAX_INT; minPos := -1; finalChange := 0;
       curCost := MAX_INT; curChange := 0 |}.

(** The update at the selected position (lines 305-316, and 976-987 of the
    RDO pass, which are the same statements on [dstCoeff]). *)
Definition sbhApply (qCoef coef : list Z) (numSig : Z) (s : SbhSearch) : list Z * Z :=
  let p := Z.to_nat (minPos s) in
  let finalChange :=
    if (qCoef !!! p =? 32767) || (qCoef !!! p =? -32768) then -1 else finalChange s in
  let numSig :=
    if qCoef !!! p =? 0 then u32 (numSig + 1)
    else if (finalChange =? -1) && (Z.abs (qCoef !!! p) =? 1) then u32 (numSig - 1)
    else numSig in
  let qCoef :=
    if 0 <=? coef !!! p then <[p := s32 (qCoef !!! p + finalChange)]> qCoef
    else <[p := s32 (qCoef !!! p - finalChange)]> qCoef in
  (qCoef, numSig).

(** The body of the loop over the coefficient groups (lines 227-320, and
    898-990 of the RDO pass, which differ in the candidate costs only); the
    state is [(qCoef, numSig, lastCG)].  A group without nonzero coefficient
    is skipped by [continue], which leaves [lastCG] as it is. *)
Definition sbhSubSet (wrap : Z -> Z)
    (search : list Z -> nat -> Z -> nat -> nat -> Z -> SbhSearch)
    (coef : list Z) (scan : list nat) (subSet : nat)
    (st : list Z * Z * Z) : list Z * Z * Z :=
  let '(qCoef, numSig, lastCG) := st in
  let subPos := (subSet * SCAN_SET_SIZE)%nat in
  match lastNZPos qCoef scan subPos SCAN_SET_SIZE with
  | None => st
  | Some lastNZPosInCG =>
      let firstNZPosInCG := firstNZPos qCoef scan subPos lastNZPosInCG 0 in
      if SBH_THRESHOLD <=? Z.of_nat lastNZPosInCG - Z.of_nat firstNZPosInCG then
        let signbit :=
          if 0 <? qCoef !!! (scan !!! (subPos + firstNZPosInCG)%nat) then 0 else 1 in
        let absSum := sumCG wrap qCoef scan subPos firstNZPosInCG lastNZPosInCG in
        if negb (signbit =? Z.land absSum 1) then
          let s := search qCoef subPos lastCG firstNZPosInCG lastNZPosInCG signbit in
          let '(qCoef, numSig) := sbhApply qCoef coef numSig s in
          (qCoef, numSig, 0)
        else (qCoef, numSig, 0)
      else (qCoef, numSig, 0)
  end.

Definition hdqSubSet (coef deltaU : list Z) (scan : list nat) :=
  sbhSubSet u32
    (fun qCoef subPos lastCG firstNZPosInCG lastNZPosInCG signbit =>
       hdqSearch qCoef coef deltaU scan subPos lastCG firstNZPosInCG lastNZPosInCG signbit)
    coef scan.

Definition signBitHidingHDQ (qCoef coef deltaU : list Z) (numSig : Z)
    (codingParameters : TUEntropyCodingParameters) : list Z * Z :=
  let '(qCoef, numSig, _) :=
    for_down (2 ^ (log2TrSizeCG codingParameters * 2))%nat
      (hdqSubSet coef deltaU (scan codingParameters)) (qCoef, numSig, 1) in
  (qCoef, numSig).

(** ** Plain quantisation: [Quant::quant] (lines 326-351) *)

Section Encoder.

(** Compile-time parameters declared outside this file: the bit depth
    [X265_DEPTH], the Rice range table and [getGroupIdx]. *)
Variable X265_DEPTH : Z.
Variable g_goRiceRange : list Z.
Variable getGroupIdx : Z -> Z.

Definition scalingListTypeOf (cu : TComDataCU) (ttype : TextType) : Z :=
  (if isIntra cu then 0 else 3) + ttypeIdx ttype.

Definition quant (q : Quant) (cu : TComDataCU) (qCoef : list Z) (log2TrSize : Z)
    (ttype : TextType) : list Z * Z :=
  let deltaU := replicate (32 * 32) 0 in
  let scalingListType := scalingListTypeOf cu ttype in
  let rem := rem (m_qpParam q ttype) in
  let per := per (m_qpParam q ttype) in
  let quantCoeff := m_quantCoef (m_scalingList q) (log2TrSize - 2) scalingListType rem in
  let transformShift := MAX_TR_DYNAMIC_RANGE - X265_DEPTH - log2TrSize in
  let qbits := QUANT_SHIFT + per + transformShift in
  let add := Z.shiftl (if sliceIsI cu then 171 else 85) (qbits - 9) in
  let numCoeff := Z.to_nat (Z.shiftl 1 (log2TrSize * 2)) in
  let '(deltaU, qCoef, numSig) :=
    prim_quant (m_resiDctCoeff q) quantCoeff deltaU qCoef qbits add numCoeff in
  if (2 <=? numSig) && bSignHideEnabled cu then
    let codingParameters := getTUEntropyCodingParameters cu log2TrSize (isLuma ttype) in
    signBitHidingHDQ qCoef (m_resiDctCoeff q) deltaU numSig codingParameters
  else (qCoef, numSig).

(** ** Transform-quant bypass (lines 365-379 and 429-436) *)

Definition bypassCopy (residual : list Z) (stride : nat) (trSize : nat) (k j : nat)
    (st : list Z * Z) : list Z * Z :=
  let '(coeff, numSig) := st in
  (<[(k * trSize + j)%nat := s16 (residual !!! (k * stride + j)%nat)]> coeff,
   u32 (numSig + (if residual !!! (k * stride + j)%nat =? 0 then 0 else 1))).

Definition transformBypass (residual : list Z) (stride : nat) (coeff : list Z) (trSize : nat)
    : list Z * Z :=
  for_up trSize 0 (fun k st => for_up trSize 0 (bypassCopy residual stride trSize k) st)
    (coeff, 0).

Definition invBypassCopy (coeff : list Z) (stride : nat) (trSize : nat) (k j : nat)
    (residual : list Z) : list Z :=
  <[(k * stride + j)%nat := s16 (coeff !!! (k * trSize + j)%nat)]> residual.

Definition invtransformBypass (residual : list Z) (stride : nat) (coeff : list Z)
    (trSize : nat) : list Z :=
  for_up trSize 0 (fun k r => for_up trSize 0 (invBypassCopy coeff stride trSize k) r)
    residual.

(** ** Context derivation (lines 998-1077, 1105-1118) *)

Definition calcPatternSigCtx (sigCoeffGroupFlag64 cgPosX cgPosY log2TrSizeCG : Z) : Z :=
  if log2TrSizeCG =? 0 then 0
  else
    let trSizeCG := Z.shiftl 1 log2TrSizeCG in
    let sigPos := u32 (Z.shiftr sigCoeffGroupFlag64
                         (1 + Z.shiftl cgPosY log2TrSizeCG + cgPosX)) in
    let sigRight := Z.land (u32 (asr31 (s32 (cgPosX - (trSizeCG - 1))))) (Z.land sigPos 1) in
    let sigLower :=
      Z.land (Z.land (u32 (asr31 (s32 (cgPosY - (trSizeCG - 1)))))
                     (Z.shiftr sigPos (trSizeCG - 2))) 2 in
    u32 (sigRight + sigLower).

Definition ctxIndMap : list Z :=
  [0; 1; 4; 5; 2; 3; 4; 5; 6; 6; 8; 8; 7; 7; 8; 8].

(** [table_cnt[patternSigCtx][posXinSubset][posYinSubset]] *)
Definition table_cnt : list (list (list Z)) :=
  [ [ [2; 1; 1; 0]; [1; 1; 0; 0]; [1; 0; 0; 0]; [0; 0; 0; 0] ];
    [ [2; 1; 0; 0]; [2; 1; 0; 0]; [2; 1; 0; 0]; [2; 1; 0; 0] ];
    [ [2; 2; 2; 2]; [1; 1; 1; 1]; [0; 0; 0; 0]; [0; 0; 0; 0] ];
    [ [2; 2; 2; 2]; [2; 2; 2; 2]; [2; 2; 2; 2]; [2; 2; 2; 2] ] ].

Definition getSigCtxInc (patternSigCtx log2TrSize trSize blkPos : Z) (bIsLuma : bool)
    (firstSignificanceMapContext : Z) : Z :=
  if blkPos =? 0 then 0
  else if log2TrSize =? 2 then ctxIndMap !!! Z.to_nat blkPos
  else
    let posY := Z.shiftr blkPos log2TrSize in
    let posX := Z.land blkPos (trSize - 1) in
    let posXinSubset := Z.land blkPos 3 in
    let posYinSubset := Z.land posY 3 in
    let cnt := ((table_cnt !!! Z.to_nat patternSigCtx) !!! Z.to_nat posXinSubset)
                 !!! Z.to_nat posYinSubset in
    let offset := s32 (firstSignificanceMapContext + cnt) in
    if bIsLuma && (4 <=? Z.lor posX posY) then u32 (3 + offset) else u32 offset.

Definition getSigCoeffGroupCtxInc (sigCoeffGroupFlag64 cgPosX cgPosY log2TrSizeCG : Z) : Z :=
  let trSizeCG := Z.shiftl 1 log2TrSizeCG in
  let sigPos := u32 (Z.shiftr sigCoeffGroupFlag64
                       (1 + Z.shiftl cgPosY log2TrSizeCG + cgPosX)) in
  let sigRight := Z.land (u32 (asr31 (s32 (cgPosX - (trSizeCG - 1))))) sigPos in
  let sigLower := Z.land (u32 (asr31 (s32 (cgPosY - (trSizeCG - 1)))))
                         (Z.shiftr sigPos (trSizeCG - 1)) in
  Z.land (Z.lor sigRight sigLower) 1.

(** ** Rate-distortion optimised quantisation: [Quant::rdoQuant] (lines 500-995) *)

Record coeffGroupRDStats := {
  nnzBeforePos0 : Z;
  codedLevelAndDist : float;
  uncodedDist : float;
  sigCost : float;
  sigCost0 : float
}.

(** The local variables of [rdoQuant] that the scan loops update. *)
Record RdoState := {
  dstCoeff : list Z;
  costCoeff : list float;
  costSig : list float;
  costCoeff0 : list float;
  rateIncUp : list Z;
  rateIncDown : list Z;
  sigRateDelta : list Z;
  deltaU : list Z;
  costCoeffGroupSig : list float;
  sigCoeffGroupFlag64 : Z;
  ctxSet : Z;
  c1 : Z;
  c2 : Z;
  baseCost : float;
  blockUncodedCost : float;
  lastScanPos : Z;
  goRiceParam : Z;
  c1Idx : Z;
  c2Idx : Z;
  cgLastScanPos : Z;
  rdStats : coeffGroupRDStats
}.

(** The running values of the macro [RDO_CODED_LEVEL]: [level],
    [costCoeff[scanPos]], [costSig[scanPos]] and [err2]. *)
Record LevelSearch := {
  ls_level : Z;
  ls_costCoeff : float;
  ls_costSig : float;
  ls_err2 : float
}.

Definition SIGN (x y : Z) : Z := s32 (Z.lxor x (asr31 y) - asr31 y).

Section RdoQuant.

Variables (q : Quant) (cu : TComDataCU) (log2TrSize : Z) (ttype : TextType).
(** [scaledCoeff] as [primitives.nquant] left it. *)
Variable scaledCoeff : list Z.

Let trSize : Z := Z.shiftl 1 log2TrSize.
Let transformShift : Z := MAX_TR_DYNAMIC_RANGE - X265_DEPTH - log2TrSize.
Let scalingListType : Z := scalingListTypeOf cu ttype.
Let qbits : Z := QUANT_SHIFT + per (m_qpParam q ttype) + transformShift.
Let unquantShift : Z := QUANT_IQUANT_SHIFT - QUANT_SHIFT - transformShift.
Let unquantRound : Z := s32 (Z.shiftl 1 unquantShift - 1).
Let unquantScale : Z :=
  s32 (Z.shiftl (s_invQuantScales (m_scalingList q) !!! Z.to_nat (rem (m_qpParam q ttype)))
                (per (m_qpParam q ttype))).
Let scaleBits : Z := SCALE_BITS - 2 * transformShift.
Let errScale : list float :=
  m_errScale (m_scalingList q) (log2TrSize - 2) scalingListType (rem (m_qpParam q ttype)).
Let bIsLuma : bool := isLuma ttype.
Let usePsy : bool := negb (m_psyRdoqScale q =? 0) && bIsLuma.
Let lambda2 : float := m_lambda2 q ttype.
Let est : EstBitsSbac := m_estBitsSbac q.
Let codingParameters : TUEntropyCodingParameters :=
  getTUEntropyCodingParameters cu log2TrSize bIsLuma.

(** One iteration of the loop of [RDO_CODED_LEVEL] (lines 624-648). *)
Definition rdoLevelBody (blkPos : nat) (minAbsLevel baseLevel : Z)
    (greaterOneBits levelAbsBits : list Z) (goRiceParam c1c2Idx : Z)
    (scaleFactor : float) (curCostSig err1 : Z) (lvl : Z) (s : LevelSearch) : LevelSearch :=
  let rateCost :=
    getICRateCost lvl (s32 (lvl - baseLevel)) greaterOneBits levelAbsBits goRiceParam c1c2Idx in
  let curCost :=
    (ls_err2 s * scaleFactor + lambda2 * double_of_Z (u32 (curCostSig + rateCost)))%float in
  let psyValue :=
    if usePsy && negb (blkPos =? 0)%nat then
      let signCoef := m_resiDctCoeff q !!! blkPos in
      let predictedCoef := s32 (m_fencDctCoeff q !!! blkPos - signCoef) in
      let unquantAbsLevel :=
        s32 (Z.shiftr (u32 (u32 (lvl * unquantScale) + unquantRound)) unquantShift) in
      let reconCoef :=
        s32 (Z.shiftl (Z.abs (s32 (unquantAbsLevel + SIGN predictedCoef signCoef))) scaleBits) in
      s32 (Z.shiftr (u64 (m_psyRdoqScale q * u64 reconCoef)) 8)
    else 0 in
  let cand := (curCost - double_of_Z psyValue)%float in
  let better := (cand <? ls_costCoeff s)%float in
  let err2 :=
    if minAbsLevel <? lvl then
      let err3 := s64 (2 * err1 * Z.shiftl 1 qbits) in
      let err4 := s64 (Z.shiftl 1 qbits * Z.shiftl 1 qbits) in
      (ls_err2 s + double_of_Z (s64 (err3 + err4)))%float
    else ls_err2 s in
  {| ls_level := if better then lvl else ls_level s;
     ls_costCoeff := if better then cand else ls_costCoeff s;
     ls_costSig := if better then (lambda2 * double_of_Z curCostSig)%float else ls_costSig s;
     ls_err2 := err2 |}.

(** [for (lvl = maxAbsLevel; lvl >= minAbsLevel; lvl--)] *)
Fixpoint rdoLevelLoop (cnt : nat) (body : Z -> LevelSearch -> LevelSearch) (lvl : Z)
    (s : LevelSearch) : LevelSearch :=
  match cnt with
  | O => s
  | S cnt' => rdoLevelLoop cnt' body (lvl - 1) (body lvl s)
  end.

(** The macro [RDO_CODED_LEVEL(curCostSig)] (lines 616-649). *)
Definition RDO_CODED_LEVEL (blkPos : nat) (levelDouble maxAbsLevel baseLevel : Z)
    (greaterOneBits levelAbsBits : list Z) (goRiceParam c1c2Idx : Z) (scaleFactor : float)
    (curCostSig : Z) (costCoeffAt costSigAt : float) : LevelSearch :=
  let err1 := s32 (levelDouble - u32 (Z.shiftl maxAbsLevel qbits)) in
  let err2 := double_of_Z (s64 (err1 * err1)) in
  let minAbsLevel := Z.max (u32 (maxAbsLevel - 1)) 1 in
  rdoLevelLoop (Z.to_nat (maxAbsLevel - minAbsLevel + 1))
    (rdoLevelBody blkPos minAbsLevel baseLevel greaterOneBits levelAbsBits goRiceParam
       c1c2Idx scaleFactor curCostSig err1)
    maxAbsLevel
    {| ls_level := 0; ls_costCoeff := costCoeffAt; ls_costSig := costSigAt; ls_err2 := err2 |}.

(** Lines 577-598: the uncoded cost of the coefficient and the detection of
    the last nonzero coefficient of the reverse scan. *)
Definition rdoCoeffInit (cgScanPos scanPos : nat) (s : RdoState) : RdoState :=
  let blkPos := scan codingParameters !!! scanPos in
  let scaleFactor := errScale !!! blkPos in
  let levelDouble := scaledCoeff !!! blkPos in
  let maxAbsLevel := u32 (Z.abs (dstCoeff s !!! blkPos)) in
  let cost0 := (double_of_Z (u64 (u64 levelDouble * u64 levelDouble)) * scaleFactor)%float in
  let isNewLast := (0 <? maxAbsLevel) && (lastScanPos s <? 0) in
  {| dstCoeff := dstCoeff s;
     costCoeff := costCoeff s;
     costSig := costSig s;
     costCoeff0 := <[scanPos := cost0]> (costCoeff0 s);
     rateIncUp := rateIncUp s;
     rateIncDown := rateIncDown s;
     sigRateDelta := sigRateDelta s;
     deltaU := deltaU s;
     costCoeffGroupSig := costCoeffGroupSig s;
     sigCoeffGroupFlag64 := sigCoeffGroupFlag64 s;
     ctxSet :=
       if isNewLast then (if (scanPos <? SCAN_SET_SIZE)%nat || negb bIsLuma then 0 else 2)
       else ctxSet s;
     c1 := c1 s;
     c2 := c2 s;
     baseCost := baseCost s;
     blockUncodedCost := (blockUncodedCost s + cost0)%float;
     lastScanPos := if isNewLast then Z.of_nat scanPos else lastScanPos s;
     goRiceParam := goRiceParam s;
     c1Idx := c1Idx s;
     c2Idx := c2Idx s;
     cgLastScanPos := if isNewLast then Z.of_nat cgScanPos else cgLastScanPos s;
     rdStats := rdStats s |}.

(** The level chosen for the coefficient (lines 610-674), with the costs
    written to [costCoeff[scanPos]] and [costSig[scanPos]]. *)
Definition rdoChooseLevel (patternSigCtx : Z) (scanPos : nat) (c1c2Idx baseLevel : Z)
    (greaterOneBits levelAbsBits : list Z) (s : RdoState) : LevelSearch :=
  let blkPos := scan codingParameters !!! scanPos in
  let scaleFactor := errScale !!! blkPos in
  let levelDouble := scaledCoeff !!! blkPos in
  let maxAbsLevel := u32 (Z.abs (dstCoeff s !!! blkPos)) in
  if Z.of_nat scanPos =? lastScanPos s then
    RDO_CODED_LEVEL blkPos levelDouble maxAbsLevel baseLevel greaterOneBits levelAbsBits
      (goRiceParam s) c1c2Idx scaleFactor 0 MAX_DOUBLE (costSig s !!! scanPos)
  else
    let ctxSig := getSigCtxInc patternSigCtx log2TrSize trSize (Z.of_nat blkPos) bIsLuma
                    (firstSignificanceMapContext codingParameters) in
    let sig0 := (lambda2 * double_of_Z (bits2 (significantBits est) ctxSig 0))%float in
    let '(cc, cs) :=
      if maxAbsLevel <? 3 then ((costCoeff0 s !!! scanPos + sig0)%float, sig0)
      else (MAX_DOUBLE, costSig s !!! scanPos) in
    if negb (maxAbsLevel =? 0) then
      RDO_CODED_LEVEL blkPos levelDouble maxAbsLevel baseLevel greaterOneBits levelAbsBits
        (goRiceParam s) c1c2Idx scaleFactor (bits2 (significantBits est) ctxSig 1) cc cs
    else {| ls_level := 0; ls_costCoeff := cc; ls_costSig := cs; ls_err2 := 0 |}.

(** Lines 600-727: the coefficient is coded once the last position is known. *)
Definition rdoCoeffCode (patternSigCtx : Z) (scanPos : nat) (s : RdoState) : RdoState :=
  let blkPos := scan codingParameters !!! scanPos in
  let levelDouble := scaledCoeff !!! blkPos in
  if 0 <=? lastScanPos s then
    let c1c2Idx :=
      u32 (Z.shiftr (u32 (c1Idx s - 8)) 31 + (asr31 (s32 (- c2Idx s)) + 1) * 2) in
    let baseLevel := Z.land (Z.shiftr 217 (c1c2Idx * 2)) 3 in
    let oneCtx := u32 (4 * ctxSet s + c1 s) in
    let absCtx := u32 (ctxSet s + c2 s) in
    let g1 := greaterOneBits est !!! Z.to_nat oneCtx in
    let la := levelAbsBits est !!! Z.to_nat absCtx in
    let ls := rdoChooseLevel patternSigCtx scanPos c1c2Idx baseLevel g1 la s in
    let level := ls_level ls in
    let ctxSig := getSigCtxInc patternSigCtx log2TrSize trSize (Z.of_nat blkPos) bIsLuma
                    (firstSignificanceMapContext codingParameters) in
    let sigDelta :=
      if Z.of_nat scanPos =? lastScanPos s then 0
      else s32 (bits2 (significantBits est) ctxSig 1 - bits2 (significantBits est) ctxSig 0) in
    let rateNow := getICRate g_goRiceRange level (s32 (level - baseLevel)) g1 la
                     (goRiceParam s) c1c2Idx in
    let incUp :=
      if 0 <? level then
        s32 (getICRate g_goRiceRange (u32 (level + 1)) (s32 (level + 1 - baseLevel)) g1 la
               (goRiceParam s) c1c2Idx - rateNow)
      else g1 !!! 0%nat in
    let incDown :=
      if 0 <? level then
        s32 (getICRate g_goRiceRange (u32 (level - 1)) (s32 (level - 1 - baseLevel)) g1 la
               (goRiceParam s) c1c2Idx - rateNow)
      else 0 in
    let goRice1 :=
      if (baseLevel <=? level) && (goRiceParam s <? 4)
         && (u32 (Z.shiftl 3 (goRiceParam s)) <? level)
      then u32 (goRiceParam s + 1) else goRiceParam s in
    let c1Idx1 := u32 (c1Idx s - asr31 (s32 (- level))) in
    let c1_1 :=
      if 1 <? level then 0
      else if (c1 s <? 3) && (0 <? c1 s) && negb (level =? 0) then c1 s + 1 else c1 s in
    let c2_1 := if 1 <? level then s32 (c2 s + Z.shiftr (u32 (c2 s - 2)) 31) else c2 s in
    let c2Idx1 := if 1 <? level then u32 (c2Idx s + 1) else c2Idx s in
    let newSet := (Z.of_nat scanPos mod Z.of_nat SCAN_SET_SIZE =? 0) && (0 <? Z.of_nat scanPos) in
    {| dstCoeff := <[blkPos := s32 level]> (dstCoeff s);
       costCoeff := <[scanPos := ls_costCoeff ls]> (costCoeff s);
       costSig := <[scanPos := ls_costSig ls]> (costSig s);
       costCoeff0 := costCoeff0 s;
       rateIncUp := <[blkPos := incUp]> (rateIncUp s);
       rateIncDown := <[blkPos := incDown]> (rateIncDown s);
       sigRateDelta := <[blkPos := sigDelta]> (sigRateDelta s);
       deltaU := <[blkPos := Z.shiftr (s32 (levelDouble - s32 (Z.shiftl level qbits)))
                               (qbits - 8)]> (deltaU s);
       costCoeffGroupSig := costCoeffGroupSig s;
       sigCoeffGroupFlag64 := sigCoeffGroupFlag64 s;
       ctxSet :=
         if newSet then
           u32 ((if (scanPos =? SCAN_SET_SIZE)%nat || negb bIsLuma then 0 else 2)
                - asr31 (s32 (c1_1 - 1)))
         else ctxSet s;
       c1 := if newSet then 1 else c1_1;
       c2 := if newSet then 0 else c2_1;
       baseCost := (baseCost s + ls_costCoeff ls)%float;
       blockUncodedCost := blockUncodedCost s;
       lastScanPos := lastScanPos s;
       goRiceParam := if newSet then 0 else goRice1;
       c1Idx := if newSet then 0 else c1Idx1;
       c2Idx := if newSet then 0 else c2Idx1;
       cgLastScanPos := cgLastScanPos s;
       rdStats := rdStats s |}
  else
    {| dstCoeff := dstCoeff s;
       costCoeff := <[scanPos := 0%float]> (costCoeff s);
       costSig := costSig s;
       costCoeff0 := costCoeff0 s;
       rateIncUp := rateIncUp s;
       rateIncDown := rateIncDown s;
       sigRateDelta := sigRateDelta s;
       deltaU := deltaU s;
       costCoeffGroupSig := costCoeffGroupSig s;
       sigCoeffGroupFlag64 := sigCoeffGroupFlag64 s;
       ctxSet := ctxSet s;
       c1 := c1 s;
       c2 := c2 s;
       baseCost := (baseCost s + costCoeff0 s !!! scanPos)%float;
       blockUncodedCost := blockUncodedCost s;
       lastScanPos := lastScanPos s;
       goRiceParam := goRiceParam s;
       c1Idx := c1Idx s;
       c2Idx := c2Idx s;
       cgLastScanPos := cgLastScanPos s;
       rdStats := rdStats s |}.

(** Lines 729-740: the statistics of the coefficient group. *)
Definition rdoCoeffStats (cgBlkPosMask : Z) (scanPosinCG scanPos : nat) (s : RdoState)
    : RdoState :=
  let blkPos := scan codingParameters !!! scanPos in
  let st := rdStats s in
  let coded := negb (dstCoeff s !!! blkPos =? 0) in
  {| dstCoeff := dstCoeff s;
     costCoeff := costCoeff s;
     costSig := costSig s;
     costCoeff0 := costCoeff0 s;
     rateIncUp := rateIncUp s;
     rateIncDown := rateIncDown s;
     sigRateDelta := sigRateDelta s;
     deltaU := deltaU s;
     costCoeffGroupSig := costCoeffGroupSig s;
     sigCoeffGroupFlag64 :=
       if coded then Z.lor (sigCoeffGroupFlag64 s) cgBlkPosMask else sigCoeffGroupFlag64 s;
     ctxSet := ctxSet s;
     c1 := c1 s;
     c2 := c2 s;
     baseCost := baseCost s;
     blockUncodedCost := blockUncodedCost s;
     lastScanPos := lastScanPos s;
     goRiceParam := goRiceParam s;
     c1Idx := c1Idx s;
     c2Idx := c2Idx s;
     cgLastScanPos := cgLastScanPos s;
     rdStats :=
       {| nnzBeforePos0 :=
            if coded && negb (scanPosinCG =? 0)%nat then s32 (nnzBeforePos0 st + 1)
            else nnzBeforePos0 st;
          codedLevelAndDist :=
            if coded then (codedLevelAndDist st
                           + (costCoeff s !!! scanPos - costSig s !!! scanPos))%float
            else codedLevelAndDist st;
          uncodedDist :=
            if coded then (uncodedDist st + costCoeff0 s !!! scanPos)%float
            else uncodedDist st;
          sigCost := (sigCost st + costSig s !!! scanPos)%float;
          sigCost0 := if (scanPosinCG =? 0)%nat then costSig s !!! scanPos else sigCost0 st |}
  |}.

(** The body of the loop over [scanPosinCG] (lines 575-741). *)
Definition rdoCoeff (cgScanPos : nat) (patternSigCtx cgBlkPosMask : Z) (scanPosinCG : nat)
    (s : RdoState) : RdoState :=
  let scanPos := (cgScanPos * SCAN_SET_SIZE + scanPosinCG)%nat in
  rdoCoeffStats cgBlkPosMask scanPosinCG scanPos
    (rdoCoeffCode patternSigCtx scanPos (rdoCoeffInit cgScanPos scanPos s)).

(** Lines 790-800: the coefficients of the group are reset to zero. *)
Definition rdoZeroCoeff (cgScanPos : nat) (scanPosinCG : nat)
    (st : list Z * list float * list float * list float)
    : list Z * list float * list float * list float :=
  let '(dst, cc, cs, cc0) := st in
  let scanPos := (cgScanPos * SCAN_SET_SIZE + scanPosinCG)%nat in
  let blkPos := scan codingParameters !!! scanPos in
  if negb (dst !!! blkPos =? 0) then
    (<[blkPos := 0]> dst, <[scanPos := cc0 !!! scanPos]> cc, <[scanPos := 0%float]> cs, cc0)
  else (<[blkPos := 0]> dst, cc, cs, cc0).

(** Lines 743-807: the costs of the coefficient group are summarised and the
    group is zeroed when that is cheaper. *)
Definition rdoCGTail (cgScanPos : nat) (cgPosX cgPosY cgBlkPosMask : Z) (s : RdoState)
    : RdoState :=
  if 0 <=? cgLastScanPos s then
    let cgSig := <[cgScanPos := 0%float]> (costCoeffGroupSig s) in
    let l2CG := Z.of_nat (log2TrSizeCG codingParameters) in
    let ctxSig := getSigCoeffGroupCtxInc (sigCoeffGroupFlag64 s) cgPosX cgPosY l2CG in
    let bits0 := (lambda2 * double_of_Z (bits2 (significantCoeffGroupBits est) ctxSig 0))%float in
    let bits1 := (lambda2 * double_of_Z (bits2 (significantCoeffGroupBits est) ctxSig 1))%float in
    let st := rdStats s in
    (* the values when nothing below changes them *)
    let keep (cgSig : list float) (flag : Z) (base : float) (st : coeffGroupRDStats)
             (arr : list Z * list float * list float * list float) :=
      let '(dst, cc, cs, cc0) := arr in
      {| dstCoeff := dst; costCoeff := cc; costSig := cs; costCoeff0 := cc0;
         rateIncUp := rateIncUp s; rateIncDown := rateIncDown s;
         sigRateDelta := sigRateDelta s; deltaU := deltaU s;
         costCoeffGroupSig := cgSig; sigCoeffGroupFlag64 := flag;
         ctxSet := ctxSet s; c1 := c1 s; c2 := c2 s;
         baseCost := base; blockUncodedCost := blockUncodedCost s;
         lastScanPos := lastScanPos s; goRiceParam := goRiceParam s;
         c1Idx := c1Idx s; c2Idx := c2Idx s; cgLastScanPos := cgLastScanPos s;
         rdStats := st |} in
    let arr0 := (dstCoeff s, costCoeff s, costSig s, costCoeff0 s) in
    if negb (cgScanPos =? 0)%nat then
      if Z.land (sigCoeffGroupFlag64 s) cgBlkPosMask =? 0 then
        keep (<[cgScanPos := bits0]> cgSig) (sigCoeffGroupFlag64 s)
             (baseCost s + (bits0 - sigCost st))%float st arr0
      else if Z.of_nat cgScanPos <? cgLastScanPos s then
        let noneBefore := nnzBeforePos0 st =? 0 in
        let base1 := if noneBefore then (baseCost s - sigCost0 st)%float else baseCost s in
        let st1 :=
          {| nnzBeforePos0 := nnzBeforePos0 st;
             codedLevelAndDist := codedLevelAndDist st;
             uncodedDist := uncodedDist st;
             sigCost := if noneBefore then (sigCost st - sigCost0 st)%float else sigCost st;
             sigCost0 := sigCost0 st |} in
        let costZeroCG := base1 in
        let base2 := (base1 + bits1)%float in
        let costZeroCG := (costZeroCG + bits0)%float in
        let cgSig1 := <[cgScanPos := bits1]> cgSig in
        let costZeroCG := (costZeroCG + uncodedDist st1)%float in
        let costZeroCG := (costZeroCG - codedLevelAndDist st1)%float in
        let costZeroCG := (costZeroCG - sigCost st1)%float in
        if (costZeroCG <? base2)%float then
          keep (<[cgScanPos := bits0]> cgSig1)
               (Z.land (sigCoeffGroupFlag64 s) (u64 (Z.lnot cgBlkPosMask)))
               costZeroCG st1
               (for_down SCAN_SET_SIZE (rdoZeroCoeff cgScanPos) arr0)
        else keep cgSig1 (sigCoeffGroupFlag64 s) base2 st1 arr0
      else keep cgSig (sigCoeffGroupFlag64 s) (baseCost s) st arr0
    else keep cgSig (Z.lor (sigCoeffGroupFlag64 s) cgBlkPosMask) (baseCost s) st arr0
  else s.

Definition zeroStats : coeffGroupRDStats :=
  {| nnzBeforePos0 := 0; codedLevelAndDist := 0%float; uncodedDist := 0%float;
     sigCost := 0%float; sigCost0 := 0%float |}.

(** The body of the loop over the coefficient groups (lines 565-808). *)
Definition rdoCG (cgScanPos : nat) (s : RdoState) : RdoState :=
  let l2CG := Z.of_nat (log2TrSizeCG codingParameters) in
  let cgBlkPos := Z.of_nat (scanCG codingParameters !!! cgScanPos) in
  let cgPosY := Z.shiftr cgBlkPos l2CG in
  let cgPosX := u32 (cgBlkPos - u32 (Z.shiftl cgPosY l2CG)) in
  let cgBlkPosMask := u64 (Z.shiftl 1 cgBlkPos) in
  let s0 :=
    {| dstCoeff := dstCoeff s; costCoeff := costCoeff s; costSig := costSig s;
       costCoeff0 := costCoeff0 s; rateIncUp := rateIncUp s; rateIncDown := rateIncDown s;
       sigRateDelta := sigRateDelta s; deltaU := deltaU s;
       costCoeffGroupSig := costCoeffGroupSig s;
       sigCoeffGroupFlag64 := sigCoeffGroupFlag64 s;
       ctxSet := ctxSet s; c1 := c1 s; c2 := c2 s;
       baseCost := baseCost s; blockUncodedCost := blockUncodedCost s;
       lastScanPos := lastScanPos s; goRiceParam := goRiceParam s;
       c1Idx := c1Idx s; c2Idx := c2Idx s; cgLastScanPos := cgLastScanPos s;
       rdStats := zeroStats |} in
  let patternSigCtx := calcPatternSigCtx (sigCoeffGroupFlag64 s) cgPosX cgPosY l2CG in
  rdoCGTail cgScanPos cgPosX cgPosY cgBlkPosMask
    (for_down SCAN_SET_SIZE (rdoCoeff cgScanPos patternSigCtx cgBlkPosMask) s0).

Definition rdoInit (dst : list Z) : RdoState :=
  {| dstCoeff := dst;
     costCoeff := replicate (32 * 32) 0%float;
     costSig := replicate (32 * 32) 0%float;
     costCoeff0 := replicate (32 * 32) 0%float;
     rateIncUp := replicate (32 * 32) 0;
     rateIncDown := replicate (32 * 32) 0;
     sigRateDelta := replicate (32 * 32) 0;
     deltaU := replicate (32 * 32) 0;
     costCoeffGroupSig := replicate 64 0%float;
     sigCoeffGroupFlag64 := 0;
     ctxSet := 0; c1 := 1; c2 := 0;
     baseCost := 0%float; blockUncodedCost := 0%float;
     lastScanPos := -1; goRiceParam := 0; c1Idx := 0; c2Idx := 0;
     cgLastScanPos := -1;
     rdStats := zeroStats |}.

(** The reverse scan over the coefficient groups (lines 565-808). *)
Definition rdoScan (dst : list Z) : RdoState :=
  for_down (2 ^ (log2TrSizeCG codingParameters * 2))%nat rdoCG (rdoInit dst).

(** The state of the search for the best last position (lines 813-870). *)
Record LastSearch := {
  lp_baseCost : float;
  lp_bestCost : float;
  bestLastIdx : Z;
  foundLast : bool
}.

Definition rdoLastCoeff (s : RdoState) (cgScanPos scanPosinCG : nat) (l : LastSearch)
    : LastSearch :=
  if foundLast l then l
  else
    let scanPos := (cgScanPos * SCAN_SET_SIZE + scanPosinCG)%nat in
    if lastScanPos s <? Z.of_nat scanPos then l
    else
      let blkPos := scan codingParameters !!! scanPos in
      if negb (dstCoeff s !!! blkPos =? 0) then
        let posY := Z.shiftr (Z.of_nat blkPos) log2TrSize in
        let posX := u32 (Z.of_nat blkPos - u32 (Z.shiftl posY log2TrSize)) in
        let rate :=
          if scanType codingParameters =? SCAN_VER
          then getRateLast getGroupIdx est posY posX
          else getRateLast getGroupIdx est posX posY in
        let costLast := (lambda2 * double_of_Z rate)%float in
        let totalCost := (lp_baseCost l + costLast - costSig s !!! scanPos)%float in
        let better := (totalCost <? lp_bestCost l)%float in
        let best := if better then totalCost else lp_bestCost l in
        let idx := if better then Z.of_nat scanPos + 1 else bestLastIdx l in
        if 1 <? dstCoeff s !!! blkPos then
          {| lp_baseCost := lp_baseCost l; lp_bestCost := best; bestLastIdx := idx;
             foundLast := true |}
        else
          {| lp_baseCost :=
               (lp_baseCost l - costCoeff s !!! scanPos + costCoeff0 s !!! scanPos)%float;
             lp_bestCost := best; bestLastIdx := idx; foundLast := false |}
      else
        {| lp_baseCost := (lp_baseCost l - costSig s !!! scanPos)%float;
           lp_bestCost := lp_bestCost l; bestLastIdx := bestLastIdx l;
           foundLast := false |}.

Definition rdoLastCG (s : RdoState) (cgScanPos : nat) (l : LastSearch) : LastSearch :=
  if foundLast l then l
  else
    let cgBlkPos := Z.of_nat (scanCG codingParameters !!! cgScanPos) in
    let l1 :=
      {| lp_baseCost := (lp_baseCost l - costCoeffGroupSig s !!! cgScanPos)%float;
         lp_bestCost := lp_bestCost l; bestLastIdx := bestLastIdx l;
         foundLast := false |} in
    if Z.land (sigCoeffGroupFlag64 s) (u64 (Z.shiftl 1 cgBlkPos)) =? 0 then l1
    else for_down SCAN_SET_SIZE (rdoLastCoeff s cgScanPos) l1.

(** Lines 813-870: the CBF cost and the search for the best last position. *)
Definition rdoLastPos (s : RdoState) : LastSearch :=
  let rootCbf := negb (isIntra cu) && bIsLuma && (getTransformIdx cu =? 0) in
  let ctxCbf := if rootCbf then 0 else getCtxQtCbf cu ttype in
  let cbp := if rootCbf then blockRootCbpBits est else blockCbpBits est in
  let bestCost := (blockUncodedCost s + lambda2 * double_of_Z (bits2 cbp ctxCbf 0))%float in
  let base := (baseCost s + lambda2 * double_of_Z (bits2 cbp ctxCbf 1))%float in
  for_down (Z.to_nat (cgLastScanPos s + 1)) (rdoLastCG s)
    {| lp_baseCost := base; lp_bestCost := bestCost; bestLastIdx := 0; foundLast := false |}.

(** Lines 872-886: the signs of the DCT coefficients are applied, the
    nonzero levels counted and the uncoded tail cleared. *)
Definition rdoSignStep (pos : nat) (st : list Z * Z) : list Z * Z :=
  let '(dst, numSig) := st in
  let blkPos := scan codingParameters !!! pos in
  let level := dst !!! blkPos in
  let mask := asr31 (m_resiDctCoeff q !!! blkPos) in
  (<[blkPos := s32 (Z.lxor level mask - mask)]> dst,
   u32 (numSig + (if level =? 0 then 0 else 1))).

Definition rdoCleanStep (pos : nat) (dst : list Z) : list Z :=
  <[scan codingParameters !!! pos := 0]> dst.

Definition rdoFinish (s : RdoState) (bestLastIdx : Z) : list Z * Z :=
  let '(dst, numSig) := for_up (Z.to_nat bestLastIdx) 0 rdoSignStep (dstCoeff s, 0) in
  (for_up (Z.to_nat (lastScanPos s + 1 - bestLastIdx)) (Z.to_nat bestLastIdx) rdoCleanStep dst,
   numSig).

(** ** Sign-bit hiding in RDOQ (lines 888-992) *)

Definition rdoCandidate (s : RdoState) (rdFactor : Z) (dst : list Z) (subPos : nat)
    (lastCG : Z) (firstNZPosInCG lastNZPosInCG : nat) (signbit : Z) (n : nat)
    (sr : SbhSearch) : SbhSearch :=
  let blkPos := scan codingParameters !!! (n + subPos)%nat in
  let '(cost, change) :=
    if negb (dst !!! blkPos =? 0) then
      let isOne := Z.abs (dst !!! blkPos) =? 1 in
      let costUp := s64 (s64 (rdFactor * s32 (- deltaU s !!! blkPos)) + rateIncUp s !!! blkPos) in
      let costDown :=
        s64 (s64 (s64 (rdFactor * deltaU s !!! blkPos) + rateIncDown s !!! blkPos)
             - (if isOne then s32 (32768 + sigRateDelta s !!! blkPos) else 0)) in
      let costDown :=
        if (lastCG =? 1) && (lastNZPosInCG =? n)%nat && isOne
        then s64 (costDown - 131072) else costDown in
      if costUp <? costDown then (costUp, 1)
      else if (n =? firstNZPosInCG)%nat && isOne then (MAX_INT64, -1)
           else (costDown, -1)
    else
      let cost :=
        s64 (s64 (s64 (s64 (rdFactor * s32 (- Z.abs (deltaU s !!! blkPos))) + 32768)
                  + rateIncUp s !!! blkPos)
             + sigRateDelta s !!! blkPos) in
      if (n <? firstNZPosInCG)%nat then
        let thissignbit := if 0 <=? m_resiDctCoeff q !!! blkPos then 0 else 1 in
        if negb (thissignbit =? signbit) then (MAX_INT64, 1) else (cost, 1)
      else (cost, 1) in
  sbhSelect blkPos cost change sr.

Definition rdoSearch (s : RdoState) (rdFactor : Z) (dst : list Z) (subPos : nat)
    (lastCG : Z) (firstNZPosInCG lastNZPosInCG : nat) (signbit : Z) : SbhSearch :=
  for_down (if lastCG =? 1 then S lastNZPosInCG else SCAN_SET_SIZE)
    (rdoCandidate s rdFactor dst subPos lastCG firstNZPosInCG lastNZPosInCG signbit)
    {| minCostInc := MAX_INT64; minPos := -1; finalChange := 0;
       curCost := MAX_INT64; curChange := 0 |}.

Definition rdoFactor : Z :=
  let invQuant :=
    s32 (Z.shiftl (s_invQuantScales (m_scalingList q) !!! Z.to_nat (rem (m_qpParam q ttype)))
                  (per (m_qpParam q ttype))) in
  int64_of_double
    (double_of_Z (s64 (invQuant * invQuant)) / (lambda2 * 16) + 0.5)%float.

Definition rdoSignBitHiding (s : RdoState) (dst : list Z) (numSig : Z) : list Z * Z :=
  let '(dst, numSig, _) :=
    for_down (Z.to_nat (cgLastScanPos s + 1))
      (sbhSubSet s32 (rdoSearch s rdoFactor) (m_resiDctCoeff q) (scan codingParameters))
      (dst, numSig, 1) in
  (dst, numSig).

End RdoQuant.

Definition rdoQuant (q : Quant) (cu : TComDataCU) (dst : list Z) (log2TrSize : Z)
    (ttype : TextType) : list Z * Z :=
  let transformShift := MAX_TR_DYNAMIC_RANGE - X265_DEPTH - log2TrSize in
  let rem := rem (m_qpParam q ttype) in
  let per := per (m_qpParam q ttype) in
  let qbits := QUANT_SHIFT + per + transformShift in
  let add := Z.shiftl 1 (qbits - 1) in
  let qCoef := m_quantCoef (m_scalingList q) (log2TrSize - 2) (scalingListTypeOf cu ttype) rem in
  let numCoeff := Z.to_nat (Z.shiftl 1 (log2TrSize * 2)) in
  let '(scaledCoeff, dst, numSig) :=
    prim_nquant (m_resiDctCoeff q) qCoef (replicate (32 * 32) 0) dst qbits add numCoeff in
  if numSig =? 0 then (dst, 0)
  else
    let s := rdoScan q cu log2TrSize ttype scaledCoeff dst in
    if lastScanPos s <? 0 then (dstCoeff s, 0)
    else
      let l := rdoLastPos q cu log2TrSize ttype s in
      let '(dst, numSig) := rdoFinish q cu log2TrSize ttype s (bestLastIdx l) in
      if bSignHideEnabled cu && (2 <=? numSig) then
        rdoSignBitHiding q cu log2TrSize ttype s dst numSig
      else (dst, numSig).

(** ** The transform facade: [Quant::transformNxN] (lines 353-425) *)

(** Lines 381-419: the forward transform fills [m_resiDctCoeff] and, for
    psy-RDOQ on luma, [m_fencDctCoeff]; noise reduction filters the DCT
    coefficients unless the DST is used. *)
Definition forwardTransform (primitives : Primitives) (q : Quant) (cu : TComDataCU)
    (fenc : list Z) (fencStride : nat) (residual : list Z) (stride : nat)
    (log2TrSize : Z) (ttype : TextType) (useTransformSkip : bool) : Quant :=
  let trSize := Z.shiftl 1 log2TrSize in
  let build (resi fencDct short : list Z) (nr : NoiseReduction) :=
    {| m_useRDOQ := m_useRDOQ q; m_psyRdoqScale := m_psyRdoqScale q;
       m_scalingList := m_scalingList q; m_qpParam := m_qpParam q;
       m_lambda2 := m_lambda2 q; m_estBitsSbac := m_estBitsSbac q;
       m_nr := nr; m_resiDctCoeff := resi; m_fencDctCoeff := fencDct;
       m_fencShortBuf := short |} in
  if useTransformSkip then
    let shift := MAX_TR_DYNAMIC_RANGE - X265_DEPTH - log2TrSize in
    if 0 <=? shift then
      build (cvt16to32_shl primitives (m_resiDctCoeff q) residual stride shift trSize)
            (m_fencDctCoeff q) (m_fencShortBuf q) (m_nr q)
    else
      let shift := - shift in
      let offset := Z.shiftl 1 (shift - 1) in
      let n := Z.to_nat trSize in
      build (for_up n 0 (fun j r => for_up n 0 (fun k r =>
               <[(j * n + k)%nat :=
                   Z.shiftr (s32 (residual !!! (j * stride + k)%nat + offset)) shift]> r) r)
               (m_resiDctCoeff q))
            (m_fencDctCoeff q) (m_fencShortBuf q) (m_nr q)
  else
    let sizeIdx := log2TrSize - 2 in
    let useDST := (sizeIdx =? 0) && isLuma ttype && predModeIsIntra cu in
    let index := DCT_4x4 + sizeIdx - (if useDST then 1 else 0) in
    let psy := negb (m_psyRdoqScale q =? 0) && isLuma ttype in
    let short :=
      if psy then square_copy_ps primitives sizeIdx (m_fencShortBuf q) trSize fenc fencStride
      else m_fencShortBuf q in
    let fencDct :=
      if psy then dct primitives index short (m_fencDctCoeff q) (Z.to_nat trSize)
      else m_fencDctCoeff q in
    let resi := dct primitives index residual (m_resiDctCoeff q) stride in
    if bNoiseReduction (m_nr q) && negb useDST then
      let '(resi, resSum) :=
        denoiseDct resi (residualSum (m_nr q) sizeIdx) (offset (m_nr q) sizeIdx)
          (Z.to_nat (Z.shiftl 16 (sizeIdx * 2))) in
      build resi fencDct short
        {| bNoiseReduction := bNoiseReduction (m_nr q);
           residualSum := fun i => if i =? sizeIdx then resSum else residualSum (m_nr q) i;
           offset := offset (m_nr q);
           count := fun i => if i =? sizeIdx then u32 (count (m_nr q) i + 1)
                             else count (m_nr q) i |}
    else build resi fencDct short (m_nr q).

Definition transformNxN (primitives : Primitives) (q : Quant) (cu : TComDataCU)
    (fenc : list Z) (fencStride : nat) (residual : list Z) (stride : nat) (coeff : list Z)
    (log2TrSize : Z) (ttype : TextType) (useTransformSkip curUseRDOQ : bool)
    : Quant * list Z * Z :=
  let trSize := Z.to_nat (Z.shiftl 1 log2TrSize) in
  if getCUTransquantBypass cu then
    let '(coeff, numSig) := transformBypass residual stride coeff trSize in
    (q, coeff, numSig)
  else
    let q := forwardTransform primitives q cu fenc fencStride residual stride log2TrSize
               ttype useTransformSkip in
    let '(coeff, numSig) :=
      if m_useRDOQ q && curUseRDOQ then rdoQuant q cu coeff log2TrSize ttype
      else quant q cu coeff log2TrSize ttype in
    (q, coeff, numSig).

End Encoder.

(** ** The inverse facade: [Quant::invtransformNxN] (lines 427-496) *)

(** The dequantisation and the inverse transform (lines 438-495) run through
    kernels of the primitives table implemented outside this file;
    [inverseKernels] stands for that path. *)
Definition invtransformNxN (inverseKernels : list Z -> list Z -> list Z)
    (transQuantBypass : bool) (residual : list Z) (stride : nat) (coeff : list Z)
    (log2TrSize : Z) : list Z :=
  if transQuantBypass then
    invtransformBypass residual stride coeff (Z.to_nat (Z.shiftl 1 log2TrSize))
  else inverseKernels residual coeff.

(** The number of nonzero entries of a block. *)
Definition count_nonzero (l : list Z) : Z :=
  foldr (fun x acc => (if x =? 0 then 0 else 1) + acc) 0 l.

(* ================================================================== *)
(** * Part II: properties *)
(* ================================================================== *)

(** ** Machine integers *)

Lemma s32_id x : -2147483648 <= x < 2147483648 -> s32 x = x.
Proof. intros H. unfold s32. rewrite Z.mod_small; lia. Qed.

Lemma u32_id x : 0 <= x < 4294967296 -> u32 x = x.
Proof. intros H. unfold u32. apply Z.mod_small; lia. Qed.

Lemma s16_id x : -32768 <= x < 32768 -> s16 x = x.
Proof. intros H. unfold s16. rewrite Z.mod_small; lia. Qed.

Lemma s64_id x : -9223372036854775808 <= x < 9223372036854775808 -> s64 x = x.
Proof. intros H. unfold s64. rewrite Z.mod_small; lia. Qed.

Lemma u32_range x : 0 <= u32 x < 4294967296.
Proof. unfold u32. apply Z.mod_pos_bound. lia. Qed.

Lemma s32_range x : -2147483648 <= s32 x < 2147483648.
Proof.
  unfold s32. pose proof (Z.mod_pos_bound (x + 2147483648) 4294967296). lia.
Qed.

Lemma asr31_neg x : -2147483648 <= x < 0 -> asr31 x = -1.
Proof.
  intros H. unfold asr31. rewrite Z.shiftr_div_pow2 by lia.
  symmetry. apply (Z.div_unique x (2 ^ 31) (-1) (x + 2147483648)); lia.
Qed.

Lemma asr31_nonneg x : 0 <= x < 2147483648 -> asr31 x = 0.
Proof.
  intros H. unfold asr31. rewrite Z.shiftr_div_pow2 by lia.
  apply Z.div_small. lia.
Qed.

Lemma lxor_m1 x : Z.lxor x (-1) = - x - 1.
Proof. rewrite Z.lxor_m1_r. unfold Z.lnot. lia. Qed.

(** ** Loop invariants *)

Lemma for_up_ind {St : Type} (P : nat -> St -> Prop) (body : nat -> St -> St) :
  forall (n i0 : nat) (s : St),
    P i0 s ->
    (forall i s, (i0 <= i < i0 + n)%nat -> P i s -> P (S i) (body i s)) ->
    P (i0 + n)%nat (for_up n i0 body s).
Proof.
  induction n as [|n IH]; intros i0 s H0 Hstep; simpl.
  - replace (i0 + 0)%nat with i0 by lia. exact H0.
  - replace (i0 + S n)%nat with (S i0 + n)%nat by lia.
    apply IH.
    + apply Hstep; [lia | exact H0].
    + intros i s' Hi. apply Hstep. lia.
Qed.

Lemma for_down_ind {St : Type} (P : nat -> St -> Prop) (body : nat -> St -> St) :
  forall (n : nat) (s : St),
    P n s ->
    (forall i s, (i < n)%nat -> P (S i) s -> P i (body i s)) ->
    P O (for_down n body s).
Proof.
  induction n as [|n IH]; intros s H0 Hstep; simpl.
  - exact H0.
  - apply IH.
    + apply Hstep; [lia | exact H0].
    + intros i s' Hi. apply Hstep. lia.
Qed.

(** ** Noise reduction *)

(** What [denoise_step] leaves at index [i], in terms of the values read. *)
Definition denoise_coef (c off : Z) : Z :=
  let sign := asr31 c in
  let level := Z.lxor (s32 (c + sign)) sign in
  let level' := s32 (level - off) in
  if level' <? 0 then 0 else s32 (Z.lxor level' sign - sign).

Definition denoise_sum (c r : Z) : Z :=
  u32 (r + Z.lxor (s32 (c + asr31 c)) (asr31 c)).

Lemma denoiseDct_pointwise (dctCoef resSum off : list Z) (size : nat) :
  (size <= length dctCoef)%nat -> (size <= length resSum)%nat ->
  forall d r, denoiseDct dctCoef resSum off size = (d, r) ->
    length d = length dctCoef /\ length r = length resSum /\
    (forall j, (j < size)%nat ->
       d !!! j = denoise_coef (dctCoef !!! j) (off !!! j) /\
       r !!! j = denoise_sum (dctCoef !!! j) (resSum !!! j)) /\
    (forall j, (size <= j)%nat -> d !!! j = dctCoef !!! j /\ r !!! j = resSum !!! j).
Proof.
  intros Hd Hr d r Heq. unfold denoiseDct in Heq.
  pose (P := fun (i : nat) (st : list Z * list Z) =>
    length (fst st) = length dctCoef /\ length (snd st) = length resSum /\
    (forall j, (j < i)%nat ->
       fst st !!! j = denoise_coef (dctCoef !!! j) (off !!! j) /\
       snd st !!! j = denoise_sum (dctCoef !!! j) (resSum !!! j)) /\
    (forall j, (i <= j)%nat -> fst st !!! j = dctCoef !!! j /\ snd st !!! j = resSum !!! j)).
  assert (HP : P (0 + size)%nat (for_up size 0 (denoise_step off) (dctCoef, resSum))).
  { apply for_up_ind.
    - unfold P; simpl. repeat split; auto; intros; lia.
    - intros i [d0 r0] Hi (Hl1 & Hl2 & Hlt & Hge). unfold P in *; simpl in *.
      destruct (Hge i ltac:(lia)) as [Hdi Hri].
      rewrite !length_insert. repeat split; auto.
      + destruct (decide (j = i)) as [->|Hne].
        * rewrite list_lookup_total_insert_eq by lia.
          unfold denoise_coef. rewrite Hdi. reflexivity.
        * rewrite list_lookup_total_insert_ne by lia. apply Hlt. lia.
      + destruct (decide (j = i)) as [->|Hne].
        * rewrite list_lookup_total_insert_eq by lia.
          unfold denoise_sum. rewrite Hdi, Hri. reflexivity.
        * rewrite list_lookup_total_insert_ne by lia. apply Hlt. lia.
      + rewrite list_lookup_total_insert_ne by lia. apply Hge. lia.
      + rewrite list_lookup_total_insert_ne by lia. apply Hge. lia. }
  rewrite Heq in HP. exact HP.
Qed.

Lemma denoise_abs c : -2147483648 < c < 2147483648 ->
  Z.lxor (s32 (c + asr31 c)) (asr31 c) = Z.abs c.
Proof.
  intros H. destruct (Z.ltb_spec c 0).
  - rewrite asr31_neg by lia. rewrite s32_id by lia. rewrite lxor_m1. lia.
  - rewrite asr31_nonneg by lia. rewrite Z.add_0_r, s32_id by lia.
    rewrite Z.lxor_0_r. lia.
Qed.

Lemma denoise_coef_spec c off :
  -2147483648 < c < 2147483648 -> 0 <= off < 65536 ->
  Z.abs (denoise_coef c off) = Z.max (Z.abs c - off) 0 /\
  (denoise_coef c off <> 0 -> Z.sgn (denoise_coef c off) = Z.sgn c).
Proof.
  intros Hc Ho. unfold denoise_coef. cbv zeta.
  rewrite denoise_abs by lia.
  rewrite (s32_id (Z.abs c - off)) by lia.
  destruct (Z.ltb_spec (Z.abs c - off) 0) as [Hneg|Hpos].
  - split; [lia | intros Hn; exfalso; apply Hn; reflexivity].
  - destruct (Z.ltb_spec c 0).
    + rewrite asr31_neg by lia. rewrite lxor_m1, s32_id by lia. split; lia.
    + rewrite asr31_nonneg by lia. rewrite Z.lxor_0_r, s32_id by lia. split; lia.
Qed.

(** C10.  [denoiseDct] never increases the magnitude of a coefficient: the
    output magnitude is [max(|input| - offset, 0)], which is at most
    [|input|]; a nonzero output keeps the sign of its input; and
    [residualSum[i]] grows by [|input[i]|] in its 32-bit unsigned type, hence
    by exactly [|input[i]|] whenever the sum still fits that type.  The
    coefficients are those of the 32-bit [coeff_t] other than its minimum
    (whose absolute value does not exist in the type), the offsets are
    16-bit unsigned. *)
Theorem denoiseDct_spec (dctCoef resSum off : list Z) (size : nat) (i : nat) :
  (size <= length dctCoef)%nat -> (size <= length resSum)%nat ->
  (i < size)%nat ->
  -2147483648 < dctCoef !!! i < 2147483648 ->
  0 <= off !!! i < 65536 ->
  let out := fst (denoiseDct dctCoef resSum off size) in
  let sum := snd (denoiseDct dctCoef resSum off size) in
  Z.abs (out !!! i) = Z.max (Z.abs (dctCoef !!! i) - off !!! i) 0 /\
  Z.abs (out !!! i) <= Z.abs (dctCoef !!! i) /\
  (out !!! i <> 0 -> Z.sgn (out !!! i) = Z.sgn (dctCoef !!! i)) /\
  sum !!! i = u32 (resSum !!! i + Z.abs (dctCoef !!! i)) /\
  (0 <= resSum !!! i -> resSum !!! i + Z.abs (dctCoef !!! i) < 4294967296 ->
   sum !!! i = resSum !!! i + Z.abs (dctCoef !!! i)).
Proof.
  intros Hd Hr Hi Hc Ho out sum.
  destruct (denoiseDct dctCoef resSum off size) as [d r] eqn:Heq.
  destruct (denoiseDct_pointwise _ _ _ _ Hd Hr d r Heq) as (_ & _ & Hlt & _).
  destruct (Hlt i Hi) as [Hdi Hri].
  subst out sum; simpl. rewrite Hdi, Hri.
  destruct (denoise_coef_spec _ _ Hc Ho) as [Habs Hsgn].
  unfold denoise_sum. rewrite denoise_abs by lia.
  repeat split; auto.
  - rewrite Habs. lia.
  - intros H0 Hlt'. apply u32_id. lia.
Qed.

Lemma denoiseDct_spec_witness :
  let dctCoef := [-7; 5; 0; 300] in
  let resSum := [10; 4294967295; 0; 1] in
  let off := [3; 9; 1; 0] in
  Z.abs (fst (denoiseDct dctCoef resSum off 4) !!! 0%nat) = 4 /\
  snd (denoiseDct dctCoef resSum off 4) !!! 0%nat = 17.
Proof.
  intros dctCoef resSum off.
  assert (Hd : (4 <= length dctCoef)%nat) by (simpl; lia).
  assert (Hr : (4 <= length resSum)%nat) by (simpl; lia).
  assert (Hi : (0 < 4)%nat) by lia.
  assert (Hc : -2147483648 < dctCoef !!! 0%nat < 2147483648) by (simpl; lia).
  assert (Ho : 0 <= off !!! 0%nat < 65536) by (simpl; lia).
  destruct (denoiseDct_spec dctCoef resSum off 4 0 Hd Hr Hi Hc Ho) as (H1 & _ & _ & _ & H5).
  split.
  - rewrite H1. reflexivity.
  - apply H5; simpl; lia.
Defined.

(** ** The coefficient rate functions *)

Ltac wrap_lia := unfold u32, s32, u64, s64 in *; Z.div_mod_to_equations; lia.

Lemma u32_s32 x : u32 (s32 x) = u32 x.
Proof. wrap_lia. Qed.

Lemma u32_add_l x y : u32 (u32 x + y) = u32 (x + y).
Proof. wrap_lia. Qed.

Lemma u32_add_s32_l x y : u32 (s32 x + y) = u32 (x + y).
Proof. wrap_lia. Qed.

Lemma u32_add_r x y : u32 (x + u32 y) = u32 (x + y).
Proof. wrap_lia. Qed.

(** The arm both functions share: a level coded by the greater-than-one and
    greater-than-two flags alone ([diffLevel < 0]). *)
Lemma getICRate_flags_arm tbl absLevel diffLevel g1 la goRice c1c2Idx :
  absLevel <> 0 -> diffLevel < 0 ->
  getICRateCost absLevel diffLevel g1 la goRice c1c2Idx
  = u32 (getICRate tbl absLevel diffLevel g1 la goRice c1c2Idx + IEP_RATE).
Proof.
  intros Ha Hd. unfold getICRateCost, getICRate, IEP_RATE.
  destruct (Z.eqb_spec absLevel 0) as [|_]; [contradiction|].
  destruct (Z.ltb_spec diffLevel 0) as [_|]; [|lia].
  destruct (absLevel =? 2); wrap_lia.
Qed.

(** The number of bins of a Rice prefix of at most three ones. *)
Lemma rice_prefix_bins (p g : Z) :
  0 <= p <= 3 -> 0 <= g <= 4 ->
  u32 (fastMin (s32 (u32 (u32 (p + 1) + g))) 8) = p + 1 + g.
Proof.
  intros Hp Hg.
  assert (Hp' : p = 0 \/ p = 1 \/ p = 2 \/ p = 3) by lia.
  assert (Hg' : g = 0 \/ g = 1 \/ g = 2 \/ g = 3 \/ g = 4) by lia.
  destruct Hp' as [->|[->|[->| ->]]]; destruct Hg' as [->|[->|[->|[->| ->]]]];
    vm_compute; reflexivity.
Qed.

Lemma shiftr_le3_bound (d g : Z) :
  0 <= d -> 0 <= g <= 4 -> Z.shiftr d g <= 3 ->
  d <= g_goRiceRange_hevc !!! Z.to_nat g /\ 0 <= Z.shiftr d g.
Proof.
  intros Hd Hg Hs. rewrite Z.shiftr_div_pow2 in * by lia.
  assert (Hg' : g = 0 \/ g = 1 \/ g = 2 \/ g = 3 \/ g = 4) by lia.
  destruct Hg' as [->|[->|[->|[->| ->]]]];
    [ change (g_goRiceRange_hevc !!! Z.to_nat 0) with 7; change (2 ^ 0) with 1 in *
    | change (g_goRiceRange_hevc !!! Z.to_nat 1) with 14; change (2 ^ 1) with 2 in *
    | change (g_goRiceRange_hevc !!! Z.to_nat 2) with 26; change (2 ^ 2) with 4 in *
    | change (g_goRiceRange_hevc !!! Z.to_nat 3) with 46; change (2 ^ 3) with 8 in *
    | change (g_goRiceRange_hevc !!! Z.to_nat 4) with 78; change (2 ^ 4) with 16 in * ];
    split; Z.div_mod_to_equations; lia.
Qed.

(** C7, as far as it holds.  [getICRateCost] is [getICRate] plus [IEP_RATE]
    (in the 32-bit unsigned type of its result) for a level coded by the
    flags alone ([diffLevel < 0]) and for a remainder whose Rice prefix has
    at most three ones ([diffLevel >> absGoRice <= 3]); the tables hold
    [int] values. *)
Theorem getICRateCost_getICRate_prefix
    (absLevel diffLevel : Z) (g1 la : list Z) (goRice c1c2Idx : Z) :
  1 <= absLevel ->
  0 <= goRice <= 4 -> 0 <= c1c2Idx <= 3 ->
  -2147483648 <= diffLevel < 2147483648 ->
  (diffLevel < 0 \/ Z.shiftr diffLevel goRice <= 3) ->
  getICRateCost absLevel diffLevel g1 la goRice c1c2Idx
  = u32 (getICRate g_goRiceRange_hevc absLevel diffLevel g1 la goRice c1c2Idx + IEP_RATE).
Proof.
  intros Ha Hg Hc Hd Hcase.
  destruct (Z.ltb_spec diffLevel 0) as [Hneg|Hpos].
  { apply getICRate_flags_arm; lia. }
  destruct Hcase as [|Hs]; [lia|].
  destruct (shiftr_le3_bound diffLevel goRice Hpos Hg Hs) as [Hmax Hs0].
  unfold getICRateCost, getICRate, IEP_RATE, COEF_REMAIN_BIN_REDUCTION.
  destruct (Z.eqb_spec absLevel 0) as [|_]; [lia|].
  destruct (Z.ltb_spec diffLevel 0) as [|_]; [lia|].
  rewrite (u32_id diffLevel) by lia.
  destruct (Z.ltb_spec (g_goRiceRange_hevc !!! Z.to_nat goRice) diffLevel) as [|_]; [lia|].
  set (p := Z.shiftr diffLevel goRice) in *.
  rewrite (rice_prefix_bins p goRice) by lia.
  assert (Hcmp : u32 (p - 3) = 0 <-> p = 3) by (unfold u32; Z.div_mod_to_equations; lia).
  assert (Hbins :
    (if p <? 3 then u32 (32768 + u32 (Z.shiftl (u32 (p + 1 + goRice)) 15))
     else u32 (32768 + u32 (Z.shiftl
            (u32 (3 + (if u32 (p - 3) =? 0 then 0 else u32 (CLZ32 (u32 (u32 (p - 3) + 1))))
                  + goRice + 1
                  + (if u32 (p - 3) =? 0 then 0 else u32 (CLZ32 (u32 (u32 (p - 3) + 1)))))) 15)))
    = u32 (32768 + Z.shiftl (p + 1 + goRice) 15)).
  { destruct (Z.ltb_spec p 3).
    - rewrite (u32_id (p + 1 + goRice)) by lia. rewrite u32_add_r. reflexivity.
    - assert (p = 3) by lia. subst p.
      replace (Z.shiftr diffLevel goRice) with 3 in * by lia.
      change (u32 (3 - 3) =? 0) with true. cbv iota.
      rewrite (u32_id (3 + 0 + goRice + 1 + 0)) by lia. rewrite u32_add_r.
      f_equal. f_equal. f_equal. lia. }
  rewrite Hbins. clear Hbins Hcmp.
  rewrite !Z.shiftl_mul_pow2 by lia.
  set (b := (p + 1 + goRice) * 2 ^ 15).
  destruct (Z.land c1c2Idx 1 =? 0); destruct (c1c2Idx =? 3);
    generalize (g1 !!! 1%nat) (la !!! 1%nat); intros a1 a2; wrap_lia.
Qed.

Lemma getICRateCost_getICRate_prefix_witness :
  getICRateCost 4 3 [100; 200] [300; 400] 0 0
  = u32 (getICRate g_goRiceRange_hevc 4 3 [100; 200] [300; 400] 0 0 + IEP_RATE).
Proof.
  apply getICRateCost_getICRate_prefix; try lia.
  right. vm_compute. discriminate.
Defined.

(** C7 fails as stated: with Rice parameter 0 a remainder of 4 costs six
    bins in [getICRateCost] (prefix 3, one suffix bit twice, one stop bit)
    and five bins in [getICRate] (prefix of [symbol + 1] bins). *)
Lemma getICRateCost_getICRate_differ :
  getICRateCost 5 4 [0; 0] [0; 0] 0 0
  <> getICRate g_goRiceRange_hevc 5 4 [0; 0] [0; 0] 0 0 + IEP_RATE.
Proof. vm_compute. discriminate. Qed.

(** ** The cost of the last significant position *)

(** What [getRateLast] needs of [getGroupIdx] on the positions 2..31 of a
    transform block: the group index is at least 2, and position 2 is in
    group 2 or 3, which have no suffix bits. *)
Definition group_ok (getGroupIdx : Z -> Z) : bool :=
  forallb (fun p => (2 <=? getGroupIdx p) && (getGroupIdx p <? 4294967296)
                    && (negb (p =? 2) || (getGroupIdx p <=? 3)))
          (map Z.of_nat (seq 2 30)).

Lemma group_ok_at getGroupIdx p :
  group_ok getGroupIdx = true -> 2 <= p < 32 ->
  2 <= getGroupIdx p < 4294967296 /\ (p = 2 -> getGroupIdx p <= 3).
Proof.
  intros Hok Hp. unfold group_ok in Hok. rewrite forallb_forall in Hok.
  assert (Hin : In p (map Z.of_nat (seq 2 30))).
  { apply in_map_iff. exists (Z.to_nat p). split; [lia|]. apply in_seq. lia. }
  specialize (Hok p Hin).
  apply andb_prop in Hok as [Hok H3]. apply andb_prop in Hok as [H1 H2].
  split; [lia|]. intros ->. simpl in H3. lia.
Qed.

(** The suffix bits of one coordinate, as the claim states them. *)
Definition suffixBits (getGroupIdx : Z -> Z) (pos : Z) : Z :=
  if 2 <=? pos then IEP_RATE * ((getGroupIdx pos - 2) / 2) else 0.

Lemma land_mask_all x : 0 <= x < 4294967296 -> Z.land (u32 (-1)) x = x.
Proof.
  intros Hx. change (u32 (-1)) with (Z.ones 32).
  rewrite Z.land_comm, Z.land_ones by lia. apply Z.mod_small. lia.
Qed.

Lemma getRateLast_suffix getGroupIdx pos :
  group_ok getGroupIdx = true -> 0 <= pos < 32 ->
  u32 (Z.land (u32 (asr31 (s32 (u32 (2 - pos)))))
              (u32 (IEP_RATE * Z.shiftr (u32 (getGroupIdx pos - 2)) 1)))
  = u32 (suffixBits getGroupIdx pos).
Proof.
  intros Hok Hp. unfold suffixBits.
  destruct (Z.leb_spec 2 pos) as [H2|H2].
  - destruct (group_ok_at _ pos Hok ltac:(lia)) as [Hg Hg2].
    rewrite (u32_id (getGroupIdx pos - 2)) by lia.
    rewrite Z.shiftr_div_pow2 by lia. change (2 ^ 1) with 2.
    destruct (Z.eq_dec pos 2) as [->|Hne].
    + specialize (Hg2 eq_refl).
      change (asr31 (s32 (u32 (2 - 2)))) with 0. rewrite Z.land_0_l.
      replace ((getGroupIdx 2 - 2) / 2) with 0
        by (symmetry; apply Z.div_small; lia).
      reflexivity.
    + replace (s32 (u32 (2 - pos))) with (2 - pos) by wrap_lia.
      rewrite asr31_neg by lia.
      rewrite land_mask_all by apply u32_range.
      unfold u32. rewrite Z.mod_mod by lia. reflexivity.
  - replace (s32 (u32 (2 - pos))) with (2 - pos) by wrap_lia.
    rewrite asr31_nonneg by lia. change (u32 0) with 0. rewrite Z.land_0_l. reflexivity.
Qed.

(** C8.  For a position pair of a transform block (coordinates 0..31),
    [getRateLast] is [lastXBits[groupIdx(posx)] + lastYBits[groupIdx(posy)]]
    plus [IEP_RATE * ((groupIdx(pos) - 2) / 2)] for each coordinate with
    [pos >= 2], in the 32-bit unsigned type of the result.  The source tests
    [pos > 2]; at [pos = 2] the group index is 2 and the term is zero. *)
Theorem getRateLast_spec (getGroupIdx : Z -> Z) (est : EstBitsSbac) (posx posy : Z) :
  group_ok getGroupIdx = true ->
  0 <= posx < 32 -> 0 <= posy < 32 ->
  getRateLast getGroupIdx est posx posy
  = u32 (lastXBits est !!! Z.to_nat (getGroupIdx posx)
         + lastYBits est !!! Z.to_nat (getGroupIdx posy)
         + suffixBits getGroupIdx posx + suffixBits getGroupIdx posy).
Proof.
  intros Hok Hx Hy. unfold getRateLast.
  pose proof (getRateLast_suffix getGroupIdx posx Hok Hx) as HX.
  pose proof (getRateLast_suffix getGroupIdx posy Hok Hy) as HY.
  revert HX HY.
  generalize (Z.land (u32 (asr31 (s32 (u32 (2 - posx)))))
                (u32 (IEP_RATE * Z.shiftr (u32 (getGroupIdx posx - 2)) 1))).
  generalize (Z.land (u32 (asr31 (s32 (u32 (2 - posy)))))
                (u32 (IEP_RATE * Z.shiftr (u32 (getGroupIdx posy - 2)) 1))).
  generalize (suffixBits getGroupIdx posx) (suffixBits getGroupIdx posy).
  generalize (lastXBits est !!! Z.to_nat (getGroupIdx posx))
             (lastYBits est !!! Z.to_nat (getGroupIdx posy)).
  intros a b sx sy my mx HX HY. wrap_lia.
Qed.

Definition est_example : EstBitsSbac :=
  {| significantCoeffGroupBits := replicate 4 [32768; 32768];
     significantBits := replicate 64 [32768; 32768];
     lastXBits := [10; 20; 30; 40; 50; 60; 70; 80; 90; 100];
     lastYBits := [11; 21; 31; 41; 51; 61; 71; 81; 91; 101];
     greaterOneBits := replicate 32 [32768; 32768];
     levelAbsBits := replicate 8 [32768; 32768];
     blockCbpBits := replicate 8 [32768; 32768];
     blockRootCbpBits := replicate 8 [32768; 32768] |}.

Lemma getRateLast_spec_witness :
  getRateLast getGroupIdx_hevc est_example 9 2 = 70 + 31 + 32768 * 2 + 0.
Proof.
  rewrite (getRateLast_spec getGroupIdx_hevc est_example 9 2);
    [ reflexivity | vm_compute; reflexivity | lia | lia ].
Defined.

(** ** Counting nonzero coefficients *)

Definition nz (x : Z) : Z := if x =? 0 then 0 else 1.

Lemma count_nonzero_cons x l : count_nonzero (x :: l) = nz x + count_nonzero l.
Proof. reflexivity. Qed.

Lemma count_nonzero_app l1 l2 :
  count_nonzero (l1 ++ l2) = count_nonzero l1 + count_nonzero l2.
Proof.
  induction l1 as [|x l1 IH]; [reflexivity|].
  rewrite <- app_comm_cons, !count_nonzero_cons, IH. lia.
Qed.

Lemma count_nonzero_bounds l : 0 <= count_nonzero l <= Z.of_nat (length l).
Proof.
  induction l as [|x l IH]; [simpl; lia|].
  rewrite count_nonzero_cons. unfold nz. simpl length. destruct (x =? 0); lia.
Qed.

Lemma count_nonzero_perm l1 l2 : l1 ≡ₚ l2 -> count_nonzero l1 = count_nonzero l2.
Proof.
  induction 1 as [|x l1 l2 _ IH|x y l|l1 l2 l3 _ IH1 _ IH2].
  - reflexivity.
  - rewrite !count_nonzero_cons, IH. reflexivity.
  - rewrite !count_nonzero_cons. lia.
  - congruence.
Qed.

Lemma count_nonzero_take_S (l : list Z) (i : nat) :
  (i < length l)%nat ->
  count_nonzero (take (S i) l) = count_nonzero (take i l) + nz (l !!! i).
Proof.
  intros Hi. rewrite (take_S_r l i (l !!! i)) by (apply list_lookup_lookup_total_lt; lia).
  rewrite count_nonzero_app, count_nonzero_cons.
  change (count_nonzero []) with 0. lia.
Qed.

Lemma count_nonzero_insert (l : list Z) (i : nat) (v : Z) :
  (i < length l)%nat ->
  count_nonzero (<[i := v]> l) = count_nonzero l - nz (l !!! i) + nz v.
Proof.
  revert i. induction l as [|x l IH]; intros i Hi; [simpl in Hi; lia|].
  destruct i as [|i].
  - simpl. unfold nz. lia.
  - change (<[S i := v]> (x :: l)) with (x :: <[i := v]> l).
    rewrite !count_nonzero_cons, IH by (simpl in Hi; lia).
    change ((x :: l) !!! S i) with (l !!! i). lia.
Qed.

Lemma count_nonzero_zero (l : list Z) :
  (forall i, (i < length l)%nat -> l !!! i = 0) -> count_nonzero l = 0.
Proof.
  induction l as [|x l IH]; intros H; [reflexivity|].
  rewrite count_nonzero_cons. rewrite IH.
  - specialize (H 0%nat ltac:(simpl; lia)). change ((x :: l) !!! 0%nat) with x in H.
    subst x. reflexivity.
  - intros i Hi. apply (H (S i)). simpl. lia.
Qed.

(** ** Transform-quant bypass *)

Lemma nested_for_up_ind {St : Type} (Q : nat -> St -> Prop) (body : nat -> nat -> St -> St)
    (T : nat) (s : St) :
  Q O s ->
  (forall k j st, (k < T)%nat -> (j < T)%nat ->
     Q (k * T + j)%nat st -> Q (S (k * T + j)) (body k j st)) ->
  Q (T * T)%nat (for_up T 0 (fun k st => for_up T 0 (body k) st) s).
Proof.
  intros H0 Hstep.
  apply (for_up_ind (fun k st => Q (k * T)%nat st) _ T 0 s).
  - exact H0.
  - intros k st Hk HQ.
    replace (S k * T)%nat with (k * T + T)%nat by lia.
    apply (for_up_ind (fun j st => Q (k * T + j)%nat st) _ T 0 st).
    + replace (k * T + 0)%nat with (k * T)%nat by lia. exact HQ.
    + intros j st' Hj HQ'.
      replace (k * T + S j)%nat with (S (k * T + j)) by lia.
      apply Hstep; [lia | lia | exact HQ'].
Qed.

Definition int16 (x : Z) : Prop := -32768 <= x < 32768.

Lemma linear_index_inj (T k j k' j' : nat) :
  (j < T)%nat -> (j' < T)%nat -> (k * T + j = k' * T + j')%nat -> k = k' /\ j = j'.
Proof. intros Hj Hj' H. assert (k = k') by nia. subst. lia. Qed.

Lemma transformBypass_spec (residual : list Z) (stride : nat) (coeff : list Z) (T : nat) :
  length coeff = (T * T)%nat ->
  Z.of_nat (T * T) < 4294967296 ->
  (forall k j, (k < T)%nat -> (j < T)%nat -> int16 (residual !!! (k * stride + j)%nat)) ->
  forall c n, transformBypass residual stride coeff T = (c, n) ->
    length c = (T * T)%nat /\
    (forall k j, (k < T)%nat -> (j < T)%nat ->
       c !!! (k * T + j)%nat = residual !!! (k * stride + j)%nat) /\
    n = count_nonzero c.
Proof.
  intros Hlen Hsmall Hres c n Heq. unfold transformBypass in Heq.
  pose (Q := fun (idx : nat) (st : list Z * Z) =>
    length (fst st) = (T * T)%nat /\
    (forall k j, (j < T)%nat -> (k * T + j < idx)%nat ->
       fst st !!! (k * T + j)%nat = residual !!! (k * stride + j)%nat) /\
    snd st = count_nonzero (take idx (fst st))).
  assert (HQ : Q (T * T)%nat
    (for_up T 0 (fun k st => for_up T 0 (bypassCopy residual stride T k) st) (coeff, 0))).
  { apply nested_for_up_ind.
    - unfold Q; simpl. repeat split; auto. intros; lia.
    - intros k j [c0 n0] Hk Hj (Hl & Hcopy & Hn). unfold Q in *; simpl in *.
      assert (Hidx : (k * T + j < T * T)%nat) by nia.
      rewrite length_insert. repeat split; auto.
      + intros k' j' Hj' Hlt.
        destruct (decide (k' * T + j' = k * T + j)%nat) as [He|Hne].
        * destruct (linear_index_inj T k' j' k j Hj' Hj He) as [-> ->].
          rewrite list_lookup_total_insert_eq by lia.
          apply s16_id. apply Hres; lia.
        * rewrite list_lookup_total_insert_ne by lia. apply Hcopy; [lia|lia].
      + rewrite count_nonzero_take_S by (rewrite length_insert; lia).
        rewrite take_insert_ge by lia. rewrite <- Hn.
        rewrite list_lookup_total_insert_eq by lia.
        rewrite (s16_id (residual !!! (k * stride + j)%nat)) by (apply Hres; lia).
        pose proof (count_nonzero_bounds (take (k * T + j) c0)) as Hb.
        rewrite length_take in Hb. rewrite <- Hn in Hb.
        unfold nz. rewrite u32_id; [reflexivity|].
        destruct (residual !!! (k * stride + j)%nat =? 0); lia. }
  rewrite Heq in HQ. destruct HQ as (Hl & Hcopy & Hn); simpl in *.
  repeat split; auto.
  - intros k j Hk Hj. apply Hcopy; [lia | nia].
  - rewrite Hn, take_ge by lia. reflexivity.
Qed.

Lemma stride_index_inj (T stride k j k' j' : nat) :
  (T <= stride)%nat -> (j < T)%nat -> (j' < T)%nat ->
  (k * stride + j = k' * stride + j')%nat -> k = k' /\ j = j'.
Proof. intros Hs Hj Hj' H. assert (k = k') by nia. subst. lia. Qed.

Lemma invtransformBypass_spec (residual : list Z) (stride : nat) (coeff : list Z) (T : nat) :
  (T <= stride)%nat ->
  (forall k j, (k < T)%nat -> (j < T)%nat -> (k * stride + j < length residual)%nat) ->
  (forall k j, (k < T)%nat -> (j < T)%nat -> int16 (coeff !!! (k * T + j)%nat)) ->
  forall k j, (k < T)%nat -> (j < T)%nat ->
    invtransformBypass residual stride coeff T !!! (k * stride + j)%nat
    = coeff !!! (k * T + j)%nat.
Proof.
  intros Hs Hlen Hc. unfold invtransformBypass.
  pose (Q := fun (idx : nat) (r : list Z) =>
    length r = length residual /\
    (forall k j, (j < T)%nat -> (k * T + j < idx)%nat ->
       r !!! (k * stride + j)%nat = coeff !!! (k * T + j)%nat)).
  assert (HQ : Q (T * T)%nat
    (for_up T 0 (fun k r => for_up T 0 (invBypassCopy coeff stride T k) r) residual)).
  { apply nested_for_up_ind.
    - unfold Q. split; auto. intros; lia.
    - intros k j r Hk Hj (Hl & Hcopy). unfold Q, invBypassCopy in *.
      rewrite length_insert. split; auto.
      intros k' j' Hj' Hlt.
      destruct (decide (k' * T + j' = k * T + j)%nat) as [He|Hne].
      + destruct (linear_index_inj T k' j' k j Hj' Hj He) as [-> ->].
        rewrite list_lookup_total_insert_eq by (rewrite Hl; apply Hlen; lia).
        apply s16_id. apply Hc; lia.
      + rewrite list_lookup_total_insert_ne.
        * apply Hcopy; [lia|lia].
        * intros He. apply Hne.
          assert (k' < T)%nat by nia.
          destruct (stride_index_inj T stride k j k' j' Hs Hj Hj' He) as [-> ->].
          reflexivity. }
  destruct HQ as [_ Hcopy]. intros k j Hk Hj. apply Hcopy; [lia | nia].
Qed.

(** Copying back what [transformBypass] copied out leaves the residual
    buffer as it was, whatever the stride. *)
Lemma bypass_roundtrip (residual : list Z) (stride : nat) (coeff c : list Z) (T : nat) :
  (forall k j, (k < T)%nat -> (j < T)%nat -> int16 (residual !!! (k * stride + j)%nat)) ->
  (forall k j, (k < T)%nat -> (j < T)%nat ->
     c !!! (k * T + j)%nat = residual !!! (k * stride + j)%nat) ->
  invtransformBypass residual stride c T = residual.
Proof.
  intros Hres Hc. unfold invtransformBypass.
  apply (nested_for_up_ind (fun _ r => r = residual)); [reflexivity|].
  intros k j r Hk Hj ->. unfold invBypassCopy.
  apply list_insert_id'. intros Hlt.
  rewrite Hc by lia. rewrite s16_id by (apply Hres; lia).
  apply list_lookup_lookup_total_lt. exact Hlt.
Qed.

(** C6.  With transform-quant bypass, [transformNxN] copies the residual
    block verbatim into the coefficient block and returns the number of its
    nonzero samples; [invtransformNxN] copies a coefficient block verbatim
    into the residual block; and the second after the first leaves the
    residual buffer as it was.  Samples and coefficients are 16-bit values,
    the stride is at least the block width. *)
Theorem bypass_copy_roundtrip
    (X265_DEPTH : Z) (g_goRiceRange : list Z) (getGroupIdx : Z -> Z)
    (primitives : Primitives) (inverseKernels : list Z -> list Z -> list Z)
    (q : Quant) (cu : TComDataCU) (fenc : list Z) (fencStride : nat)
    (residual : list Z) (stride : nat) (coeff : list Z) (log2TrSize : Z)
    (ttype : TextType) (useTransformSkip curUseRDOQ : bool) :
  let T := Z.to_nat (Z.shiftl 1 log2TrSize) in
  let out := transformNxN X265_DEPTH g_goRiceRange getGroupIdx primitives q cu fenc
               fencStride residual stride coeff log2TrSize ttype useTransformSkip
               curUseRDOQ in
  getCUTransquantBypass cu = true ->
  2 <= log2TrSize <= 5 ->
  length coeff = (T * T)%nat ->
  (T <= stride)%nat ->
  (forall k j, (k < T)%nat -> (j < T)%nat -> (k * stride + j < length residual)%nat) ->
  (forall k j, (k < T)%nat -> (j < T)%nat -> int16 (residual !!! (k * stride + j)%nat)) ->
  (forall k j, (k < T)%nat -> (j < T)%nat ->
     snd (fst out) !!! (k * T + j)%nat = residual !!! (k * stride + j)%nat) /\
  snd out = count_nonzero (snd (fst out)) /\
  (forall (buffer block : list Z),
     length buffer = length residual ->
     (forall k j, (k < T)%nat -> (j < T)%nat -> int16 (block !!! (k * T + j)%nat)) ->
     forall k j, (k < T)%nat -> (j < T)%nat ->
       invtransformNxN inverseKernels true buffer stride block log2TrSize
         !!! (k * stride + j)%nat = block !!! (k * T + j)%nat) /\
  invtransformNxN inverseKernels true residual stride (snd (fst out)) log2TrSize = residual.
Proof.
  intros T out Hby Hlog Hlen Hstride Hbuf Hres.
  assert (HT : Z.of_nat (T * T) < 4294967296).
  { subst T. rewrite Z.shiftl_mul_pow2 by lia.
    assert (H : log2TrSize = 2 \/ log2TrSize = 3 \/ log2TrSize = 4 \/ log2TrSize = 5) by lia.
    destruct H as [->|[->|[->| ->]]]; vm_compute; reflexivity. }
  subst out. unfold transformNxN. rewrite Hby. fold T.
  destruct (transformBypass residual stride coeff T) as [c n] eqn:Heq.
  destruct (transformBypass_spec residual stride coeff T Hlen HT Hres c n Heq)
    as (Hlc & Hcopy & Hn).
  cbn [fst snd]. repeat split.
  - exact Hcopy.
  - exact Hn.
  - intros buffer block Hbl Hblock k j Hk Hj. unfold invtransformNxN. fold T.
    apply invtransformBypass_spec; auto.
    intros k' j' Hk' Hj'. rewrite Hbl. apply Hbuf; assumption.
  - unfold invtransformNxN. fold T. apply bypass_roundtrip; assumption.
Qed.

Definition cu_bypass : TComDataCU :=
  {| isIntra := true; getCUTransquantBypass := true; predModeIsIntra := true;
     sliceIsI := true; bSignHideEnabled := false; getTransformIdx := 0;
     getCtxQtCbf := fun _ => 0;
     getTUEntropyCodingParameters := fun _ _ =>
       {| scan := []; scanCG := []; scanType := 0; log2TrSizeCG := 0%nat;
          firstSignificanceMapContext := 0 |} |}.

Definition primitives_example : Primitives :=
  {| cvt16to32_shl := fun dst _ _ _ _ => dst;
     dct := fun _ _ dst _ => dst;
     square_copy_ps := fun _ dst _ _ _ => dst |}.

Definition quant_example (resi : list Z) : Quant :=
  {| m_useRDOQ := true; m_psyRdoqScale := 0;
     m_scalingList :=
       {| m_bEnabled := false;
          m_quantCoef := fun _ _ _ => replicate 16 16384;
          m_errScale := fun _ _ _ => replicate 16 1%float;
          s_invQuantScales := [40; 45; 51; 57; 64; 72] |};
     m_qpParam := fun _ => {| rem := 4; per := 0 |};
     m_lambda2 := fun _ => 1%float;
     m_estBitsSbac := est_example;
     m_nr := {| bNoiseReduction := false; residualSum := fun _ => [];
                offset := fun _ => []; count := fun _ => 0 |};
     m_resiDctCoeff := resi; m_fencDctCoeff := replicate 16 0;
     m_fencShortBuf := replicate 16 0 |}.

Definition residual_example : list Z :=
  [5; 0; -3; 0; 9; 9; 9; 9;
   0; 0; 7; 1; 9; 9; 9; 9;
   -32768; 0; 0; 0; 9; 9; 9; 9;
   0; 2; 0; 32767; 9; 9; 9; 9].

Lemma bypass_copy_roundtrip_witness :
  let out := transformNxN 8 g_goRiceRange_hevc getGroupIdx_hevc primitives_example
               (quant_example []) cu_bypass [] 0 residual_example 8 (replicate 16 0) 2
               TEXT_LUMA false false in
  snd out = count_nonzero (snd (fst out)) /\
  invtransformNxN (fun r _ => r) true residual_example 8 (snd (fst out)) 2 = residual_example.
Proof.
  intros out.
  assert (Hint : forall k j, (k < 4)%nat -> (j < 4)%nat ->
            int16 (residual_example !!! (k * 8 + j)%nat)).
  { intros k j Hk Hj.
    assert (Hk' : (k = 0 \/ k = 1 \/ k = 2 \/ k = 3)%nat) by lia.
    assert (Hj' : (j = 0 \/ j = 1 \/ j = 2 \/ j = 3)%nat) by lia.
    destruct Hk' as [->|[->|[->| ->]]]; destruct Hj' as [->|[->|[->| ->]]];
      (split; [apply Z.leb_le | apply Z.ltb_lt]; vm_compute; reflexivity). }
  destruct (bypass_copy_roundtrip 8 g_goRiceRange_hevc getGroupIdx_hevc primitives_example
              (fun r _ => r) (quant_example []) cu_bypass [] 0%nat residual_example 8%nat
              (replicate 16 0) 2 TEXT_LUMA false false) as (_ & H2 & _ & H4).
  - reflexivity.
  - lia.
  - reflexivity.
  - vm_compute. lia.
  - intros k j Hk Hj. change (Z.to_nat (Z.shiftl 1 2)) with 4%nat in Hk, Hj.
    change (length residual_example) with 32%nat. lia.
  - exact Hint.
  - split; [exact H2 | exact H4].
Defined.

(** ** Sign-bit hiding: the coefficient groups *)

(** The sign bit the passes compare with the parity: 0 for a positive
    coefficient, 1 otherwise. *)
Definition signbitOf (x : Z) : Z := if 0 <? x then 0 else 1.

(** The coefficient at place [n] of the group that starts at [subPos]. *)
Definition cgAt (q : list Z) (scan : list nat) (subPos n : nat) : Z :=
  q !!! (scan !!! (n + subPos)%nat).

(** The 16 coefficients of a group in scan order. *)
Definition cgCoeffs (q : list Z) (scan : list nat) (subPos : nat) : list Z :=
  (fun n => cgAt q scan subPos n) <$> seq 0 SCAN_SET_SIZE.

Definition sum_abs (l : list Z) : Z := foldr (fun x acc => Z.abs x + acc) 0 l.

Definition isFirstNZ (q : list Z) (scan : list nat) (subPos f : nat) : Prop :=
  (f < SCAN_SET_SIZE)%nat /\ cgAt q scan subPos f <> 0 /\
  forall n, (n < f)%nat -> cgAt q scan subPos n = 0.

Definition isLastNZ (q : list Z) (scan : list nat) (subPos l : nat) : Prop :=
  (l < SCAN_SET_SIZE)%nat /\ cgAt q scan subPos l <> 0 /\
  forall n, (l < n < SCAN_SET_SIZE)%nat -> cgAt q scan subPos n = 0.

(** The sign of the first nonzero coefficient of an eligible group is hidden
    in the parity of the sum of the magnitudes of the group. *)
Definition signHidden (q : list Z) (scan : list nat) (subPos : nat) : Prop :=
  forall f l, isFirstNZ q scan subPos f -> isLastNZ q scan subPos l ->
    SBH_THRESHOLD <= Z.of_nat l - Z.of_nat f ->
    signbitOf (cgAt q scan subPos f) = sum_abs (cgCoeffs q scan subPos) mod 2.

Lemma cgCoeffs_length q scan subPos : length (cgCoeffs q scan subPos) = SCAN_SET_SIZE.
Proof. unfold cgCoeffs. rewrite length_fmap, length_seq. reflexivity. Qed.

Lemma cgCoeffs_lookup q scan subPos n :
  (n < SCAN_SET_SIZE)%nat -> cgCoeffs q scan subPos !!! n = cgAt q scan subPos n.
Proof.
  intros Hn. unfold cgCoeffs.
  rewrite (list_lookup_total_fmap (fun n => cgAt q scan subPos n) (seq 0 SCAN_SET_SIZE) n)
    by (rewrite length_seq; exact Hn).
  rewrite lookup_total_seq_lt by exact Hn. reflexivity.
Qed.

Lemma isFirstNZ_unique q scan subPos f f' :
  isFirstNZ q scan subPos f -> isFirstNZ q scan subPos f' -> f = f'.
Proof.
  intros (_ & Hf & Hz) (_ & Hf' & Hz').
  destruct (lt_eq_lt_dec f f') as [[H|H]|H]; [|exact H|].
  - exfalso. apply Hf. apply Hz'. exact H.
  - exfalso. apply Hf'. apply Hz. exact H.
Qed.

Lemma isLastNZ_unique q scan subPos l l' :
  isLastNZ q scan subPos l -> isLastNZ q scan subPos l' -> l = l'.
Proof.
  intros (Hl & Hn & Hz) (Hl' & Hn' & Hz').
  destruct (lt_eq_lt_dec l l') as [[H|H]|H]; [|exact H|].
  - exfalso. apply Hn'. apply Hz. lia.
  - exfalso. apply Hn. apply Hz'. lia.
Qed.

Lemma lastNZPos_Some q scan subPos N l :
  lastNZPos q scan subPos N = Some l ->
  (l < N)%nat /\ cgAt q scan subPos l <> 0 /\
  forall n, (l < n < N)%nat -> cgAt q scan subPos n = 0.
Proof.
  induction N as [|N IH]; simpl; [discriminate|].
  destruct (Z.eqb_spec (q !!! (scan !!! (N + subPos)%nat)) 0) as [Hz|Hnz].
  - intros H. destruct (IH H) as (Hl & Hn & Hrest).
    split; [lia|]. split; [exact Hn|].
    intros n Hn'. destruct (decide (n = N)) as [->|]; [exact Hz|]. apply Hrest. lia.
  - intros [= <-]. split; [lia|]. split; [exact Hnz|]. intros n Hn'. lia.
Qed.

Lemma lastNZPos_None q scan subPos N :
  lastNZPos q scan subPos N = None ->
  forall n, (n < N)%nat -> cgAt q scan subPos n = 0.
Proof.
  induction N as [|N IH]; simpl; [intros _ n Hn; lia|].
  destruct (Z.eqb_spec (q !!! (scan !!! (N + subPos)%nat)) 0) as [Hz|Hnz]; [|discriminate].
  intros H n Hn. destruct (decide (n = N)) as [->|]; [exact Hz|]. apply IH; [exact H|lia].
Qed.

Lemma firstNZPos_spec q scan subPos l :
  cgAt q scan subPos l <> 0 ->
  forall fuel n, (n + fuel = l)%nat ->
    (forall m, (m < n)%nat -> cgAt q scan subPos m = 0) ->
    let f := firstNZPos q scan subPos fuel n in
    (f <= l)%nat /\ cgAt q scan subPos f <> 0 /\
    forall m, (m < f)%nat -> cgAt q scan subPos m = 0.
Proof.
  intros Hl. induction fuel as [|fuel IH]; intros n Hn Hz; simpl.
  - replace n with l by lia. split; [lia|]. split; [exact Hl|].
    intros m Hm. apply Hz. lia.
  - destruct (Z.eqb_spec (q !!! (scan !!! (n + subPos)%nat)) 0) as [Hz0|Hnz].
    + apply IH; [lia|]. intros m Hm.
      destruct (decide (m = n)) as [->|]; [exact Hz0|]. apply Hz. lia.
    + split; [lia|]. split; [exact Hnz|]. exact Hz.
Qed.

Lemma sum_abs_app l1 l2 : sum_abs (l1 ++ l2) = sum_abs l1 + sum_abs l2.
Proof.
  induction l1 as [|x l1 IH]; [reflexivity|].
  rewrite <- app_comm_cons. unfold sum_abs in *. simpl. rewrite IH. lia.
Qed.

Lemma sum_abs_zero (l : list Z) :
  (forall i, (i < length l)%nat -> l !!! i = 0) -> sum_abs l = 0.
Proof.
  induction l as [|x l IH]; intros H; [reflexivity|].
  unfold sum_abs in *. simpl. rewrite IH.
  - specialize (H 0%nat ltac:(simpl; lia)). change ((x :: l) !!! 0%nat) with x in H. lia.
  - intros i Hi. apply (H (S i)). simpl. lia.
Qed.

Lemma sum_abs_take_S (l : list Z) (i : nat) :
  (i < length l)%nat -> sum_abs (take (S i) l) = sum_abs (take i l) + Z.abs (l !!! i).
Proof.
  intros Hi. rewrite (take_S_r l i (l !!! i)) by (apply list_lookup_lookup_total_lt; lia).
  rewrite sum_abs_app. unfold sum_abs at 2. simpl. lia.
Qed.

Lemma sum_abs_insert (l : list Z) (i : nat) (v : Z) :
  (i < length l)%nat ->
  sum_abs (<[i := v]> l) = sum_abs l - Z.abs (l !!! i) + Z.abs v.
Proof.
  revert i. induction l as [|x l IH]; intros i Hi; [simpl in Hi; lia|].
  destruct i as [|i].
  - unfold sum_abs. simpl. lia.
  - change (<[S i := v]> (x :: l)) with (x :: <[i := v]> l).
    change ((x :: l) !!! S i) with (l !!! i).
    unfold sum_abs in *. simpl. rewrite IH by (simpl in Hi; lia). lia.
Qed.

Lemma sum_abs_take_all (l : list Z) (k : nat) :
  (forall i, (k <= i < length l)%nat -> l !!! i = 0) -> sum_abs (take k l) = sum_abs l.
Proof.
  intros Hz. rewrite <- (take_drop k l) at 2. rewrite sum_abs_app.
  rewrite (sum_abs_zero (drop k l)); [lia|].
  intros i Hi. rewrite length_drop in Hi.
  rewrite lookup_total_drop. apply Hz. lia.
Qed.

(** Wrapping to a 32-bit type keeps the parity. *)
Definition keepsParity (wrap : Z -> Z) : Prop := forall x, wrap x mod 2 = x mod 2.

Lemma u32_keepsParity : keepsParity u32.
Proof. intros x. unfold u32. Z.div_mod_to_equations. lia. Qed.

Lemma s32_keepsParity : keepsParity s32.
Proof. intros x. unfold s32. Z.div_mod_to_equations. lia. Qed.

Lemma land1_mod2 x : Z.land x 1 = x mod 2.
Proof. change 1 with (Z.ones 1). rewrite Z.land_ones by lia. reflexivity. Qed.

(** The parity the passes compute from the signed sum between the first and
    the last nonzero coefficient is the parity of the sum of the magnitudes
    of the whole group. *)
Lemma sumCG_parity wrap q scan subPos f l :
  keepsParity wrap ->
  (f <= l)%nat -> (l < SCAN_SET_SIZE)%nat ->
  (forall n, (n < f)%nat -> cgAt q scan subPos n = 0) ->
  (forall n, (l < n < SCAN_SET_SIZE)%nat -> cgAt q scan subPos n = 0) ->
  Z.land (sumCG wrap q scan subPos f l) 1 = sum_abs (cgCoeffs q scan subPos) mod 2.
Proof.
  intros Hw Hfl Hl Hbefore Hafter. rewrite land1_mod2. unfold sumCG.
  set (g := cgCoeffs q scan subPos).
  assert (Hlen : length g = SCAN_SET_SIZE) by apply cgCoeffs_length.
  assert (Hinv : (fun (i : nat) (acc : Z) => acc mod 2 = sum_abs (take i g) mod 2)
            (f + (S l - f))%nat
            (for_up (S l - f) f
               (fun n absSum => wrap (absSum + q !!! (scan !!! (n + subPos)%nat))) 0)).
  { apply for_up_ind.
    - rewrite sum_abs_zero; [reflexivity|].
      intros i Hi. rewrite length_take in Hi. rewrite lookup_total_take_lt by lia.
      unfold g. rewrite cgCoeffs_lookup by lia. apply Hbefore. lia.
    - intros i acc Hi Hacc. rewrite Hw.
      rewrite sum_abs_take_S by lia.
      unfold g at 2. rewrite cgCoeffs_lookup by lia. unfold cgAt.
      generalize (q !!! (scan !!! (i + subPos)%nat)). intros x.
      revert Hacc. generalize (sum_abs (take i g)). intros t Hacc.
      Z.div_mod_to_equations. lia. }
  cbv beta in Hinv. rewrite Hinv.
  replace (f + (S l - f))%nat with (S l) by lia.
  rewrite sum_abs_take_all; [reflexivity|].
  intros i Hi. unfold g. rewrite cgCoeffs_lookup by lia. apply Hafter. lia.
Qed.

(** ** Sign-bit hiding: the candidate search *)

Section CandidateSearch.

Variables (q coef : list Z) (scan : list nat) (subPos firstNZ lastNZ : nat) (signbit : Z).
(** The sentinel of the pass: [MAX_INT] or [MAX_INT64]. *)
Variable sentinel : Z.

(** A change the passes may apply at place [n] of the group: a zero becomes
    nonzero, with the hidden sign when it comes before the first nonzero
    coefficient; the first nonzero coefficient of magnitude 1 is not
    decremented. *)
Definition changeOK (n : nat) (change : Z) : Prop :=
  let blkPos := scan !!! (n + subPos)%nat in
  (cgAt q scan subPos n = 0 ->
     change = 1 /\
     ((n < firstNZ)%nat -> (if 0 <=? coef !!! blkPos then 0 else 1) = signbit)) /\
  (cgAt q scan subPos n <> 0 ->
     change = 1 \/ (change = -1 /\ ~ (n = firstNZ /\ Z.abs (cgAt q scan subPos n) = 1))).

Definition selected (s : SbhSearch) : Prop :=
  exists n, (n < SCAN_SET_SIZE)%nat /\
    minPos s = Z.of_nat (scan !!! (n + subPos)%nat) /\ changeOK n (finalChange s).

Definition searchInv (i : nat) (s : SbhSearch) : Prop :=
  minCostInc s <= sentinel /\
  (minCostInc s < sentinel -> selected s) /\
  ((i <= lastNZ)%nat -> minCostInc s < sentinel).

Lemma sbhSelect_inv (n : nat) (cost change : Z) (s : SbhSearch) :
  (n < SCAN_SET_SIZE)%nat ->
  searchInv (S n) s ->
  cost <= sentinel ->
  (cost < sentinel -> changeOK n change) ->
  (n = lastNZ -> cost < sentinel) ->
  searchInv n (sbhSelect (scan !!! (n + subPos)%nat) cost change s).
Proof.
  intros Hn (Hle & Hsel & Hlast) Hcost Hok Hat. unfold sbhSelect, searchInv.
  destruct (Z.ltb_spec cost (minCostInc s)) as [Hlt|Hge]; cbn [minCostInc minPos finalChange].
  - split; [exact Hcost|]. split.
    + intros Hc. exists n. split; [exact Hn|]. split; [reflexivity|]. apply Hok. exact Hc.
    + intros _. lia.
  - split; [exact Hle|]. split; [exact Hsel|].
    intros Hi. destruct (decide (n = lastNZ)) as [He|Hne].
    + specialize (Hat He). lia.
    + apply Hlast. lia.
Qed.

Lemma search_result (top : nat) (body : nat -> SbhSearch -> SbhSearch) (init : SbhSearch) :
  (lastNZ < top <= SCAN_SET_SIZE)%nat ->
  minCostInc init = sentinel ->
  (forall n s, (n < top)%nat -> searchInv (S n) s -> searchInv n (body n s)) ->
  minCostInc (for_down top body init) < sentinel /\ selected (for_down top body init).
Proof.
  intros Htop Hinit Hstep.
  assert (H : searchInv 0 (for_down top body init)).
  { apply (for_down_ind searchInv).
    - unfold searchInv. rewrite Hinit. split; [lia|]. split; intros; lia.
    - exact Hstep. }
  destruct H as (_ & Hsel & Hlast).
  assert (Hlt : minCostInc (for_down top body init) < sentinel) by (apply Hlast; lia).
  split; [exact Hlt | apply Hsel; exact Hlt].
Qed.

End CandidateSearch.

(** The search of the plain pass selects a position of the group. *)
Lemma hdqSearch_selected (q coef deltaU : list Z) (scan : list nat) (subPos : nat)
    (lastCG : Z) (firstNZ lastNZ : nat) (signbit : Z) :
  SBH_THRESHOLD <= Z.of_nat lastNZ - Z.of_nat firstNZ ->
  (lastNZ < SCAN_SET_SIZE)%nat ->
  cgAt q scan subPos lastNZ <> 0 ->
  (forall i, -2147483648 <= deltaU !!! i < 2147483648) ->
  let s := hdqSearch q coef deltaU scan subPos lastCG firstNZ lastNZ signbit in
  minCostInc s < MAX_INT /\ selected q coef scan subPos firstNZ signbit s.
Proof.
  intros Hfl Hl Hnz Hd s. subst s. unfold hdqSearch.
  apply (search_result q coef scan subPos firstNZ lastNZ signbit MAX_INT).
  - destruct (lastCG =? 1); unfold SCAN_SET_SIZE in *; lia.
  - reflexivity.
  - intros n s Hn Hinv.
    assert (Hn16 : (n < SCAN_SET_SIZE)%nat)
      by (destruct (lastCG =? 1); unfold SCAN_SET_SIZE in *; lia).
    unfold hdqCandidate. fold (cgAt q scan subPos n).
    set (blkPos := scan !!! (n + subPos)%nat).
    pose proof (Hd blkPos) as Hdb.
    unfold SBH_THRESHOLD in Hfl.
    destruct (Z.eqb_spec (cgAt q scan subPos n) 0) as [Hz|Hv]; cbn [negb].
    + assert (Hnl : n <> lastNZ) by (intros ->; contradiction).
      destruct (Nat.ltb_spec n firstNZ) as [Hbefore|Hafter].
      * destruct (Z.eqb_spec (if 0 <=? coef !!! blkPos then 0 else 1) signbit) as [Hs|Hs];
          cbn [negb].
        -- apply sbhSelect_inv; auto.
           ++ pose proof (s32_range (- deltaU !!! blkPos)). unfold MAX_INT. lia.
           ++ intros _. split; [intros _; split; [reflexivity | intros _; exact Hs]
                               | intros Hc; contradiction].
           ++ intros He; contradiction.
        -- apply sbhSelect_inv; auto.
           ++ lia.
           ++ intros Hc; lia.
           ++ intros He; contradiction.
      * apply sbhSelect_inv; auto.
        -- pose proof (s32_range (- deltaU !!! blkPos)). unfold MAX_INT. lia.
        -- intros _. split; [intros _; split; [reflexivity | intros Hc; lia]
                            | intros Hc; contradiction].
        -- intros He; contradiction.
    + destruct (Z.ltb_spec 0 (deltaU !!! blkPos)) as [Hpos|Hneg].
      * apply sbhSelect_inv; auto.
        -- pose proof (s32_range (- deltaU !!! blkPos)). unfold MAX_INT. lia.
        -- intros _. split; [intros Hc; contradiction | intros _; left; reflexivity].
        -- intros _. rewrite s32_id by lia. unfold MAX_INT. lia.
      * destruct (Nat.eqb_spec n firstNZ) as [Hf|Hf];
          [destruct (Z.eqb_spec (Z.abs (cgAt q scan subPos n)) 1) as [Ha|Ha]|]; cbn [andb].
        -- apply sbhSelect_inv; auto.
           ++ lia.
           ++ intros Hc; lia.
           ++ intros He. lia.
        -- apply sbhSelect_inv; auto.
           ++ unfold MAX_INT. lia.
           ++ intros _. split; [intros Hc; contradiction|].
              intros _. right. split; [reflexivity | intros [_ Hc]; contradiction].
           ++ intros _. unfold MAX_INT. lia.
        -- apply sbhSelect_inv; auto.
           ++ unfold MAX_INT. lia.
           ++ intros _. split; [intros Hc; contradiction|].
              intros _. right. split; [reflexivity | intros [Hc _]; contradiction].
           ++ intros _. unfold MAX_INT. lia.
Qed.

Lemma s64_range x : -9223372036854775808 <= s64 x < 9223372036854775808.
Proof.
  unfold s64.
  pose proof (Z.mod_pos_bound (x + 9223372036854775808) 18446744073709551616). lia.
Qed.

(** The search of the RDO pass selects a position of the group.  The entries
    of [deltaU], [rateIncDown] and [sigRateDelta] are [int] values and
    [rdFactor] fits 32 bits, so that the costs do not leave [int64_t]. *)
Lemma rdoSearch_selected (q : Quant) (cu : TComDataCU) (log2TrSize : Z) (ttype : TextType)
    (s : RdoState) (rdFactor : Z) (dst : list Z) (subPos : nat)
    (lastCG : Z) (firstNZ lastNZ : nat) (signbit : Z) :
  let scan := scan (getTUEntropyCodingParameters cu log2TrSize (isLuma ttype)) in
  SBH_THRESHOLD <= Z.of_nat lastNZ - Z.of_nat firstNZ ->
  (lastNZ < SCAN_SET_SIZE)%nat ->
  cgAt dst scan subPos lastNZ <> 0 ->
  Z.abs rdFactor <= 2147483648 ->
  (forall i, -2147483648 <= deltaU s !!! i < 2147483648) ->
  (forall i, -2147483648 <= rateIncDown s !!! i < 2147483648) ->
  let sr := rdoSearch q cu log2TrSize ttype s rdFactor dst subPos lastCG firstNZ lastNZ
              signbit in
  minCostInc sr < MAX_INT64 /\ selected dst (m_resiDctCoeff q) scan subPos firstNZ signbit sr.
Proof.
  intros scan Hfl Hl Hnz Hrd Hd Hdown sr. subst sr. unfold rdoSearch.
  apply (search_result dst (m_resiDctCoeff q) scan subPos firstNZ lastNZ signbit MAX_INT64).
  - destruct (lastCG =? 1); unfold SCAN_SET_SIZE in *; lia.
  - reflexivity.
  - intros n sr Hn Hinv.
    assert (Hn16 : (n < SCAN_SET_SIZE)%nat)
      by (destruct (lastCG =? 1); unfold SCAN_SET_SIZE in *; lia).
    unfold rdoCandidate. fold scan. fold (cgAt dst scan subPos n).
    set (blkPos := scan !!! (n + subPos)%nat).
    unfold SBH_THRESHOLD in Hfl.
    destruct (Z.eqb_spec (cgAt dst scan subPos n) 0) as [Hz|Hv]; cbn [negb].
    + assert (Hnl : n <> lastNZ) by (intros ->; contradiction).
      match goal with |- context [(s64 ?c, 1)] => set (cost := s64 c) end.
      assert (Hc : cost <= MAX_INT64)
        by (subst cost; match goal with |- s64 ?c <= _ => pose proof (s64_range c) end;
            unfold MAX_INT64; lia).
      destruct (Nat.ltb_spec n firstNZ) as [Hbefore|Hafter].
      * destruct (Z.eqb_spec (if 0 <=? m_resiDctCoeff q !!! blkPos then 0 else 1) signbit)
          as [Hs|Hs]; cbn [negb].
        -- apply sbhSelect_inv; auto.
           ++ intros _. split; [intros _; split; [reflexivity | intros _; exact Hs]
                               | intros Hc'; contradiction].
           ++ intros He; contradiction.
        -- apply sbhSelect_inv; auto.
           ++ lia.
           ++ intros Hc'; lia.
           ++ intros He; contradiction.
      * apply sbhSelect_inv; auto.
        -- intros _. split; [intros _; split; [reflexivity | intros Hc'; lia]
                            | intros Hc'; contradiction].
        -- intros He; contradiction.
    + set (isOne := Z.abs (cgAt dst scan subPos n) =? 1).
      set (costUp := s64 (s64 (rdFactor * s32 (- deltaU s !!! blkPos)) + rateIncUp s !!! blkPos)).
      set (down0 := s64 (s64 (s64 (rdFactor * deltaU s !!! blkPos) + rateIncDown s !!! blkPos)
                         - (if isOne then s32 (32768 + sigRateDelta s !!! blkPos) else 0))).
      set (costDown := if (lastCG =? 1) && (lastNZ =? n)%nat && isOne
                       then s64 (down0 - 131072) else down0).
      assert (HdownR : costDown <= MAX_INT64).
      { subst costDown down0. unfold MAX_INT64.
        destruct ((lastCG =? 1) && (lastNZ =? n)%nat && isOne);
          match goal with |- s64 ?c <= _ => pose proof (s64_range c) end; lia. }
      assert (HdownB : costDown < MAX_INT64).
      { pose proof (Hd blkPos) as Hdb. pose proof (Hdown blkPos) as Hrb.
        assert (Hprod : -4611686018427387904 <= rdFactor * deltaU s !!! blkPos
                        <= 4611686018427387904) by nia.
        pose proof (s32_range (32768 + sigRateDelta s !!! blkPos)) as Hsr.
        subst costDown down0. unfold MAX_INT64.
        rewrite (s64_id (rdFactor * deltaU s !!! blkPos)) by lia.
        rewrite (s64_id (rdFactor * deltaU s !!! blkPos + rateIncDown s !!! blkPos)) by lia.
        destruct isOne.
        - rewrite (s64_id (_ - s32 _)) by lia.
          destruct ((lastCG =? 1) && (lastNZ =? n)%nat && true);
            [rewrite s64_id by lia|]; lia.
        - rewrite (s64_id (_ - 0)) by lia.
          destruct ((lastCG =? 1) && (lastNZ =? n)%nat && false);
            [rewrite s64_id by lia|]; lia. }
      destruct (Z.ltb_spec costUp costDown) as [Hup|Hup].
      * apply sbhSelect_inv; auto.
        -- lia.
        -- intros _. split; [intros Hc; contradiction | intros _; left; reflexivity].
        -- intros _. lia.
      * destruct (Nat.eqb_spec n firstNZ) as [Hf|Hf]; [destruct isOne eqn:Hone|]; cbn [andb].
        -- apply sbhSelect_inv; auto.
           ++ lia.
           ++ intros Hc; lia.
           ++ intros He. lia.
        -- apply sbhSelect_inv; auto.
           intros _. split; [intros Hc; contradiction|].
           intros _. right. split; [reflexivity|].
           intros [_ Hc]. subst isOne. apply Z.eqb_neq in Hone. contradiction.
        -- apply sbhSelect_inv; auto.
           intros _. split; [intros Hc; contradiction|].
           intros _. right. split; [reflexivity | intros [Hc _]; contradiction].
Qed.

(** The entries of an [int] array. *)
Definition all_int (l : list Z) : bool :=
  forallb (fun x => (-2147483648 <=? x) && (x <? 2147483648)) l.

Lemma all_int_lookup (l : list Z) (i : nat) :
  all_int l = true -> -2147483648 <= l !!! i < 2147483648.
Proof.
  intros H. unfold all_int in H. rewrite forallb_forall in H.
  destruct (l !! i) as [x|] eqn:Hx.
  - rewrite (list_lookup_total_correct l i x Hx).
    assert (Hin : In x l) by (apply list_elem_of_In, list_elem_of_lookup; eauto).
    specialize (H x Hin). lia.
  - rewrite list_lookup_total_alt, Hx. simpl. lia.
Qed.

(** C9.  When a pass enters the adjustment branch of a group (the last
    nonzero place is at least [SBH_THRESHOLD] after the first one), the
    candidate search ends with a cost strictly below the sentinel
    ([MAX_INT], [MAX_INT64]) and [minPos] is the block position of one of
    the 16 places of the group: it is not left at -1, and it indexes the
    block when the scan does.  The arrays hold [int] values and [rdFactor]
    fits 32 bits. *)
Theorem sbh_search_selects
    (q : Quant) (cu : TComDataCU) (log2TrSize : Z) (ttype : TextType) (s : RdoState)
    (rdFactor : Z) (qCoef coef deltaUq dst : list Z) (scanHDQ : list nat)
    (subSet : nat) (lastCG : Z) (lastNZ lastNZ' : nat) (signbit : Z) (numCoeff : nat) :
  let subPos := (subSet * SCAN_SET_SIZE)%nat in
  let scanRDO := scan (getTUEntropyCodingParameters cu log2TrSize (isLuma ttype)) in
  let firstNZ := firstNZPos qCoef scanHDQ subPos lastNZ 0 in
  let firstNZ' := firstNZPos dst scanRDO subPos lastNZ' 0 in
  let h := hdqSearch qCoef coef deltaUq scanHDQ subPos lastCG firstNZ lastNZ signbit in
  let r := rdoSearch q cu log2TrSize ttype s rdFactor dst subPos lastCG firstNZ' lastNZ'
             signbit in
  all_int deltaUq = true ->
  all_int (deltaU s) = true ->
  all_int (rateIncDown s) = true ->
  Z.abs rdFactor <= 2147483648 ->
  (subPos + SCAN_SET_SIZE <= numCoeff)%nat ->
  (lastNZPos qCoef scanHDQ subPos SCAN_SET_SIZE = Some lastNZ ->
   SBH_THRESHOLD <= Z.of_nat lastNZ - Z.of_nat firstNZ ->
   minCostInc h < MAX_INT /\ minPos h <> -1 /\
   (exists n, (n < SCAN_SET_SIZE)%nat /\ minPos h = Z.of_nat (scanHDQ !!! (n + subPos)%nat)) /\
   ((forall i, (i < numCoeff)%nat -> (scanHDQ !!! i < numCoeff)%nat) ->
    0 <= minPos h < Z.of_nat numCoeff)) /\
  (lastNZPos dst scanRDO subPos SCAN_SET_SIZE = Some lastNZ' ->
   SBH_THRESHOLD <= Z.of_nat lastNZ' - Z.of_nat firstNZ' ->
   minCostInc r < MAX_INT64 /\ minPos r <> -1 /\
   (exists n, (n < SCAN_SET_SIZE)%nat /\ minPos r = Z.of_nat (scanRDO !!! (n + subPos)%nat)) /\
   ((forall i, (i < numCoeff)%nat -> (scanRDO !!! i < numCoeff)%nat) ->
    0 <= minPos r < Z.of_nat numCoeff)).
Proof.
  intros subPos scanRDO firstNZ firstNZ' h r Hd Hds Hdown Hrd Hsub. split.
  - intros Hlast Hth.
    destruct (lastNZPos_Some _ _ _ _ _ Hlast) as (Hl & Hnz & _).
    destruct (hdqSearch_selected qCoef coef deltaUq scanHDQ subPos lastCG firstNZ lastNZ
                signbit Hth Hl Hnz (fun i => all_int_lookup deltaUq i Hd))
      as (Hmin & n & Hn & Hpos & _).
    fold h in Hmin, Hpos. split; [exact Hmin|]. split; [lia|].
    split; [exists n; split; [exact Hn | exact Hpos]|].
    intros Hscan. rewrite Hpos.
    specialize (Hscan (n + subPos)%nat ltac:(lia)). lia.
  - intros Hlast Hth.
    destruct (lastNZPos_Some _ _ _ _ _ Hlast) as (Hl & Hnz & _).
    destruct (rdoSearch_selected q cu log2TrSize ttype s rdFactor dst subPos lastCG
                firstNZ' lastNZ' signbit Hth Hl Hnz Hrd
                (fun i => all_int_lookup _ i Hds) (fun i => all_int_lookup _ i Hdown))
      as (Hmin & n & Hn & Hpos & _).
    fold r in Hmin, Hpos. fold scanRDO in Hpos.
    split; [exact Hmin|]. split; [lia|].
    split; [exists n; split; [exact Hn | exact Hpos]|].
    intros Hscan. rewrite Hpos.
    specialize (Hscan (n + subPos)%nat ltac:(lia)). lia.
Qed.

(** The up-right diagonal scan of a 4x4 block. *)
Definition scan4x4 : list nat :=
  [0; 4; 1; 8; 5; 2; 12; 9; 6; 3; 13; 10; 7; 14; 11; 15]%nat.

Definition cu_example : TComDataCU :=
  {| isIntra := true; getCUTransquantBypass := false; predModeIsIntra := true;
     sliceIsI := true; bSignHideEnabled := true; getTransformIdx := 0;
     getCtxQtCbf := fun _ => 0;
     getTUEntropyCodingParameters := fun _ _ =>
       {| scan := scan4x4; scanCG := [0%nat]; scanType := 0; log2TrSizeCG := 0%nat;
          firstSignificanceMapContext := 0 |} |}.

(** DCT coefficients whose levels 3 and 2 (positions 0 and 2, places 0 and
    5 of the scan) have an odd sum against the sign bit 0 of the first one:
    both passes enter the adjustment branch on them. *)
Definition dct_mismatch_example : list Z :=
  [100; 0; 70; 0; 0; 0; 0; 0; 0; 0; 0; 0; 0; 0; 0; 0].

Definition levels_mismatch_example : list Z :=
  [3; 0; 2; 0; 0; 0; 0; 0; 0; 0; 0; 0; 0; 0; 0; 0].

(** The [deltaU] that plain quantisation leaves for [dct_mismatch_example]. *)
Definition deltaU_mismatch_example : list Z :=
  [32; 0; 48; 0; 0; 0; 0; 0; 0; 0; 0; 0; 0; 0; 0; 0].

Lemma sbh_search_selects_witness :
  let q := quant_example dct_mismatch_example in
  let nq := prim_nquant dct_mismatch_example (replicate 16 16384) (replicate 1024 0)
              (replicate 16 0) 19 262144 16 in
  let s := rdoScan 8 g_goRiceRange_hevc q cu_example 2 TEXT_LUMA (fst (fst nq))
             (snd (fst nq)) in
  let h := hdqSearch levels_mismatch_example dct_mismatch_example deltaU_mismatch_example
             scan4x4 0 1 0 5 0 in
  let r := rdoSearch q cu_example 2 TEXT_LUMA s 256 (dstCoeff s) 0 1 0 5 0 in
  dstCoeff s = levels_mismatch_example /\
  (minPos h <> -1 /\ minPos h = 2 /\ finalChange h = 1) /\
  (minPos r <> -1 /\ minPos r = 0 /\ finalChange r = -1).
Proof.
  intros q nq s h r.
  destruct (sbh_search_selects q cu_example 2 TEXT_LUMA s 256 levels_mismatch_example
              dct_mismatch_example deltaU_mismatch_example (dstCoeff s) scan4x4 0 1 5 5 0 16)
    as [H1 H2].
  - reflexivity.
  - vm_compute. reflexivity.
  - vm_compute. reflexivity.
  - vm_compute. discriminate.
  - vm_compute. lia.
  - split; [vm_compute; reflexivity|]. split.
    + split; [apply H1; [reflexivity | vm_compute; discriminate]|].
      split; vm_compute; reflexivity.
    + split; [apply H2; [vm_compute; reflexivity | vm_compute; discriminate]|].
      split; vm_compute; reflexivity.
Defined.

(** ** Sign-bit hiding: the update *)

(** A quantised level: in the signed 16-bit range, with the sign of the DCT
    coefficient it comes from (a zero DCT coefficient counts as positive). *)
Definition levelOK (coef : list Z) (blk : nat) (v : Z) : Prop :=
  -32768 <= v <= 32767 /\ (0 < v -> 0 <= coef !!! blk) /\ (v < 0 -> coef !!! blk < 0).

Lemma count_nonzero_ge_nz (l : list Z) (i : nat) :
  (i < length l)%nat -> nz (l !!! i) <= count_nonzero l.
Proof.
  intros Hi. pose proof (count_nonzero_insert l i 0 Hi) as H.
  pose proof (count_nonzero_bounds (<[i := 0]> l)) as Hb.
  change (nz 0) with 0 in H. lia.
Qed.

Lemma sbhApply_spec (q coef : list Z) (scan : list nat) (subPos firstNZ : nat)
    (signbit numSig : Z) (s : SbhSearch) :
  selected q coef scan subPos firstNZ signbit s ->
  (forall n, (n < SCAN_SET_SIZE)%nat -> (scan !!! (n + subPos)%nat < length q)%nat) ->
  (forall blk, (blk < length q)%nat -> levelOK coef blk (q !!! blk)) ->
  numSig = count_nonzero q ->
  Z.of_nat (length q) < 4294967295 ->
  exists n v',
    (n < SCAN_SET_SIZE)%nat /\
    sbhApply q coef numSig s
    = (<[scan !!! (n + subPos)%nat := v']> q,
       count_nonzero (<[scan !!! (n + subPos)%nat := v']> q)) /\
    levelOK coef (scan !!! (n + subPos)%nat) v' /\
    (Z.abs v' = Z.abs (cgAt q scan subPos n) + 1 \/
     Z.abs v' = Z.abs (cgAt q scan subPos n) - 1) /\
    (cgAt q scan subPos n = 0 -> (n < firstNZ)%nat -> signbitOf v' = signbit) /\
    (cgAt q scan subPos n <> 0 -> v' <> 0 -> signbitOf v' = signbitOf (cgAt q scan subPos n)) /\
    (cgAt q scan subPos n <> 0 -> v' = 0 -> n <> firstNZ).
Proof.
  intros (n & Hn & Hpos & Hz & Hnz) Hscan Hlev Hcount Hlen.
  set (blk := scan !!! (n + subPos)%nat) in *.
  assert (Hblk : (blk < length q)%nat) by (apply Hscan; exact Hn).
  destruct (Hlev blk Hblk) as (Hrange & Hposv & Hnegv).
  unfold cgAt in *. fold blk in Hz, Hnz |- *.
  set (v := q !!! blk) in *.
  set (fc := if (v =? 32767) || (v =? -32768) then -1 else finalChange s).
  exists n, (if 0 <=? coef !!! blk then s32 (v + fc) else s32 (v - fc)).
  fold blk. fold v.
  split; [exact Hn|].
  pose proof (count_nonzero_ge_nz q blk Hblk) as Hge. fold v in Hge.
  pose proof (count_nonzero_bounds q) as Hcb.
  assert (Hfc : fc = 1 \/ fc = -1).
  { subst fc. destruct ((v =? 32767) || (v =? -32768)); [right; reflexivity|].
    destruct (Z.eq_dec v 0) as [H0|H0].
    - destruct (Hz H0) as [-> _]. left; reflexivity.
    - destruct (Hnz H0) as [->|[-> _]]; [left | right]; reflexivity. }
  assert (Hfc0 : v = 0 -> fc = 1).
  { intros H0. subst fc. rewrite H0. simpl. apply (Hz H0). }
  assert (Hsat : v = 32767 \/ v = -32768 -> fc = -1).
  { intros H. subst fc. destruct H as [-> | ->]; reflexivity. }
  assert (Hfirst : v <> 0 -> fc = -1 -> Z.abs v = 1 -> n <> firstNZ).
  { intros H0 Hm Ha. subst fc.
    destruct (Z.eqb_spec v 32767) as [|_]; [lia|].
    destruct (Z.eqb_spec v (-32768)) as [|_]; [lia|]. simpl in Hm.
    destruct (Hnz H0) as [H1|[_ Hno]]; [lia|]. intros ->. apply Hno. split; [reflexivity|exact Ha]. }
  split.
  { unfold sbhApply. rewrite Hpos, Nat2Z.id. fold blk. fold v. fold fc.
    assert (Hq : (if 0 <=? coef !!! blk
                  then <[blk := s32 (v + fc)]> q else <[blk := s32 (v - fc)]> q)
                 = <[blk := if 0 <=? coef !!! blk then s32 (v + fc) else s32 (v - fc)]> q)
      by (destruct (0 <=? coef !!! blk); reflexivity).
    rewrite Hq. f_equal.
    rewrite count_nonzero_insert by exact Hblk. fold v. rewrite <- Hcount in *.
    unfold nz in *.
    destruct (Z.eqb_spec v 0) as [H0|H0].
    - rewrite (Hfc0 H0), H0. rewrite u32_id by lia.
      destruct (0 <=? coef !!! blk); simpl; lia.
    - destruct (Z.leb_spec 0 (coef !!! blk)) as [Hc|Hc].
      + assert (0 < v) by lia.
        rewrite (s32_id (v + fc)) by lia.
        destruct (Z.eqb_spec fc (-1)) as [Hm|Hm];
          [destruct (Z.eqb_spec (Z.abs v) 1) as [Ha|Ha]|]; cbn [andb].
        * rewrite u32_id by lia. destruct (Z.eqb_spec (v + fc) 0); lia.
        * destruct (Z.eqb_spec (v + fc) 0); lia.
        * destruct (Z.eqb_spec (v + fc) 0); lia.
      + assert (v < 0) by lia.
        rewrite (s32_id (v - fc)) by lia.
        destruct (Z.eqb_spec fc (-1)) as [Hm|Hm];
          [destruct (Z.eqb_spec (Z.abs v) 1) as [Ha|Ha]|]; cbn [andb].
        * rewrite u32_id by lia. destruct (Z.eqb_spec (v - fc) 0); lia.
        * destruct (Z.eqb_spec (v - fc) 0); lia.
        * destruct (Z.eqb_spec (v - fc) 0); lia. }
  assert (Hv' : (if 0 <=? coef !!! blk then s32 (v + fc) else s32 (v - fc))
                = if 0 <=? coef !!! blk then v + fc else v - fc).
  { destruct (0 <=? coef !!! blk); apply s32_id; lia. }
  rewrite Hv'. clear Hv'. unfold levelOK, signbitOf.
  destruct (Z.leb_spec 0 (coef !!! blk)) as [Hc|Hc].
  - assert (0 <= v) by lia.
    split; [repeat split; lia|].
    split; [lia|].
    split.
    { intros H0 Hb. destruct (Hz H0) as [_ Hs]. rewrite (Hfc0 H0), H0.
      specialize (Hs Hb). exact Hs. }
    split.
    { intros H0 H1. destruct (Z.ltb_spec 0 (v + fc)); destruct (Z.ltb_spec 0 v); lia. }
    intros H0 H1. apply Hfirst; lia.
  - assert (v <= 0) by lia.
    split; [repeat split; lia|].
    split; [lia|].
    split.
    { intros H0 Hb. destruct (Hz H0) as [_ Hs]. rewrite (Hfc0 H0), H0.
      specialize (Hs Hb). exact Hs. }
    split.
    { intros H0 H1. destruct (Z.ltb_spec 0 (v - fc)); destruct (Z.ltb_spec 0 v); lia. }
    intros H0 H1. apply Hfirst; lia.
Qed.

(** ** Sign-bit hiding: one coefficient group *)

Lemma list_eq_total (l1 l2 : list Z) :
  length l1 = length l2 ->
  (forall i, (i < length l1)%nat -> l1 !!! i = l2 !!! i) ->
  l1 = l2.
Proof.
  intros Hlen H. apply list_eq. intros i.
  destruct (lt_dec i (length l1)) as [Hi|Hi].
  - rewrite (list_lookup_lookup_total_lt l1 i Hi).
    rewrite (list_lookup_lookup_total_lt l2 i) by lia.
    f_equal. apply H. exact Hi.
  - rewrite !lookup_ge_None_2 by lia. reflexivity.
Qed.

(** What the group step leaves of a group of [q] in [q']: nothing changes
    when the sign is hidden already; otherwise exactly one place changes, by
    one, and the first nonzero coefficient does not go from magnitude 1 to
    zero. *)
Definition cgStep (q q' : list Z) (scan : list nat) (subPos : nat) : Prop :=
  (signHidden q scan subPos /\
   forall m, (m < SCAN_SET_SIZE)%nat -> cgAt q' scan subPos m = cgAt q scan subPos m)
  \/
  (~ signHidden q scan subPos /\
   exists n, (n < SCAN_SET_SIZE)%nat /\
     (Z.abs (cgAt q' scan subPos n) = Z.abs (cgAt q scan subPos n) + 1 \/
      Z.abs (cgAt q' scan subPos n) = Z.abs (cgAt q scan subPos n) - 1) /\
     (forall m, (m < SCAN_SET_SIZE)%nat -> m <> n ->
        cgAt q' scan subPos m = cgAt q scan subPos m) /\
     (isFirstNZ q scan subPos n -> Z.abs (cgAt q scan subPos n) = 1 ->
        cgAt q' scan subPos n <> 0)).

Lemma cgCoeffs_ext q q' scan subPos :
  (forall m, (m < SCAN_SET_SIZE)%nat -> cgAt q' scan subPos m = cgAt q scan subPos m) ->
  cgCoeffs q' scan subPos = cgCoeffs q scan subPos.
Proof.
  intros H. apply list_eq_total.
  - rewrite !cgCoeffs_length. reflexivity.
  - intros i Hi. rewrite cgCoeffs_length in Hi.
    rewrite !cgCoeffs_lookup by exact Hi. apply H. exact Hi.
Qed.

Lemma isFirstNZ_ext q q' scan subPos f :
  (forall m, (m < SCAN_SET_SIZE)%nat -> cgAt q' scan subPos m = cgAt q scan subPos m) ->
  isFirstNZ q' scan subPos f -> isFirstNZ q scan subPos f.
Proof.
  intros H (Hf & Hnz & Hz). split; [exact Hf|]. split.
  - rewrite <- H by exact Hf. exact Hnz.
  - intros n Hn. rewrite <- H by lia. apply Hz. exact Hn.
Qed.

Lemma isLastNZ_ext q q' scan subPos l :
  (forall m, (m < SCAN_SET_SIZE)%nat -> cgAt q' scan subPos m = cgAt q scan subPos m) ->
  isLastNZ q' scan subPos l -> isLastNZ q scan subPos l.
Proof.
  intros H (Hl & Hnz & Hz). split; [exact Hl|]. split.
  - rewrite <- H by exact Hl. exact Hnz.
  - intros n Hn. rewrite <- H by lia. apply Hz. exact Hn.
Qed.

Lemma signHidden_ext q q' scan subPos :
  (forall m, (m < SCAN_SET_SIZE)%nat -> cgAt q' scan subPos m = cgAt q scan subPos m) ->
  signHidden q scan subPos -> signHidden q' scan subPos.
Proof.
  intros H Hs f l Hf Hl Hth.
  rewrite (cgCoeffs_ext q q' scan subPos H).
  rewrite H by (destruct Hf; assumption).
  apply (Hs f l); [eapply isFirstNZ_ext | eapply isLastNZ_ext | ]; eauto.
Qed.

Lemma cgStep_ext q0 q q' scan subPos :
  (forall m, (m < SCAN_SET_SIZE)%nat -> cgAt q' scan subPos m = cgAt q scan subPos m) ->
  cgStep q0 q scan subPos -> cgStep q0 q' scan subPos.
Proof.
  intros H [[Hs He]|[Hs (n & Hn & Habs & Hother & Hfirst)]].
  - left. split; [exact Hs|]. intros m Hm. rewrite H by exact Hm. apply He. exact Hm.
  - right. split; [exact Hs|]. exists n. split; [exact Hn|].
    rewrite H by exact Hn. split; [exact Habs|]. split.
    + intros m Hm Hne. rewrite H by exact Hm. apply Hother; assumption.
    + exact Hfirst.
Qed.

Lemma signHidden_iff q q' scan subPos :
  (forall m, (m < SCAN_SET_SIZE)%nat -> cgAt q' scan subPos m = cgAt q scan subPos m) ->
  signHidden q scan subPos <-> signHidden q' scan subPos.
Proof.
  intros H. split; apply signHidden_ext; [exact H|].
  intros m Hm. symmetry. apply H. exact Hm.
Qed.

(** The group step seen from a block that agrees with [q] on the group. *)
Lemma cgStep_ext_left q0 q q' scan subPos :
  (forall m, (m < SCAN_SET_SIZE)%nat -> cgAt q scan subPos m = cgAt q0 scan subPos m) ->
  cgStep q q' scan subPos -> cgStep q0 q' scan subPos.
Proof.
  intros H [[Hs He]|[Hs (n & Hn & Habs & Hother & Hfirst)]].
  - left. split; [apply (signHidden_ext q q0); [|exact Hs]|].
    + intros m Hm. symmetry. apply H. exact Hm.
    + intros m Hm. rewrite He by exact Hm. apply H. exact Hm.
  - right. split.
    + intros Hs0. apply Hs. apply (signHidden_ext q0 q); assumption.
    + exists n. split; [exact Hn|]. rewrite <- H by exact Hn.
      split; [exact Habs|]. split.
      * intros m Hm Hne. rewrite Hother by assumption. apply H. exact Hm.
      * intros Hf. apply Hfirst. apply (isFirstNZ_ext q q0); [|exact Hf].
        intros m Hm. symmetry. apply H. exact Hm.
Qed.

Lemma mod2_cases x : x mod 2 = 0 \/ x mod 2 = 1.
Proof. Z.div_mod_to_equations. lia. Qed.

Lemma signbitOf_cases x : signbitOf x = 0 \/ signbitOf x = 1.
Proof. unfold signbitOf. destruct (0 <? x); auto. Qed.

Section SbhPass.

Variable wrap : Z -> Z.
Variable search : list Z -> nat -> Z -> nat -> nat -> Z -> SbhSearch.
Variables (coef : list Z) (scan : list nat) (numCoeff : nat).

Hypothesis wrap_parity : keepsParity wrap.
Hypothesis search_selects :
  forall q subPos lastCG firstNZ lastNZ signbit,
    SBH_THRESHOLD <= Z.of_nat lastNZ - Z.of_nat firstNZ ->
    (lastNZ < SCAN_SET_SIZE)%nat ->
    cgAt q scan subPos lastNZ <> 0 ->
    selected q coef scan subPos firstNZ signbit
      (search q subPos lastCG firstNZ lastNZ signbit).
Hypothesis scan_lt : forall i, (i < numCoeff)%nat -> (scan !!! i < numCoeff)%nat.
Hypothesis scan_inj :
  forall i j, (i < numCoeff)%nat -> (j < numCoeff)%nat -> scan !!! i = scan !!! j -> i = j.
Hypothesis numCoeff_small : Z.of_nat numCoeff < 4294967295.

(** The invariant of the pass: every level is in range and has the sign of
    its DCT coefficient, and [numSig] counts the nonzero levels. *)
Definition passInv (q : list Z) (numSig : Z) : Prop :=
  length q = numCoeff /\
  (forall blk, (blk < numCoeff)%nat -> levelOK coef blk (q !!! blk)) /\
  numSig = count_nonzero q.

Lemma cgAt_insert (q : list Z) (p : nat) (v : Z) (subPos m : nat) :
  length q = numCoeff -> (p < numCoeff)%nat -> (m + subPos < numCoeff)%nat ->
  cgAt (<[scan !!! p := v]> q) scan subPos m
  = if decide (m + subPos = p)%nat then v else cgAt q scan subPos m.
Proof.
  intros Hlen Hp Hm. unfold cgAt.
  destruct (decide (m + subPos = p)%nat) as [->|Hne].
  - apply list_lookup_total_insert_eq. rewrite Hlen. apply scan_lt. exact Hp.
  - apply list_lookup_total_insert_ne. intros He. apply Hne.
    symmetry. apply scan_inj; assumption.
Qed.

Lemma cgCoeffs_insert (q : list Z) (subPos n : nat) (v : Z) :
  length q = numCoeff -> (subPos + SCAN_SET_SIZE <= numCoeff)%nat ->
  (n < SCAN_SET_SIZE)%nat ->
  cgCoeffs (<[scan !!! (n + subPos)%nat := v]> q) scan subPos
  = <[n := v]> (cgCoeffs q scan subPos).
Proof.
  intros Hlen Hsub Hn. apply list_eq_total.
  - rewrite length_insert, !cgCoeffs_length. reflexivity.
  - intros i Hi. rewrite cgCoeffs_length in Hi.
    rewrite cgCoeffs_lookup by exact Hi.
    rewrite cgAt_insert by lia.
    destruct (decide (i + subPos = n + subPos)%nat) as [He|Hne].
    + assert (i = n) by lia. subst i.
      rewrite list_lookup_total_insert_eq by (rewrite cgCoeffs_length; exact Hn).
      reflexivity.
    + rewrite list_lookup_total_insert_ne by lia.
      rewrite cgCoeffs_lookup by exact Hi. reflexivity.
Qed.

Lemma sbhSubSet_spec (subSet : nat) (q : list Z) (numSig lastCG : Z) :
  (subSet * SCAN_SET_SIZE + SCAN_SET_SIZE <= numCoeff)%nat ->
  passInv q numSig ->
  exists q' numSig' lastCG',
    sbhSubSet wrap search coef scan subSet (q, numSig, lastCG) = (q', numSig', lastCG') /\
    passInv q' numSig' /\
    signHidden q' scan (subSet * SCAN_SET_SIZE) /\
    cgStep q q' scan (subSet * SCAN_SET_SIZE) /\
    (forall blk,
       (forall m, (m < SCAN_SET_SIZE)%nat -> blk <> scan !!! (m + subSet * SCAN_SET_SIZE)%nat) ->
       q' !!! blk = q !!! blk).
Proof.
  intros Hsub Hinv. unfold sbhSubSet.
  set (subPos := (subSet * SCAN_SET_SIZE)%nat) in *.
  assert (Hkeep : forall lc : Z,
            (signHidden q scan subPos) ->
            exists q' numSig' lastCG',
              (q, numSig, lc) = (q', numSig', lastCG') /\
              passInv q' numSig' /\ signHidden q' scan subPos /\
              cgStep q q' scan subPos /\
              (forall blk,
                 (forall m, (m < SCAN_SET_SIZE)%nat -> blk <> scan !!! (m + subPos)%nat) ->
                 q' !!! blk = q !!! blk)).
  { intros lc Hs. exists q, numSig, lc. split; [reflexivity|].
    split; [exact Hinv|]. split; [exact Hs|]. split; [|reflexivity].
    left. split; [exact Hs | reflexivity]. }
  destruct (lastNZPos q scan subPos SCAN_SET_SIZE) as [l|] eqn:Hlast.
  2:{ apply Hkeep. intros f l' (Hf & Hnz & _) _ _. exfalso. apply Hnz.
      apply (lastNZPos_None _ _ _ _ Hlast). exact Hf. }
  destruct (lastNZPos_Some _ _ _ _ _ Hlast) as (Hl & Hnzl & Hafter).
  destruct (firstNZPos_spec q scan subPos l Hnzl l 0%nat eq_refl ltac:(intros; lia))
    as (Hfl & Hnzf & Hbefore).
  set (f := firstNZPos q scan subPos l 0) in *.
  assert (HF : isFirstNZ q scan subPos f) by (split; [lia | split; assumption]).
  assert (HL : isLastNZ q scan subPos l) by (split; [lia | split; assumption]).
  destruct (Z.leb_spec SBH_THRESHOLD (Z.of_nat l - Z.of_nat f)) as [Hth|Hth].
  2:{ apply Hkeep. intros f' l' Hf' Hl' Hth'.
      rewrite <- (isFirstNZ_unique _ _ _ _ _ HF Hf') in Hth'.
      rewrite <- (isLastNZ_unique _ _ _ _ _ HL Hl') in Hth'. lia. }
  replace (subPos + f)%nat with (f + subPos)%nat by lia.
  fold (cgAt q scan subPos f). fold (signbitOf (cgAt q scan subPos f)).
  rewrite (sumCG_parity wrap q scan subPos f l wrap_parity Hfl Hl Hbefore Hafter).
  set (sb := signbitOf (cgAt q scan subPos f)).
  set (par := sum_abs (cgCoeffs q scan subPos) mod 2).
  destruct (Z.eqb_spec sb par) as [Heq|Hneq]; cbn [negb].
  { apply Hkeep. intros f' l' Hf' Hl' _.
    rewrite <- (isFirstNZ_unique _ _ _ _ _ HF Hf'). exact Heq. }
  destruct Hinv as (Hlen & Hlev & Hcount).
  pose proof (search_selects q subPos lastCG f l sb Hth Hl Hnzl) as Hsel.
  destruct (sbhApply_spec q coef scan subPos f sb numSig _ Hsel)
    as (n & v' & Hn & Happ & Hv' & Habs & Hzero & Hsame & Hnof).
  { intros m Hm. rewrite Hlen. apply scan_lt. lia. }
  { intros blk Hblk. apply Hlev. lia. }
  { exact Hcount. }
  { rewrite Hlen. exact numCoeff_small. }
  rewrite Happ.
  set (blk := scan !!! (n + subPos)%nat) in *.
  set (q' := <[blk := v']> q) in *.
  assert (Hat : forall m, (m < SCAN_SET_SIZE)%nat ->
            cgAt q' scan subPos m = if decide (m = n) then v' else cgAt q scan subPos m).
  { intros m Hm. unfold q', blk. rewrite cgAt_insert by lia.
    destruct (decide (m + subPos = n + subPos)%nat); destruct (decide (m = n)); try lia;
      reflexivity. }
  assert (Hatn : cgAt q' scan subPos n = v').
  { rewrite Hat by exact Hn. destruct (decide (n = n)); [reflexivity|lia]. }
  assert (Hato : forall m, (m < SCAN_SET_SIZE)%nat -> m <> n ->
            cgAt q' scan subPos m = cgAt q scan subPos m).
  { intros m Hm Hne. rewrite Hat by exact Hm. destruct (decide (m = n)); [lia|reflexivity]. }
  exists q', (count_nonzero q'), 0. split; [reflexivity|].
  split.
  { split; [unfold q'; rewrite length_insert; exact Hlen|]. split; [|reflexivity].
    intros b Hb. destruct (decide (b = blk)) as [->|Hne].
    - unfold q'. rewrite list_lookup_total_insert_eq by (rewrite Hlen; exact Hb). exact Hv'.
    - unfold q'. rewrite list_lookup_total_insert_ne by congruence. apply Hlev. exact Hb. }
  split.
  { intros f' l' Hf' Hl' _.
    assert (Hpar : sum_abs (cgCoeffs q' scan subPos) mod 2 = sb).
    { unfold q', blk. rewrite cgCoeffs_insert by (auto; lia).
      rewrite sum_abs_insert by (rewrite cgCoeffs_length; exact Hn).
      rewrite cgCoeffs_lookup by exact Hn.
      fold par in Hneq |- *.
      destruct (mod2_cases (sum_abs (cgCoeffs q scan subPos))) as [Hp|Hp];
        destruct (signbitOf_cases (cgAt q scan subPos f)) as [Hs|Hs];
        fold sb in Hs; fold par in Hp; try lia;
        subst par; revert Hp; generalize (sum_abs (cgCoeffs q scan subPos));
        intros t Hp; destruct Habs as [Ha|Ha]; rewrite Ha; Z.div_mod_to_equations; lia. }
    rewrite Hpar.
    destruct (Z.eq_dec (cgAt q scan subPos n) 0) as [Hvz|Hvnz].
    - assert (Hv'nz : v' <> 0) by lia.
      destruct (lt_dec n f) as [Hnf|Hnf].
      + assert (Hf'' : isFirstNZ q' scan subPos n).
        { split; [exact Hn|]. split; [rewrite Hatn; exact Hv'nz|].
          intros m Hm. rewrite Hato by lia. apply Hbefore. lia. }
        rewrite (isFirstNZ_unique _ _ _ _ _ Hf' Hf''), Hatn.
        apply Hzero; assumption.
      + assert (n <> f) by (intros ->; contradiction).
        assert (Hf'' : isFirstNZ q' scan subPos f).
        { split; [lia|]. split; [rewrite Hato by lia; exact Hnzf|].
          intros m Hm. rewrite Hato by lia. apply Hbefore. exact Hm. }
        rewrite (isFirstNZ_unique _ _ _ _ _ Hf' Hf''), Hato by lia. reflexivity.
    - assert (Hnf : (f <= n)%nat).
      { destruct (le_lt_dec f n) as [H|H]; [exact H|]. exfalso. apply Hvnz, Hbefore, H. }
      destruct (decide (n = f)) as [He|Hne].
      + subst n. assert (Hv'nz : v' <> 0) by (intros H0; apply (Hnof Hvnz H0); reflexivity).
        assert (Hf'' : isFirstNZ q' scan subPos f).
        { split; [lia|]. split; [rewrite Hatn; exact Hv'nz|].
          intros m Hm. rewrite Hato by lia. apply Hbefore. exact Hm. }
        rewrite (isFirstNZ_unique _ _ _ _ _ Hf' Hf''), Hatn.
        apply Hsame; assumption.
      + assert (Hf'' : isFirstNZ q' scan subPos f).
        { split; [lia|]. split; [rewrite Hato by lia; exact Hnzf|].
          intros m Hm. rewrite Hato by lia. apply Hbefore. exact Hm. }
        rewrite (isFirstNZ_unique _ _ _ _ _ Hf' Hf''), Hato by lia. reflexivity. }
  split.
  { right. split.
    - intros Hs. apply Hneq. apply (Hs f l HF HL Hth).
    - exists n. split; [exact Hn|]. rewrite Hatn. split; [exact Habs|].
      split; [exact Hato|].
      intros Hfn Hone H0.
      assert (Hvnz : cgAt q scan subPos n <> 0) by lia.
      apply (Hnof Hvnz H0).
      apply (isFirstNZ_unique _ _ _ _ _ Hfn HF). }
  intros b Hb. unfold q'. apply list_lookup_total_insert_ne.
  intros He. apply (Hb n Hn). symmetry. exact He.
Qed.

(** The pass over the groups [K - 1 .. 0]. *)
Lemma sbhPass_spec (K : nat) (q0 : list Z) (numSig0 lastCG0 : Z) :
  (K * SCAN_SET_SIZE <= numCoeff)%nat ->
  passInv q0 numSig0 ->
  exists q numSig lastCG,
    for_down K (sbhSubSet wrap search coef scan) (q0, numSig0, lastCG0) = (q, numSig, lastCG) /\
    passInv q numSig /\
    (forall g, (g < K)%nat ->
       signHidden q scan (g * SCAN_SET_SIZE) /\ cgStep q0 q scan (g * SCAN_SET_SIZE)) /\
    (forall blk,
       (forall g m, (g < K)%nat -> (m < SCAN_SET_SIZE)%nat ->
          blk <> scan !!! (m + g * SCAN_SET_SIZE)%nat) ->
       q !!! blk = q0 !!! blk).
Proof.
  intros HK Hinv0.
  pose (J := fun (k : nat) (st : list Z * Z * Z) =>
    passInv (fst (fst st)) (snd (fst st)) /\
    (forall g, (k <= g < K)%nat ->
       signHidden (fst (fst st)) scan (g * SCAN_SET_SIZE) /\
       cgStep q0 (fst (fst st)) scan (g * SCAN_SET_SIZE)) /\
    (forall blk,
       (forall g m, (k <= g < K)%nat -> (m < SCAN_SET_SIZE)%nat ->
          blk <> scan !!! (m + g * SCAN_SET_SIZE)%nat) ->
       fst (fst st) !!! blk = q0 !!! blk)).
  assert (HJ : J 0%nat (for_down K (sbhSubSet wrap search coef scan) (q0, numSig0, lastCG0))).
  { apply (for_down_ind J).
    - unfold J; cbn [fst snd]. split; [exact Hinv0|]. split; [intros; lia | reflexivity].
    - intros k [[q numSig] lc] Hk (Hinv & Hdone & Hout). cbn [fst snd] in *.
      assert (Hsub : (k * SCAN_SET_SIZE + SCAN_SET_SIZE <= numCoeff)%nat)
        by (unfold SCAN_SET_SIZE in *; lia).
      destruct (sbhSubSet_spec k q numSig lc Hsub Hinv)
        as (q' & numSig' & lc' & Heq & Hinv' & Hhid & Hstep & Hout').
      rewrite Heq. unfold J; cbn [fst snd].
      assert (Hother : forall g m, (g < K)%nat -> g <> k -> (m < SCAN_SET_SIZE)%nat ->
                cgAt q' scan (g * SCAN_SET_SIZE) m = cgAt q scan (g * SCAN_SET_SIZE) m).
      { intros g m Hg Hne Hm. unfold cgAt. apply Hout'. intros m' Hm' He.
        apply scan_inj in He; unfold SCAN_SET_SIZE in *; nia. }
      assert (Hsame : forall m, (m < SCAN_SET_SIZE)%nat ->
                cgAt q scan (k * SCAN_SET_SIZE) m = cgAt q0 scan (k * SCAN_SET_SIZE) m).
      { intros m Hm. unfold cgAt. apply Hout. intros g m' Hg Hm' He.
        apply scan_inj in He; unfold SCAN_SET_SIZE in *; nia. }
      split; [exact Hinv'|]. split.
      + intros g Hg. destruct (decide (g = k)) as [->|Hne].
        * split; [exact Hhid|]. apply (cgStep_ext_left q0 q); assumption.
        * destruct (Hdone g ltac:(lia)) as [Hh Hs]. split.
          -- apply (signHidden_ext q q'); [|exact Hh].
             intros m Hm. apply Hother; [lia | exact Hne | exact Hm].
          -- apply (cgStep_ext q0 q q'); [|exact Hs].
             intros m Hm. apply Hother; [lia | exact Hne | exact Hm].
      + intros blk Hblk. rewrite Hout'.
        * apply Hout. intros g m Hg Hm. apply Hblk; [lia | exact Hm].
        * intros m Hm. apply Hblk; [lia | exact Hm]. }
  destruct (for_down K (sbhSubSet wrap search coef scan) (q0, numSig0, lastCG0))
    as [[q numSig] lc].
  destruct HJ as (Hinv & Hdone & Hout). cbn [fst snd] in *.
  exists q, numSig, lc. split; [reflexivity|]. split; [exact Hinv|]. split.
  - intros g Hg. apply Hdone. lia.
  - intros blk Hblk. apply Hout. intros g m Hg Hm. apply Hblk; [lia | exact Hm].
Qed.

Lemma classic_in_groups (K : nat) (blk : nat) :
  (exists g m, (g < K)%nat /\ (m < SCAN_SET_SIZE)%nat /\
     blk = scan !!! (m + g * SCAN_SET_SIZE)%nat) \/
  ~ (exists g m, (g < K)%nat /\ (m < SCAN_SET_SIZE)%nat /\
     blk = scan !!! (m + g * SCAN_SET_SIZE)%nat).
Proof.
  assert (Hdec : forall N : nat,
            (exists p, (p < N)%nat /\ blk = scan !!! p) \/
            ~ (exists p, (p < N)%nat /\ blk = scan !!! p)).
  { induction N as [|N IH].
    - right. intros (p & Hp & _). lia.
    - destruct IH as [(p & Hp & He)|Hno].
      + left. exists p. split; [lia | exact He].
      + destruct (decide (blk = scan !!! N)) as [He|Hne].
        * left. exists N. split; [lia | exact He].
        * right. intros (p & Hp & He).
          destruct (decide (p = N)) as [->|Hpn]; [contradiction|].
          apply Hno. exists p. split; [lia | exact He]. }
  destruct (Hdec (K * SCAN_SET_SIZE)%nat) as [(p & Hp & He)|Hno].
  - left. exists (p / SCAN_SET_SIZE)%nat, (p mod SCAN_SET_SIZE)%nat.
    unfold SCAN_SET_SIZE in *.
    pose proof (Nat.div_mod_eq p 16) as Hdm.
    pose proof (Nat.mod_upper_bound p 16 ltac:(lia)) as Hmod.
    split; [apply Nat.Div0.div_lt_upper_bound; lia|].
    split; [exact Hmod|].
    rewrite He. f_equal. lia.
  - right. intros (g & m & Hg & Hm & He). apply Hno.
    exists (m + g * SCAN_SET_SIZE)%nat. split; [unfold SCAN_SET_SIZE in *; nia | exact He].
Qed.

(** A pass changes the magnitude of a level by one at most. *)
Lemma sbhPass_magnitude (K : nat) (q0 q : list Z) :
  (K * SCAN_SET_SIZE <= numCoeff)%nat ->
  (forall g, (g < K)%nat -> cgStep q0 q scan (g * SCAN_SET_SIZE)) ->
  (forall blk,
     (forall g m, (g < K)%nat -> (m < SCAN_SET_SIZE)%nat ->
        blk <> scan !!! (m + g * SCAN_SET_SIZE)%nat) ->
     q !!! blk = q0 !!! blk) ->
  forall blk, Z.abs (q !!! blk) <= Z.abs (q0 !!! blk) + 1.
Proof.
  intros HK Hstep Hout blk.
  destruct (classic_in_groups K blk) as [(g & m & Hg & Hm & ->)|Hno].
  - fold (cgAt q scan (g * SCAN_SET_SIZE) m). fold (cgAt q0 scan (g * SCAN_SET_SIZE) m).
    destruct (Hstep g Hg) as [[_ He]|[_ (n & Hn & Habs & Hother & _)]].
    + rewrite He by exact Hm. lia.
    + destruct (decide (m = n)) as [->|Hne]; [lia|].
      rewrite Hother by assumption. lia.
  - rewrite Hout; [lia|]. intros g m Hg Hm He. apply Hno. exists g, m. auto.
Qed.

End SbhPass.

(** ** Valid scans and valid levels *)

(** A scan of a block of [numCoeff] coefficients: a list of [numCoeff]
    distinct block positions. *)
Definition scan_ok (scan : list nat) (numCoeff : nat) : bool :=
  (length scan =? numCoeff)%nat && forallb (fun p => (p <? numCoeff)%nat) scan
  && bool_decide (NoDup scan).

Lemma scan_ok_parts scan numCoeff :
  scan_ok scan numCoeff = true ->
  length scan = numCoeff /\ (forall p, In p scan -> (p < numCoeff)%nat) /\ NoDup scan.
Proof.
  unfold scan_ok. intros H.
  apply andb_prop in H as [H H3]. apply andb_prop in H as [H1 H2].
  apply Nat.eqb_eq in H1. rewrite forallb_forall in H2.
  apply bool_decide_eq_true in H3.
  split; [exact H1|]. split; [|exact H3].
  intros p Hp. apply Nat.ltb_lt. apply H2. exact Hp.
Qed.

Lemma scan_ok_lt scan numCoeff :
  scan_ok scan numCoeff = true ->
  forall i, (i < numCoeff)%nat -> (scan !!! i < numCoeff)%nat.
Proof.
  intros H i Hi. destruct (scan_ok_parts _ _ H) as (Hlen & Hlt & _).
  apply Hlt. apply list_elem_of_In, list_elem_of_lookup. exists i.
  apply list_lookup_lookup_total_lt. lia.
Qed.

Lemma scan_ok_inj scan numCoeff :
  scan_ok scan numCoeff = true ->
  forall i j, (i < numCoeff)%nat -> (j < numCoeff)%nat -> scan !!! i = scan !!! j -> i = j.
Proof.
  intros H i j Hi Hj He. destruct (scan_ok_parts _ _ H) as (Hlen & _ & Hnd).
  apply (NoDup_lookup scan i j (scan !!! i) Hnd).
  - apply list_lookup_lookup_total_lt. lia.
  - rewrite He. apply list_lookup_lookup_total_lt. lia.
Qed.

Lemma scan_ok_perm scan numCoeff :
  scan_ok scan numCoeff = true -> scan ≡ₚ seq 0 numCoeff.
Proof.
  intros H. destruct (scan_ok_parts _ _ H) as (Hlen & Hlt & Hnd).
  apply NoDup_Permutation; [exact Hnd | apply NoDup_seq |].
  assert (Hincl : incl (seq 0 numCoeff) scan).
  { apply NoDup_length_incl.
    - apply NoDup_ListNoDup. exact Hnd.
    - rewrite length_seq. lia.
    - intros p Hp. apply in_seq. specialize (Hlt p Hp). lia. }
  intros p. rewrite !list_elem_of_In. split.
  - intros Hp. apply in_seq. specialize (Hlt p Hp). lia.
  - apply Hincl.
Qed.

Lemma scan_ok_surj scan numCoeff :
  scan_ok scan numCoeff = true ->
  forall blk, (blk < numCoeff)%nat -> exists p, (p < numCoeff)%nat /\ scan !!! p = blk.
Proof.
  intros H blk Hblk. pose proof (scan_ok_perm _ _ H) as Hperm.
  destruct (scan_ok_parts _ _ H) as (Hlen & _ & _).
  assert (Hin : blk ∈ scan).
  { rewrite Hperm. apply list_elem_of_In, in_seq. lia. }
  apply list_elem_of_lookup in Hin as [p Hp].
  exists p. pose proof (lookup_lt_Some _ _ _ Hp) as Hlt.
  split; [lia|]. apply list_lookup_total_correct. exact Hp.
Qed.

(** The levels of a block are in range and have the signs of the DCT
    coefficients. *)
Definition levels_ok (coef q : list Z) : bool :=
  forallb (fun blk =>
             (-32768 <=? q !!! blk) && (q !!! blk <=? 32767)
             && (negb (0 <? q !!! blk) || (0 <=? coef !!! blk))
             && (negb (q !!! blk <? 0) || (coef !!! blk <? 0)))
          (seq 0 (length q)).

Lemma levels_ok_at coef q blk :
  levels_ok coef q = true -> (blk < length q)%nat -> levelOK coef blk (q !!! blk).
Proof.
  unfold levels_ok. rewrite forallb_forall. intros H Hblk.
  specialize (H blk ltac:(apply in_seq; lia)).
  apply andb_prop in H as [H H4]. apply andb_prop in H as [H H3].
  apply andb_prop in H as [H1 H2].
  unfold levelOK. split; [lia|]. split; intros Hs.
  - destruct (Z.ltb_spec 0 (q !!! blk)); [|lia]. simpl in H3. lia.
  - destruct (Z.ltb_spec (q !!! blk) 0); [|lia]. simpl in H4. lia.
Qed.

Lemma all_int_Forall (l : list Z) :
  all_int l = true <-> Forall (fun x => -2147483648 <= x < 2147483648) l.
Proof.
  unfold all_int. rewrite forallb_forall, Forall_forall. split.
  - intros H x Hx. specialize (H x Hx). lia.
  - intros H x Hx. specialize (H x Hx). lia.
Qed.

Lemma all_int_insert (l : list Z) (i : nat) (v : Z) :
  all_int l = true -> -2147483648 <= v < 2147483648 -> all_int (<[i := v]> l) = true.
Proof.
  rewrite !all_int_Forall. intros Hl Hv. apply Forall_insert; assumption.
Qed.

(** ** The quantisation kernels *)

Lemma saturate_sign_levelOK (coef : list Z) (i : nat) (level : Z) :
  0 <= level -> levelOK coef i (saturate_sign (coef !!! i) level).
Proof.
  intros Hl. unfold levelOK, saturate_sign.
  destruct (Z.ltb_spec (coef !!! i) 0); lia.
Qed.

Lemma quant_level_nonneg c qc qBits add : 0 <= qc -> 0 <= add -> 0 <= quant_level c qc qBits add.
Proof. intros Hq Ha. unfold quant_level. apply Z.shiftr_nonneg. nia. Qed.

(** The distance of the scaled coefficient to the quantisation grid, in
    1/256 of a step. *)
Lemma quant_delta_range (t qBits add : Z) :
  8 <= qBits -> 0 <= add <= 2 ^ qBits ->
  -2147483648 <= Z.shiftr (t - Z.shiftl (Z.shiftr (t + add) qBits) qBits) (qBits - 8)
  < 2147483648.
Proof.
  intros Hq Ha.
  rewrite Z.shiftr_div_pow2, Z.shiftl_mul_pow2, Z.shiftr_div_pow2 by lia.
  assert (Hp : 0 < 2 ^ qBits) by (apply Z.pow_pos_nonneg; lia).
  assert (Hp8 : 0 < 2 ^ (qBits - 8)) by (apply Z.pow_pos_nonneg; lia).
  assert (Hsplit : 2 ^ qBits = 256 * 2 ^ (qBits - 8)).
  { replace qBits with (8 + (qBits - 8)) at 1 by lia.
    rewrite Z.pow_add_r by lia. reflexivity. }
  pose proof (Z.div_mod (t + add) (2 ^ qBits) ltac:(lia)) as Hdm.
  pose proof (Z.mod_pos_bound (t + add) (2 ^ qBits) Hp) as Hmb.
  set (r := t - (t + add) / 2 ^ qBits * 2 ^ qBits).
  assert (Hr : - 2 ^ qBits <= r < 2 ^ qBits) by (subst r; lia).
  assert (H1 : -256 <= r / 2 ^ (qBits - 8)).
  { apply Z.div_le_lower_bound; [lia|]. lia. }
  assert (H2 : r / 2 ^ (qBits - 8) < 256).
  { apply Z.div_lt_upper_bound; [lia|]. lia. }
  lia.
Qed.

Lemma prim_quant_spec (coef quantCoeff deltaU qCoef : list Z) (qBits add : Z) (numCoeff : nat) :
  length qCoef = numCoeff ->
  8 <= qBits -> 0 <= add <= 2 ^ qBits ->
  (forall i, 0 <= quantCoeff !!! i) ->
  all_int deltaU = true ->
  exists dU q' n,
    prim_quant coef quantCoeff deltaU qCoef qBits add numCoeff = (dU, q', n) /\
    passInv coef numCoeff q' n /\ all_int dU = true /\
    (forall i, (i < numCoeff)%nat ->
       q' !!! i = saturate_sign (coef !!! i)
                    (quant_level (coef !!! i) (quantCoeff !!! i) qBits add)).
Proof.
  intros Hlen Hq Ha Hqc Hd. unfold prim_quant.
  pose (P := fun (i : nat) (st : list Z * list Z * Z) =>
    let '(dU, q', n) := st in
    length q' = numCoeff /\ all_int dU = true /\
    n = count_nonzero (take i q') /\
    (forall j, (j < i)%nat ->
       q' !!! j = saturate_sign (coef !!! j)
                    (quant_level (coef !!! j) (quantCoeff !!! j) qBits add))).
  assert (HP : P (0 + numCoeff)%nat
            (for_up numCoeff 0 (prim_quant_step coef quantCoeff qBits add) (deltaU, qCoef, 0))).
  { apply for_up_ind.
    - unfold P. split; [exact Hlen|]. split; [exact Hd|]. split; [reflexivity|]. intros; lia.
    - intros i [[dU q'] n] Hi (Hl & HdU & Hn & Hval). unfold P, prim_quant_step.
      rewrite length_insert. split; [exact Hl|]. split.
      + apply all_int_insert; [exact HdU|]. unfold quant_level.
        apply quant_delta_range; assumption.
      + split.
        * rewrite count_nonzero_take_S by (rewrite length_insert; lia).
          rewrite take_insert_ge by lia. rewrite <- Hn.
          rewrite list_lookup_total_insert_eq by lia. unfold nz.
          destruct (saturate_sign _ _ =? 0); lia.
        * intros j Hj. destruct (decide (j = i)) as [->|Hne].
          -- apply list_lookup_total_insert_eq. lia.
          -- rewrite list_lookup_total_insert_ne by lia. apply Hval. lia. }
  destruct (for_up numCoeff 0 (prim_quant_step coef quantCoeff qBits add) (deltaU, qCoef, 0))
    as [[dU q'] n].
  destruct HP as (Hl & HdU & Hn & Hval).
  exists dU, q', n. split; [reflexivity|]. split; [|split; [exact HdU|]].
  - split; [exact Hl|]. split.
    + intros blk Hblk. rewrite Hval by exact Hblk.
      apply saturate_sign_levelOK, quant_level_nonneg; [apply Hqc | lia].
    + rewrite Hn, take_ge by lia. reflexivity.
  - intros i Hi. apply Hval. exact Hi.
Qed.

Lemma prim_nquant_spec (coef quantCoeff scaled qCoef : list Z) (qBits add : Z) (numCoeff : nat) :
  length qCoef = numCoeff ->
  0 <= add ->
  (forall i, 0 <= quantCoeff !!! i) ->
  exists sc q' n,
    prim_nquant coef quantCoeff scaled qCoef qBits add numCoeff = (sc, q', n) /\
    passInv coef numCoeff q' n /\
    (forall i, (i < numCoeff)%nat ->
       q' !!! i = saturate_sign (coef !!! i)
                    (quant_level (coef !!! i) (quantCoeff !!! i) qBits add)) /\
    (forall i, (i < numCoeff)%nat -> (i < length scaled)%nat ->
       sc !!! i = Z.abs (coef !!! i) * quantCoeff !!! i).
Proof.
  intros Hlen Ha Hqc. unfold prim_nquant.
  pose (P := fun (i : nat) (st : list Z * list Z * Z) =>
    let '(sc, q', n) := st in
    length q' = numCoeff /\ length sc = length scaled /\
    n = count_nonzero (take i q') /\
    (forall j, (j < i)%nat ->
       q' !!! j = saturate_sign (coef !!! j)
                    (quant_level (coef !!! j) (quantCoeff !!! j) qBits add)) /\
    (forall j, (j < i)%nat -> (j < length scaled)%nat ->
       sc !!! j = Z.abs (coef !!! j) * quantCoeff !!! j)).
  assert (HP : P (0 + numCoeff)%nat
            (for_up numCoeff 0 (prim_nquant_step coef quantCoeff qBits add) (scaled, qCoef, 0))).
  { apply for_up_ind.
    - unfold P. split; [exact Hlen|]. split; [reflexivity|]. split; [reflexivity|].
      split; intros; lia.
    - intros i [[sc q'] n] Hi (Hl & Hls & Hn & Hval & Hsc). unfold P, prim_nquant_step.
      rewrite !length_insert. split; [exact Hl|]. split; [exact Hls|]. split; [|split].
      + rewrite count_nonzero_take_S by (rewrite length_insert; lia).
        rewrite take_insert_ge by lia. rewrite <- Hn.
        rewrite list_lookup_total_insert_eq by lia. unfold nz.
        destruct (saturate_sign _ _ =? 0); lia.
      + intros j Hj. destruct (decide (j = i)) as [->|Hne].
        * apply list_lookup_total_insert_eq. lia.
        * rewrite list_lookup_total_insert_ne by lia. apply Hval. lia.
      + intros j Hj Hjl. destruct (decide (j = i)) as [->|Hne].
        * apply list_lookup_total_insert_eq. lia.
        * rewrite list_lookup_total_insert_ne by lia. apply Hsc; lia. }
  destruct (for_up numCoeff 0 (prim_nquant_step coef quantCoeff qBits add) (scaled, qCoef, 0))
    as [[sc q'] n].
  destruct HP as (Hl & Hls & Hn & Hval & Hsc).
  exists sc, q', n. split; [reflexivity|]. split; [|split].
  - split; [exact Hl|]. split.
    + intros blk Hblk. rewrite Hval by exact Hblk.
      apply saturate_sign_levelOK, quant_level_nonneg; [apply Hqc | lia].
    + rewrite Hn, take_ge by lia. reflexivity.
  - intros i Hi. apply Hval. exact Hi.
  - intros i Hi Hil. apply Hsc; assumption.
Qed.

(** ** The plain sign-bit hiding pass *)

Lemma signBitHidingHDQ_spec (qCoef coef deltaUq : list Z) (numSig : Z)
    (cp : TUEntropyCodingParameters) (numCoeff : nat) :
  let K := (2 ^ (log2TrSizeCG cp * 2))%nat in
  (K * SCAN_SET_SIZE <= numCoeff)%nat ->
  Z.of_nat numCoeff < 4294967295 ->
  scan_ok (scan cp) numCoeff = true ->
  all_int deltaUq = true ->
  passInv coef numCoeff qCoef numSig ->
  exists q' numSig',
    signBitHidingHDQ qCoef coef deltaUq numSig cp = (q', numSig') /\
    passInv coef numCoeff q' numSig' /\
    (forall g, (g < K)%nat ->
       signHidden q' (scan cp) (g * SCAN_SET_SIZE) /\
       cgStep qCoef q' (scan cp) (g * SCAN_SET_SIZE)) /\
    (forall blk, Z.abs (q' !!! blk) <= Z.abs (qCoef !!! blk) + 1).
Proof.
  intros K HK Hsmall Hscan Hd Hinv. unfold signBitHidingHDQ, hdqSubSet. fold K.
  set (search := fun (qCoef : list Z) (subPos : nat) (lastCG : Z)
                     (firstNZPosInCG lastNZPosInCG : nat) (signbit : Z) =>
                   hdqSearch qCoef coef deltaUq (scan cp) subPos lastCG firstNZPosInCG
                     lastNZPosInCG signbit).
  assert (Hsearch : forall q subPos lastCG firstNZ lastNZ signbit,
            SBH_THRESHOLD <= Z.of_nat lastNZ - Z.of_nat firstNZ ->
            (lastNZ < SCAN_SET_SIZE)%nat ->
            cgAt q (scan cp) subPos lastNZ <> 0 ->
            selected q coef (scan cp) subPos firstNZ signbit
              (search q subPos lastCG firstNZ lastNZ signbit)).
  { intros q subPos lastCG firstNZ lastNZ signbit Hth Hl Hnz. unfold search.
    apply hdqSearch_selected; auto. intros i. apply all_int_lookup. exact Hd. }
  destruct (sbhPass_spec u32 search coef (scan cp) numCoeff u32_keepsParity Hsearch
              (scan_ok_lt _ _ Hscan) (scan_ok_inj _ _ Hscan) Hsmall K qCoef numSig 1 HK Hinv)
    as (q' & numSig' & lc & Heq & Hinv' & Hgroups & Hout).
  rewrite Heq. exists q', numSig'. split; [reflexivity|]. split; [exact Hinv'|].
  split; [exact Hgroups|].
  apply (sbhPass_magnitude (scan cp) numCoeff K qCoef q'); auto.
  intros g Hg. apply Hgroups. exact Hg.
Qed.

(** C5.  After the plain sign-bit hiding pass, in every coefficient group
    whose last nonzero place is at least [SBH_THRESHOLD] after its first
    one, the sign bit of the first nonzero coefficient (0 for positive,
    1 for negative) is the parity of the sum of the magnitudes of the group.
    A group whose sign was hidden already is left as it was; in any other
    group exactly one place changes, by one, and the first nonzero
    coefficient does not go from magnitude 1 to zero.  The input is a block
    as the quantiser leaves it: levels in the 16-bit range with the signs of
    the DCT coefficients, [deltaU] of [int] values, a scan of distinct
    positions. *)
Theorem signBitHidingHDQ_hides_sign (qCoef coef deltaUq : list Z) (numSig : Z)
    (cp : TUEntropyCodingParameters) (subSet : nat) :
  let numCoeff := (2 ^ (log2TrSizeCG cp * 2) * SCAN_SET_SIZE)%nat in
  let out := fst (signBitHidingHDQ qCoef coef deltaUq numSig cp) in
  (log2TrSizeCG cp <= 3)%nat ->
  scan_ok (scan cp) numCoeff = true ->
  length qCoef = numCoeff ->
  levels_ok coef qCoef = true ->
  all_int deltaUq = true ->
  numSig = count_nonzero qCoef ->
  (subSet < 2 ^ (log2TrSizeCG cp * 2))%nat ->
  signHidden out (scan cp) (subSet * SCAN_SET_SIZE) /\
  cgStep qCoef out (scan cp) (subSet * SCAN_SET_SIZE).
Proof.
  intros numCoeff out Hcg Hscan Hlen Hlev Hd Hn Hsub.
  assert (Hsmall : Z.of_nat numCoeff < 4294967295).
  { subst numCoeff. unfold SCAN_SET_SIZE.
    assert (H : (2 ^ (log2TrSizeCG cp * 2) <= 2 ^ 6)%nat)
      by (apply Nat.pow_le_mono_r; lia).
    change (2 ^ 6)%nat with 64%nat in H. lia. }
  assert (Hinv : passInv coef numCoeff qCoef numSig).
  { split; [exact Hlen|]. split; [|exact Hn].
    intros blk Hblk. apply levels_ok_at; [exact Hlev | lia]. }
  destruct (signBitHidingHDQ_spec qCoef coef deltaUq numSig cp numCoeff
              ltac:(subst numCoeff; lia) Hsmall Hscan Hd Hinv)
    as (q' & numSig' & Heq & _ & Hgroups & _).
  subst out. rewrite Heq. cbn [fst]. apply Hgroups. exact Hsub.
Qed.

Definition cp_example : TUEntropyCodingParameters :=
  {| scan := scan4x4; scanCG := [0%nat]; scanType := 0; log2TrSizeCG := 0%nat;
     firstSignificanceMapContext := 0 |}.

Lemma signBitHidingHDQ_hides_sign_witness :
  let coef := [100; -40; 33; 0; 70; 0; 0; 0; -31; 0; 0; 0; 0; 0; 0; 32] in
  let qCoef := [3; -1; 1; 0; 2; 0; 0; 0; -1; 0; 0; 0; 0; 0; 0; 1] in
  let out := fst (signBitHidingHDQ qCoef coef (replicate 16 7) 6 cp_example) in
  signHidden out scan4x4 0 /\ cgStep qCoef out scan4x4 0.
Proof.
  intros coef qCoef out.
  apply (signBitHidingHDQ_hides_sign qCoef coef (replicate 16 7) 6 cp_example 0).
  - simpl. lia.
  - vm_compute. reflexivity.
  - reflexivity.
  - vm_compute. reflexivity.
  - reflexivity.
  - reflexivity.
  - simpl. lia.
Defined.

(** ** RDOQ: the level search *)

Lemma rdoLevelLoop_level (body : Z -> LevelSearch -> LevelSearch) :
  (forall l s, ls_level (body l s) = l \/ ls_level (body l s) = ls_level s) ->
  forall (cnt : nat) (lvl : Z) (s : LevelSearch),
    ls_level (rdoLevelLoop cnt body lvl s) = ls_level s \/
    lvl - Z.of_nat cnt < ls_level (rdoLevelLoop cnt body lvl s) <= lvl.
Proof.
  intros Hbody. induction cnt as [|cnt IH]; intros lvl s; simpl.
  - left. reflexivity.
  - destruct (IH (lvl - 1) (body lvl s)) as [He|Hr].
    + rewrite He. destruct (Hbody lvl s) as [Hl|Hl]; [right; lia | left; exact Hl].
    + right. lia.
Qed.

Lemma rdoLevelBody_level X265_DEPTH q log2TrSize ttype blkPos minAbsLevel baseLevel g1 la
    goRice c1c2Idx scaleFactor curCostSig err1 lvl s :
  ls_level (rdoLevelBody X265_DEPTH q log2TrSize ttype blkPos minAbsLevel baseLevel g1 la
              goRice c1c2Idx scaleFactor curCostSig err1 lvl s) = lvl \/
  ls_level (rdoLevelBody X265_DEPTH q log2TrSize ttype blkPos minAbsLevel baseLevel g1 la
              goRice c1c2Idx scaleFactor curCostSig err1 lvl s) = ls_level s.
Proof.
  unfold rdoLevelBody. cbn [ls_level].
  match goal with |- context [if ?b then lvl else _] => destruct b end; auto.
Qed.

(** The level the search keeps is zero or one of the candidates, which are
    at most the plain-quant magnitude. *)
Lemma RDO_CODED_LEVEL_level X265_DEPTH q log2TrSize ttype blkPos levelDouble maxAbsLevel
    baseLevel g1 la goRice c1c2Idx scaleFactor curCostSig cc cs :
  0 <= maxAbsLevel ->
  0 <= ls_level (RDO_CODED_LEVEL X265_DEPTH q log2TrSize ttype blkPos levelDouble maxAbsLevel
                   baseLevel g1 la goRice c1c2Idx scaleFactor curCostSig cc cs)
    <= maxAbsLevel.
Proof.
  intros Hm. unfold RDO_CODED_LEVEL.
  set (minAbs := Z.max (u32 (maxAbsLevel - 1)) 1).
  match goal with |- context [rdoLevelLoop ?c ?b ?l ?s] =>
    destruct (rdoLevelLoop_level b
                ltac:(intros; apply rdoLevelBody_level) c l s) as [He|Hr]
  end.
  - rewrite He. cbn [ls_level]. lia.
  - assert (1 <= minAbs) by (subst minAbs; lia). lia.
Qed.

Lemma rdoChooseLevel_level X265_DEPTH q cu log2TrSize ttype scaledCoeff patternSigCtx scanPos
    c1c2Idx baseLevel g1 la s :
  let blkPos := scan (getTUEntropyCodingParameters cu log2TrSize (isLuma ttype)) !!! scanPos in
  0 <= ls_level (rdoChooseLevel X265_DEPTH q cu log2TrSize ttype scaledCoeff patternSigCtx
                   scanPos c1c2Idx baseLevel g1 la s)
    <= u32 (Z.abs (dstCoeff s !!! blkPos)).
Proof.
  intros blkPos. unfold rdoChooseLevel. fold blkPos.
  pose proof (u32_range (Z.abs (dstCoeff s !!! blkPos))) as Hu.
  destruct (Z.of_nat scanPos =? lastScanPos s).
  - apply RDO_CODED_LEVEL_level. lia.
  - match goal with |- context [if ?b then (_, _) else _] => destruct b end;
      destruct (u32 (Z.abs (dstCoeff s !!! blkPos)) =? 0); cbn [negb ls_level];
      try (apply RDO_CODED_LEVEL_level; lia); lia.
Qed.

(** ** RDOQ: the reverse scan *)

Lemma shiftr_int (x n : Z) :
  0 <= n -> -2147483648 <= x < 2147483648 -> -2147483648 <= Z.shiftr x n < 2147483648.
Proof.
  intros Hn Hx. rewrite Z.shiftr_div_pow2 by lia.
  assert (Hp : 0 < 2 ^ n) by (apply Z.pow_pos_nonneg; lia).
  split.
  - apply Z.div_le_lower_bound; [lia|]. nia.
  - apply Z.div_lt_upper_bound; [lia|]. nia.
Qed.

Section RdoScanProofs.

Variables (X265_DEPTH : Z) (g_goRiceRange : list Z).
Variables (q : Quant) (cu : TComDataCU) (log2TrSize : Z) (ttype : TextType).
Variables (scaledCoeff dst0 : list Z) (numCoeff : nat).

Local Abbreviation cp := (getTUEntropyCodingParameters cu log2TrSize (isLuma ttype)).
Local Abbreviation qbits :=
  (QUANT_SHIFT + per (m_qpParam q ttype) + (MAX_TR_DYNAMIC_RANGE - X265_DEPTH - log2TrSize)).

Hypothesis Hscan : scan_ok (scan cp) numCoeff = true.
Hypothesis Hqbits : 8 <= qbits.
Hypothesis Hdst0 : forall blk, (blk < numCoeff)%nat -> -32768 <= dst0 !!! blk <= 32767.

(** The invariant of the reverse scan when the positions from [pos] on have
    been visited: no magnitude has grown; a visited position holds a
    nonnegative level, zero after the last position; the arrays the RDO
    sign-bit hiding reads hold [int] values. *)
Definition scanInv (pos : nat) (s : RdoState) : Prop :=
  length (dstCoeff s) = numCoeff /\
  (forall blk, (blk < numCoeff)%nat -> Z.abs (dstCoeff s !!! blk) <= Z.abs (dst0 !!! blk)) /\
  (forall p, (pos <= p < numCoeff)%nat ->
     0 <= dstCoeff s !!! (scan cp !!! p) /\
     (lastScanPos s < Z.of_nat p -> dstCoeff s !!! (scan cp !!! p) = 0)) /\
  -1 <= lastScanPos s < Z.of_nat numCoeff /\
  (0 <= lastScanPos s -> Z.of_nat pos <= lastScanPos s) /\
  cgLastScanPos s = (if lastScanPos s <? 0 then -1 else lastScanPos s / 16) /\
  all_int (deltaU s) = true /\ all_int (rateIncDown s) = true.

Lemma rdoCoeffInit_fields (cgScanPos scanPos : nat) (s : RdoState) :
  let s1 := rdoCoeffInit q cu log2TrSize ttype scaledCoeff cgScanPos scanPos s in
  let newLast := (0 <? u32 (Z.abs (dstCoeff s !!! (scan cp !!! scanPos))))
                 && (lastScanPos s <? 0) in
  dstCoeff s1 = dstCoeff s /\ deltaU s1 = deltaU s /\ rateIncDown s1 = rateIncDown s /\
  lastScanPos s1 = (if newLast then Z.of_nat scanPos else lastScanPos s) /\
  cgLastScanPos s1 = (if newLast then Z.of_nat cgScanPos else cgLastScanPos s).
Proof. repeat split; reflexivity. Qed.

Lemma rdoCoeffCode_fields (patternSigCtx : Z) (scanPos : nat) (s1 : RdoState) :
  let s2 := rdoCoeffCode X265_DEPTH g_goRiceRange q cu log2TrSize ttype scaledCoeff
              patternSigCtx scanPos s1 in
  let blkPos := scan cp !!! scanPos in
  exists level dv rv,
    lastScanPos s2 = lastScanPos s1 /\ cgLastScanPos s2 = cgLastScanPos s1 /\
    (0 <= lastScanPos s1 ->
       dstCoeff s2 = <[blkPos := s32 level]> (dstCoeff s1) /\
       deltaU s2 = <[blkPos := dv]> (deltaU s1) /\
       rateIncDown s2 = <[blkPos := rv]> (rateIncDown s1)) /\
    (lastScanPos s1 < 0 ->
       dstCoeff s2 = dstCoeff s1 /\ deltaU s2 = deltaU s1 /\
       rateIncDown s2 = rateIncDown s1) /\
    0 <= level <= u32 (Z.abs (dstCoeff s1 !!! blkPos)) /\
    -2147483648 <= dv < 2147483648 /\ -2147483648 <= rv < 2147483648.
Proof.
  intros s2 blkPos. subst s2. unfold rdoCoeffCode.
  destruct (Z.leb_spec 0 (lastScanPos s1)) as [Hlast|Hlast].
  - cbn [dstCoeff deltaU rateIncDown lastScanPos cgLastScanPos].
    do 3 eexists.
    split; [reflexivity|]. split; [reflexivity|].
    split; [intros _; split; [reflexivity | split; reflexivity]|].
    split; [intros Hc; lia|].
    split; [apply rdoChooseLevel_level|].
    split.
    + apply shiftr_int; [lia | apply s32_range].
    + match goal with |- context [if ?b then _ else _] => destruct b end;
        [apply s32_range | lia].
  - cbn [dstCoeff deltaU rateIncDown lastScanPos cgLastScanPos].
    exists 0, 0, 0.
    split; [reflexivity|]. split; [reflexivity|].
    split; [intros Hc; lia|].
    split; [intros _; split; [reflexivity | split; reflexivity]|].
    pose proof (u32_range (Z.abs (dstCoeff s1 !!! blkPos))). lia.
Qed.

Lemma rdoCoeffStats_fields (cgBlkPosMask : Z) (scanPosinCG scanPos : nat) (s2 : RdoState) :
  let s3 := rdoCoeffStats cu log2TrSize ttype cgBlkPosMask scanPosinCG scanPos s2 in
  dstCoeff s3 = dstCoeff s2 /\ deltaU s3 = deltaU s2 /\ rateIncDown s3 = rateIncDown s2 /\
  lastScanPos s3 = lastScanPos s2 /\ cgLastScanPos s3 = cgLastScanPos s2.
Proof. repeat split; reflexivity. Qed.

Lemma div16_unique (cg j : nat) : (j < 16)%nat -> Z.of_nat (cg * 16 + j) / 16 = Z.of_nat cg.
Proof.
  intros Hj. symmetry.
  apply (Z.div_unique (Z.of_nat (cg * 16 + j)) 16 (Z.of_nat cg) (Z.of_nat j)); lia.
Qed.

Lemma rdoCoeff_inv (cgScanPos : nat) (patternSigCtx cgBlkPosMask : Z) (scanPosinCG : nat)
    (s : RdoState) :
  let pos := (cgScanPos * SCAN_SET_SIZE + scanPosinCG)%nat in
  (scanPosinCG < SCAN_SET_SIZE)%nat -> (pos < numCoeff)%nat ->
  scanInv (S pos) s ->
  scanInv pos (rdoCoeff X265_DEPTH g_goRiceRange q cu log2TrSize ttype scaledCoeff
                 cgScanPos patternSigCtx cgBlkPosMask scanPosinCG s).
Proof.
  intros pos Hj Hpos (Hlen & Hmag & Hvis & Hlast & Hle & Hcg & HdU & HrD).
  unfold rdoCoeff. fold pos.
  set (s1 := rdoCoeffInit q cu log2TrSize ttype scaledCoeff cgScanPos pos s).
  set (s2 := rdoCoeffCode X265_DEPTH g_goRiceRange q cu log2TrSize ttype scaledCoeff
               patternSigCtx pos s1).
  destruct (rdoCoeffInit_fields cgScanPos pos s) as (Hd1 & Hu1 & Hr1 & Hl1 & Hc1).
  fold s1 in Hd1, Hu1, Hr1, Hl1, Hc1.
  destruct (rdoCoeffCode_fields patternSigCtx pos s1)
    as (level & dv & rv & Hl2 & Hc2 & Hcoded & Hskip & Hlev & Hdv & Hrv).
  fold s2 in Hl2, Hc2, Hcoded, Hskip.
  destruct (rdoCoeffStats_fields cgBlkPosMask scanPosinCG pos s2)
    as (Hd3 & Hu3 & Hr3 & Hl3 & Hc3).
  set (blk := scan cp !!! pos) in *.
  assert (Hblk : (blk < numCoeff)%nat) by (apply (scan_ok_lt _ _ Hscan); exact Hpos).
  pose proof (Hmag blk Hblk) as Hmb. pose proof (Hdst0 blk Hblk) as Hd0.
  rewrite Hd1 in Hlev.
  assert (Hmax : u32 (Z.abs (dstCoeff s !!! blk)) = Z.abs (dstCoeff s !!! blk))
    by (apply u32_id; lia).
  rewrite Hmax in Hlev, Hl1, Hc1.
  unfold scanInv. rewrite Hd3, Hu3, Hr3, Hl3, Hc3, Hl2, Hc2.
  destruct (Z.ltb_spec (lastScanPos s) 0) as [Hno|Hyes].
  - (* the last position has not been found before this coefficient *)
    assert (Hlm1 : lastScanPos s = -1) by lia.
    destruct (Z.ltb_spec 0 (Z.abs (dstCoeff s !!! blk))) as [Hnz|Hz]; cbn [andb] in Hl1, Hc1.
    + (* this coefficient is the last one *)
      destruct (Hcoded ltac:(lia)) as (Hd2 & Hu2 & Hr2).
      rewrite Hd2, Hu2, Hr2, Hd1, Hu1, Hr1, Hl1, Hc1.
      rewrite length_insert.
      assert (Hs32 : s32 level = level) by (apply s32_id; lia).
      rewrite Hs32.
      split; [exact Hlen|]. split; [|split; [|split; [|split; [|split; [|split]]]]].
      * intros b Hb. destruct (decide (b = blk)) as [->|Hne].
        -- rewrite list_lookup_total_insert_eq by lia. lia.
        -- rewrite list_lookup_total_insert_ne by congruence. apply Hmag. exact Hb.
      * intros p Hp. destruct (decide (p = pos)) as [->|Hne].
        -- fold blk. rewrite list_lookup_total_insert_eq by lia. split; [lia|intros; lia].
        -- rewrite list_lookup_total_insert_ne.
           ++ destruct (Hvis p ltac:(lia)) as [Hnn Hzz]. split; [exact Hnn|].
              intros _. apply Hzz. lia.
           ++ intros He. apply Hne. symmetry.
              apply (scan_ok_inj _ _ Hscan); [lia | lia | exact He].
      * lia.
      * intros _. lia.
      * destruct (Z.ltb_spec (Z.of_nat pos) 0); [lia|].
        unfold pos, SCAN_SET_SIZE in *. rewrite div16_unique by lia. reflexivity.
      * apply all_int_insert; assumption.
      * apply all_int_insert; assumption.
    + (* a zero before the last position: nothing is coded *)
      destruct (Hskip ltac:(lia)) as (Hd2 & Hu2 & Hr2).
      rewrite Hd2, Hu2, Hr2, Hd1, Hu1, Hr1, Hl1, Hc1.
      split; [exact Hlen|]. split; [exact Hmag|]. split; [|split; [|split; [|split; [|split]]]].
      * intros p Hp. destruct (decide (p = pos)) as [->|Hne].
        -- fold blk. split; [lia | intros; lia].
        -- apply Hvis. lia.
      * exact Hlast.
      * intros Hc. lia.
      * destruct (Z.ltb_spec (lastScanPos s) 0); [exact Hcg | lia].
      * exact HdU.
      * exact HrD.
  - (* the last position is known: the coefficient is coded *)
    replace ((0 <? Z.abs (dstCoeff s !!! blk)) && false) with false in Hl1, Hc1
      by (destruct (0 <? Z.abs (dstCoeff s !!! blk)); reflexivity).
    destruct (Hcoded ltac:(lia)) as (Hd2 & Hu2 & Hr2).
    rewrite Hd2, Hu2, Hr2, Hd1, Hu1, Hr1, Hl1, Hc1.
    rewrite length_insert.
    assert (Hs32 : s32 level = level) by (apply s32_id; lia).
    rewrite Hs32.
    specialize (Hle Hyes).
    split; [exact Hlen|]. split; [|split; [|split; [|split; [|split; [|split]]]]].
    + intros b Hb. destruct (decide (b = blk)) as [->|Hne].
      * rewrite list_lookup_total_insert_eq by lia. lia.
      * rewrite list_lookup_total_insert_ne by congruence. apply Hmag. exact Hb.
    + intros p Hp. destruct (decide (p = pos)) as [->|Hne].
      * fold blk. rewrite list_lookup_total_insert_eq by lia. split; [lia|intros; lia].
      * rewrite list_lookup_total_insert_ne.
        -- apply Hvis. lia.
        -- intros He. apply Hne. symmetry.
           apply (scan_ok_inj _ _ Hscan); [lia | lia | exact He].
    + exact Hlast.
    + intros _. lia.
    + destruct (Z.ltb_spec (lastScanPos s) 0); [lia | exact Hcg].
    + apply all_int_insert; assumption.
    + apply all_int_insert; assumption.
Qed.

Lemma scanInv_ext (pos : nat) (s s' : RdoState) :
  dstCoeff s' = dstCoeff s -> deltaU s' = deltaU s -> rateIncDown s' = rateIncDown s ->
  lastScanPos s' = lastScanPos s -> cgLastScanPos s' = cgLastScanPos s ->
  scanInv pos s -> scanInv pos s'.
Proof.
  intros Hd Hu Hr Hl Hc. unfold scanInv. rewrite Hd, Hu, Hr, Hl, Hc. auto.
Qed.

Lemma rdoZero_spec (cgScanPos : nat) (dst : list Z) (cc cs cc0 : list float) :
  let r := for_down SCAN_SET_SIZE (rdoZeroCoeff cu log2TrSize ttype cgScanPos)
             (dst, cc, cs, cc0) in
  length (fst (fst (fst r))) = length dst /\
  forall blk, fst (fst (fst r)) !!! blk = 0 \/ fst (fst (fst r)) !!! blk = dst !!! blk.
Proof.
  intros r. subst r.
  apply (for_down_ind
           (fun (_ : nat) (st : list Z * list float * list float * list float) =>
              length (fst (fst (fst st))) = length dst /\
              forall blk, fst (fst (fst st)) !!! blk = 0 \/
                          fst (fst (fst st)) !!! blk = dst !!! blk)).
  - cbn [fst]. split; [reflexivity | intros; right; reflexivity].
  - intros i [[[d a] b] c] Hi [Hl Hv]. cbn [fst] in *. unfold rdoZeroCoeff.
    match goal with |- context [if ?b then _ else _] => destruct b end; cbn [fst];
      (rewrite length_insert; split; [exact Hl|]; intros blk;
       match goal with |- context [<[?p := 0]> d] =>
         destruct (decide (blk = p)) as [->|Hne];
           [ destruct (lt_dec p (length d));
               [ left; apply list_lookup_total_insert_eq; assumption
               | rewrite list_insert_ge by lia; apply Hv ]
           | rewrite list_lookup_total_insert_ne by congruence; apply Hv ]
       end).
Qed.

Lemma rdoCGTail_fields (cgScanPos : nat) (cgPosX cgPosY cgBlkPosMask : Z) (s : RdoState) :
  let s' := rdoCGTail q cu log2TrSize ttype cgScanPos cgPosX cgPosY cgBlkPosMask s in
  lastScanPos s' = lastScanPos s /\ cgLastScanPos s' = cgLastScanPos s /\
  deltaU s' = deltaU s /\ rateIncDown s' = rateIncDown s /\
  length (dstCoeff s') = length (dstCoeff s) /\
  forall blk, dstCoeff s' !!! blk = 0 \/ dstCoeff s' !!! blk = dstCoeff s !!! blk.
Proof.
  intros s'. subst s'. unfold rdoCGTail.
  pose proof (rdoZero_spec cgScanPos (dstCoeff s) (costCoeff s) (costSig s) (costCoeff0 s))
    as Hzero. cbv zeta in Hzero.
  destruct (for_down SCAN_SET_SIZE (rdoZeroCoeff cu log2TrSize ttype cgScanPos)
              (dstCoeff s, costCoeff s, costSig s, costCoeff0 s)) as [[[d a] b] c].
  cbn [fst] in Hzero. destruct Hzero as [Hzl Hzv].
  destruct (0 <=? cgLastScanPos s);
    [|repeat split; try reflexivity; intros; right; reflexivity].
  destruct (negb (cgScanPos =? 0)%nat);
    [|cbn; repeat split; try reflexivity; intros; right; reflexivity].
  destruct (Z.land (sigCoeffGroupFlag64 s) cgBlkPosMask =? 0);
    [cbn; repeat split; try reflexivity; intros; right; reflexivity|].
  destruct (Z.of_nat cgScanPos <? cgLastScanPos s);
    [|cbn; repeat split; try reflexivity; intros; right; reflexivity].
  match goal with |- context [if (?x <? ?y)%float then _ else _] =>
    destruct (x <? y)%float end.
  - cbn. repeat split; try reflexivity; assumption.
  - cbn. repeat split; try reflexivity. intros; right; reflexivity.
Qed.

Lemma rdoCGTail_inv (pos cgScanPos : nat) (cgPosX cgPosY cgBlkPosMask : Z) (s : RdoState) :
  scanInv pos s ->
  scanInv pos (rdoCGTail q cu log2TrSize ttype cgScanPos cgPosX cgPosY cgBlkPosMask s).
Proof.
  intros (Hlen & Hmag & Hvis & Hlast & Hle & Hcg & HdU & HrD).
  destruct (rdoCGTail_fields cgScanPos cgPosX cgPosY cgBlkPosMask s)
    as (Hl & Hc & Hu & Hr & Hdl & Hdv).
  unfold scanInv. rewrite Hl, Hc, Hu, Hr, Hdl.
  split; [exact Hlen|]. split; [|split; [|auto]].
  - intros blk Hblk. destruct (Hdv blk) as [H|H]; rewrite H; [lia | apply Hmag; exact Hblk].
  - intros p Hp. destruct (Hvis p Hp) as [Hnn Hz].
    destruct (Hdv (scan cp !!! p)) as [H|H]; rewrite H; [split; [lia | reflexivity]|].
    split; assumption.
Qed.

Lemma rdoCG_inv (cgScanPos : nat) (s : RdoState) :
  (S cgScanPos * SCAN_SET_SIZE <= numCoeff)%nat ->
  scanInv (S cgScanPos * SCAN_SET_SIZE) s ->
  scanInv (cgScanPos * SCAN_SET_SIZE)
    (rdoCG X265_DEPTH g_goRiceRange q cu log2TrSize ttype scaledCoeff cgScanPos s).
Proof.
  intros Hcg Hinv. unfold rdoCG. apply rdoCGTail_inv.
  match goal with |- scanInv _ (for_down _ ?body ?s0) =>
    apply (for_down_ind (fun j st => scanInv (j + cgScanPos * SCAN_SET_SIZE) st) body
             SCAN_SET_SIZE s0)
  end.
  - replace (SCAN_SET_SIZE + cgScanPos * SCAN_SET_SIZE)%nat
      with (S cgScanPos * SCAN_SET_SIZE)%nat by lia.
    eapply scanInv_ext; [| | | | |exact Hinv]; reflexivity.
  - intros j st Hj Hst.
    replace (j + cgScanPos * SCAN_SET_SIZE)%nat with (cgScanPos * SCAN_SET_SIZE + j)%nat
      by lia.
    apply rdoCoeff_inv; [exact Hj | unfold SCAN_SET_SIZE in *; lia |].
    replace (S (cgScanPos * SCAN_SET_SIZE + j)) with (S j + cgScanPos * SCAN_SET_SIZE)%nat
      by lia.
    exact Hst.
Qed.

Lemma rdoInit_inv :
  length dst0 = numCoeff -> scanInv numCoeff (rdoInit dst0).
Proof.
  intros Hlen. unfold scanInv, rdoInit.
  cbn [dstCoeff lastScanPos cgLastScanPos deltaU rateIncDown].
  split; [exact Hlen|]. split; [intros; lia|]. split; [intros; lia|].
  split; [lia|]. split; [intros; lia|]. split; [reflexivity|].
  split; vm_compute; reflexivity.
Qed.

Lemma rdoScan_inv (K : nat) :
  length dst0 = numCoeff ->
  (K * SCAN_SET_SIZE = numCoeff)%nat ->
  scanInv 0 (for_down K (rdoCG X265_DEPTH g_goRiceRange q cu log2TrSize ttype scaledCoeff)
               (rdoInit dst0)).
Proof.
  intros Hlen HK.
  apply (for_down_ind (fun k st => scanInv (k * SCAN_SET_SIZE) st)).
  - rewrite HK. apply rdoInit_inv. exact Hlen.
  - intros k st Hk Hst. apply rdoCG_inv; [unfold SCAN_SET_SIZE in *; lia | exact Hst].
Qed.

End RdoScanProofs.

(** ** RDOQ: the last position, the signs and the count *)

(** The values of a block along a list of positions. *)
Definition vals (d : list Z) (l : list nat) : list Z := (fun p => d !!! p) <$> l.

Lemma vals_length d l : length (vals d l) = length l.
Proof. unfold vals. apply length_fmap. Qed.

Lemma vals_lookup d l i : (i < length l)%nat -> vals d l !!! i = d !!! (l !!! i).
Proof.
  intros Hi. unfold vals.
  rewrite (list_lookup_total_fmap (fun p => d !!! p) l i) by exact Hi. reflexivity.
Qed.

Lemma vals_seq (d : list Z) : vals d (seq 0 (length d)) = d.
Proof.
  apply list_eq_total.
  - rewrite vals_length, length_seq. reflexivity.
  - intros i Hi. rewrite vals_length, length_seq in Hi.
    rewrite vals_lookup by (rewrite length_seq; exact Hi).
    rewrite lookup_total_seq_lt by exact Hi. reflexivity.
Qed.

Lemma count_nonzero_scan (d : list Z) (scan : list nat) :
  scan_ok scan (length d) = true -> count_nonzero d = count_nonzero (vals d scan).
Proof.
  intros H. rewrite <- (vals_seq d) at 1. apply count_nonzero_perm.
  unfold vals. rewrite (scan_ok_perm _ _ H). reflexivity.
Qed.

Lemma count_nonzero_pointwise (l1 l2 : list Z) :
  length l1 = length l2 ->
  (forall i, (i < length l1)%nat -> nz (l1 !!! i) = nz (l2 !!! i)) ->
  count_nonzero l1 = count_nonzero l2.
Proof.
  revert l2. induction l1 as [|x l1 IH]; intros [|y l2] Hlen H; simpl in Hlen;
    try discriminate; [reflexivity|].
  rewrite !count_nonzero_cons. rewrite (IH l2).
  - specialize (H 0%nat ltac:(simpl; lia)).
    change ((x :: l1) !!! 0%nat) with x in H. change ((y :: l2) !!! 0%nat) with y in H. lia.
  - lia.
  - intros i Hi. apply (H (S i)). simpl. lia.
Qed.

Lemma count_nonzero_replicate0 n : count_nonzero (replicate n 0) = 0.
Proof.
  apply count_nonzero_zero. intros i Hi. rewrite length_replicate in Hi.
  apply lookup_total_replicate_2. exact Hi.
Qed.

(** The level with the sign of the DCT coefficient (line 881). *)
Definition signedLevel (level resi : Z) : Z :=
  s32 (Z.lxor level (asr31 resi) - asr31 resi).

Lemma signedLevel_spec level resi :
  0 <= level <= 32768 -> -2147483648 <= resi < 2147483648 ->
  signedLevel level resi = if resi <? 0 then - level else level.
Proof.
  intros Hl Hr. unfold signedLevel. destruct (Z.ltb_spec resi 0).
  - rewrite asr31_neg by lia. rewrite lxor_m1.
    replace (- level - 1 - -1) with (- level) by lia. apply s32_id. lia.
  - rewrite asr31_nonneg by lia. rewrite Z.lxor_0_r, Z.sub_0_r. apply s32_id. lia.
Qed.

Section RdoFinishProofs.

Variables (getGroupIdx : Z -> Z).
Variables (q : Quant) (cu : TComDataCU) (log2TrSize : Z) (ttype : TextType).
Variables (dst0 : list Z) (numCoeff : nat).

Local Abbreviation cp := (getTUEntropyCodingParameters cu log2TrSize (isLuma ttype)).
Local Abbreviation resi := (m_resiDctCoeff q).

Hypothesis Hscan : scan_ok (scan cp) numCoeff = true.
Hypothesis Hsmall : Z.of_nat numCoeff < 4294967295.
Hypothesis Hresi : all_int resi = true.
Hypothesis Hdst0 : forall blk, (blk < numCoeff)%nat -> levelOK resi blk (dst0 !!! blk).

Lemma rdoLastCoeff_bound (s : RdoState) (cgScanPos scanPosinCG : nat) (l : LastSearch) :
  0 <= bestLastIdx l <= lastScanPos s + 1 ->
  0 <= bestLastIdx (rdoLastCoeff getGroupIdx q cu log2TrSize ttype s cgScanPos scanPosinCG l)
    <= lastScanPos s + 1.
Proof.
  intros Hb. unfold rdoLastCoeff.
  destruct (foundLast l); [exact Hb|].
  destruct (Z.ltb_spec (lastScanPos s)
              (Z.of_nat (cgScanPos * SCAN_SET_SIZE + scanPosinCG))); [exact Hb|].
  match goal with |- context [if negb ?b then _ else _] => destruct b end; cbn [negb];
    [cbn [bestLastIdx]; exact Hb|].
  match goal with |- context [if (?x <? ?y)%float then _ else _] =>
    destruct (x <? y)%float end;
    match goal with |- context [if 1 <? ?v then _ else _] => destruct (1 <? v) end;
    cbn [bestLastIdx]; lia.
Qed.

Lemma rdoLastPos_bound (s : RdoState) :
  -1 <= lastScanPos s ->
  0 <= bestLastIdx (rdoLastPos getGroupIdx q cu log2TrSize ttype s) <= lastScanPos s + 1.
Proof.
  intros Hl. unfold rdoLastPos.
  apply (for_down_ind (fun (_ : nat) (l : LastSearch) =>
                         0 <= bestLastIdx l <= lastScanPos s + 1)).
  - cbn [bestLastIdx]. lia.
  - intros k l Hk Hb. unfold rdoLastCG.
    destruct (foundLast l); [exact Hb|].
    match goal with |- context [if ?b then _ else _] => destruct b end;
      [cbn [bestLastIdx]; exact Hb|].
    apply (for_down_ind (fun (_ : nat) (l : LastSearch) =>
                           0 <= bestLastIdx l <= lastScanPos s + 1)).
    + cbn [bestLastIdx]. exact Hb.
    + intros j l' Hj Hb'. apply rdoLastCoeff_bound. exact Hb'.
Qed.

Lemma rdoSign_loop (dA : list Z) (b : nat) :
  length dA = numCoeff -> (b <= numCoeff)%nat ->
  let r := for_up b 0 (rdoSignStep q cu log2TrSize ttype) (dA, 0) in
  length (fst r) = numCoeff /\
  (forall p, (p < b)%nat ->
     fst r !!! (scan cp !!! p)
     = signedLevel (dA !!! (scan cp !!! p)) (resi !!! (scan cp !!! p))) /\
  (forall p, (b <= p < numCoeff)%nat -> fst r !!! (scan cp !!! p) = dA !!! (scan cp !!! p)) /\
  snd r = count_nonzero (vals dA (take b (scan cp))).
Proof.
  intros Hlen Hb r. subst r.
  destruct (scan_ok_parts _ _ Hscan) as (Hsl & _ & _).
  pose (P := fun (i : nat) (st : list Z * Z) =>
    length (fst st) = numCoeff /\
    (forall p, (p < i)%nat ->
       fst st !!! (scan cp !!! p)
       = signedLevel (dA !!! (scan cp !!! p)) (resi !!! (scan cp !!! p))) /\
    (forall p, (i <= p < numCoeff)%nat ->
       fst st !!! (scan cp !!! p) = dA !!! (scan cp !!! p)) /\
    snd st = count_nonzero (vals dA (take i (scan cp)))).
  assert (HP : P (0 + b)%nat (for_up b 0 (rdoSignStep q cu log2TrSize ttype) (dA, 0))).
  { apply for_up_ind.
    - unfold P; cbn [fst snd]. split; [exact Hlen|]. split; [intros; lia|].
      split; [reflexivity|]. rewrite take_0. reflexivity.
    - intros i [d n] Hi (Hl & Hdone & Hrest & Hn). unfold P, rdoSignStep in *.
      cbn [fst snd] in *.
      assert (Hblk : (scan cp !!! i < numCoeff)%nat)
        by (apply (scan_ok_lt _ _ Hscan); lia).
      rewrite length_insert. split; [exact Hl|]. split; [|split].
      + intros p Hp. destruct (decide (p = i)) as [->|Hne].
        * rewrite list_lookup_total_insert_eq by lia.
          rewrite (Hrest i) by lia. reflexivity.
        * rewrite list_lookup_total_insert_ne.
          -- apply Hdone. lia.
          -- intros He. apply Hne. symmetry.
             apply (scan_ok_inj _ _ Hscan); [lia | lia | exact He].
      + intros p Hp. rewrite list_lookup_total_insert_ne.
        * apply Hrest. lia.
        * intros He. apply (scan_ok_inj _ _ Hscan) in He; lia.
      + rewrite (take_S_r (scan cp) i (scan cp !!! i))
          by (apply list_lookup_lookup_total_lt; lia).
        unfold vals. rewrite fmap_app, count_nonzero_app.
        fold (vals dA (take i (scan cp))). rewrite <- Hn.
        rewrite (Hrest i) by lia.
        change (count_nonzero ((fun p => dA !!! p) <$> [scan cp !!! i]))
          with (nz (dA !!! (scan cp !!! i)) + 0).
        pose proof (count_nonzero_bounds (vals dA (take i (scan cp)))) as Hcb.
        rewrite vals_length, length_take, <- Hn in Hcb.
        unfold nz. rewrite u32_id; [lia|].
        destruct (dA !!! (scan cp !!! i) =? 0); lia. }
  exact HP.
Qed.

Lemma rdoClean_loop (d1 : list Z) (b cnt : nat) :
  length d1 = numCoeff -> (b + cnt <= numCoeff)%nat ->
  let r := for_up cnt b (rdoCleanStep cu log2TrSize ttype) d1 in
  length r = numCoeff /\
  forall p, (p < numCoeff)%nat ->
    r !!! (scan cp !!! p)
    = if (b <=? p)%nat && (p <? b + cnt)%nat then 0 else d1 !!! (scan cp !!! p).
Proof.
  intros Hlen Hb r. subst r.
  pose (P := fun (i : nat) (d : list Z) =>
    length d = numCoeff /\
    forall p, (p < numCoeff)%nat ->
      d !!! (scan cp !!! p)
      = if (b <=? p)%nat && (p <? i)%nat then 0 else d1 !!! (scan cp !!! p)).
  assert (HP : P (b + cnt)%nat (for_up cnt b (rdoCleanStep cu log2TrSize ttype) d1)).
  { apply for_up_ind.
    - unfold P. split; [exact Hlen|]. intros p Hp.
      destruct (Nat.leb_spec b p); destruct (Nat.ltb_spec p b); cbn [andb]; try lia;
        reflexivity.
    - intros i d Hi (Hl & Hv). unfold P, rdoCleanStep.
      assert (Hblk : (scan cp !!! i < numCoeff)%nat)
        by (apply (scan_ok_lt _ _ Hscan); lia).
      rewrite length_insert. split; [exact Hl|].
      intros p Hp. destruct (decide (p = i)) as [->|Hne].
      + rewrite list_lookup_total_insert_eq by lia.
        destruct (Nat.leb_spec b i); destruct (Nat.ltb_spec i (S i)); cbn [andb]; try lia;
          reflexivity.
      + rewrite list_lookup_total_insert_ne.
        * rewrite Hv by exact Hp.
          destruct (Nat.leb_spec b p); destruct (Nat.ltb_spec p i);
            destruct (Nat.ltb_spec p (S i)); cbn [andb]; try lia; reflexivity.
        * intros He. apply Hne. symmetry.
          apply (scan_ok_inj _ _ Hscan); [lia | lia | exact He]. }
  exact HP.
Qed.

Lemma signedLevel_levelOK (blk : nat) (v : Z) :
  (blk < numCoeff)%nat -> 0 <= v <= Z.abs (dst0 !!! blk) ->
  levelOK resi blk (signedLevel v (resi !!! blk)) /\
  Z.abs (signedLevel v (resi !!! blk)) = v.
Proof.
  intros Hblk Hv. destruct (Hdst0 blk Hblk) as (Hr & Hp & Hn).
  pose proof (all_int_lookup resi blk Hresi) as Hri.
  rewrite signedLevel_spec by lia. unfold levelOK.
  destruct (Z.ltb_spec (resi !!! blk) 0); repeat split; lia.
Qed.

Lemma rdoFinish_spec (s : RdoState) (best : Z) :
  length (dstCoeff s) = numCoeff ->
  (forall blk, (blk < numCoeff)%nat -> 0 <= dstCoeff s !!! blk <= Z.abs (dst0 !!! blk)) ->
  (forall p, (p < numCoeff)%nat -> lastScanPos s < Z.of_nat p ->
     dstCoeff s !!! (scan cp !!! p) = 0) ->
  -1 <= lastScanPos s < Z.of_nat numCoeff ->
  0 <= best <= lastScanPos s + 1 ->
  exists d n,
    rdoFinish q cu log2TrSize ttype s best = (d, n) /\
    passInv resi numCoeff d n /\
    (forall blk, (blk < numCoeff)%nat -> Z.abs (d !!! blk) <= Z.abs (dst0 !!! blk)).
Proof.
  intros Hlen Hlev Htail Hlast Hbest. unfold rdoFinish.
  set (b := Z.to_nat best).
  set (cnt := Z.to_nat (lastScanPos s + 1 - best)).
  assert (Hb : (b <= numCoeff)%nat) by lia.
  assert (Hbc : (b + cnt <= numCoeff)%nat) by lia.
  destruct (rdoSign_loop (dstCoeff s) b Hlen Hb) as (Hl1 & Hsigned & Hrest & Hn).
  destruct (for_up b 0 (rdoSignStep q cu log2TrSize ttype) (dstCoeff s, 0)) as [d1 n].
  cbn [fst snd] in *.
  destruct (rdoClean_loop d1 b cnt Hl1 Hbc) as (Hl2 & Hclean).
  set (d := for_up cnt b (rdoCleanStep cu log2TrSize ttype) d1) in *.
  exists d, n. split; [reflexivity|].
  destruct (scan_ok_parts _ _ Hscan) as (Hsl & _ & _).
  assert (Hval : forall p, (p < numCoeff)%nat ->
            d !!! (scan cp !!! p)
            = if (p <? b)%nat
              then signedLevel (dstCoeff s !!! (scan cp !!! p)) (resi !!! (scan cp !!! p))
              else 0).
  { intros p Hp. rewrite Hclean by exact Hp.
    destruct (Nat.ltb_spec p b) as [Hpb|Hpb].
    - destruct (Nat.leb_spec b p); [lia|]. cbn [andb]. apply Hsigned. exact Hpb.
    - destruct (Nat.leb_spec b p); [|lia].
      destruct (Nat.ltb_spec p (b + cnt)); cbn [andb]; [reflexivity|].
      rewrite Hrest by lia. apply Htail; [exact Hp | lia]. }
  assert (Hblkval : forall blk, (blk < numCoeff)%nat ->
            levelOK resi blk (d !!! blk) /\ Z.abs (d !!! blk) <= Z.abs (dst0 !!! blk)).
  { intros blk Hblk.
    destruct (scan_ok_surj _ _ Hscan blk Hblk) as (p & Hp & <-).
    rewrite Hval by exact Hp.
    destruct (p <? b)%nat.
    - destruct (signedLevel_levelOK (scan cp !!! p) (dstCoeff s !!! (scan cp !!! p)))
        as [Hok Habs]; [exact Hblk | apply Hlev; exact Hblk |].
      split; [exact Hok|]. rewrite Habs. apply Hlev. exact Hblk.
    - split; [unfold levelOK; lia | lia]. }
  split; [|intros blk Hblk; apply Hblkval; exact Hblk].
  split; [exact Hl2|]. split; [intros blk Hblk; apply Hblkval; exact Hblk|].
  rewrite (count_nonzero_scan d (scan cp)) by (rewrite Hl2; exact Hscan).
  rewrite Hn.
  rewrite (count_nonzero_pointwise (vals d (scan cp))
             (vals (dstCoeff s) (take b (scan cp)) ++ replicate (numCoeff - b) 0)).
  - rewrite count_nonzero_app, count_nonzero_replicate0. lia.
  - rewrite length_app, !vals_length, length_take, length_replicate. lia.
  - intros i Hi. rewrite vals_length in Hi.
    rewrite vals_lookup by exact Hi. rewrite Hval by lia.
    destruct (Nat.ltb_spec i b) as [Hib|Hib].
    + rewrite lookup_total_app_l by (rewrite vals_length, length_take; lia).
      rewrite vals_lookup by (rewrite length_take; lia).
      rewrite lookup_total_take_lt by lia.
      assert (Hblk : (scan cp !!! i < numCoeff)%nat)
        by (apply (scan_ok_lt _ _ Hscan); lia).
      destruct (signedLevel_levelOK (scan cp !!! i) (dstCoeff s !!! (scan cp !!! i)))
        as [_ Habs]; [exact Hblk | apply Hlev; exact Hblk |].
      pose proof (Hlev _ Hblk) as Hv. unfold nz.
      destruct (Z.eqb_spec (signedLevel (dstCoeff s !!! (scan cp !!! i))
                              (resi !!! (scan cp !!! i))) 0);
        destruct (Z.eqb_spec (dstCoeff s !!! (scan cp !!! i)) 0); lia.
    + rewrite lookup_total_app_r by (rewrite vals_length, length_take; lia).
      rewrite lookup_total_replicate_2; [reflexivity|].
      rewrite vals_length, length_take. lia.
Qed.

End RdoFinishProofs.

(** ** The quantisers on a valid call *)

(** A valid call of the quantisers on a block of [2^log2TrSize] squared
    coefficients: the block size is one of 4, 8, 16, 32, the quantiser shift
    leaves the nine bits the rounding offset needs, the output buffer holds
    the block, the scan of the coding parameters enumerates the block in
    coefficient groups of 16, the DCT buffer and the table of quantisation
    scales cover the block, and the scales are not negative. *)
Definition valid_call (X265_DEPTH : Z) (q : Quant) (cu : TComDataCU) (coeff : list Z)
    (log2TrSize : Z) (ttype : TextType) : bool :=
  let cp := getTUEntropyCodingParameters cu log2TrSize (isLuma ttype) in
  let numCoeff := Z.to_nat (Z.shiftl 1 (log2TrSize * 2)) in
  let qbits := QUANT_SHIFT + per (m_qpParam q ttype)
               + (MAX_TR_DYNAMIC_RANGE - X265_DEPTH - log2TrSize) in
  (2 <=? log2TrSize) && (log2TrSize <=? 5) && (9 <=? qbits) &&
  (length coeff =? numCoeff)%nat && scan_ok (scan cp) numCoeff &&
  (Z.of_nat (log2TrSizeCG cp) =? log2TrSize - 2) &&
  (numCoeff <=? length (m_resiDctCoeff q))%nat &&
  (numCoeff <=? length (m_quantCoef (m_scalingList q) (log2TrSize - 2)
                          (scalingListTypeOf cu ttype) (rem (m_qpParam q ttype))))%nat &&
  forallb (fun x => 0 <=? x)
    (m_quantCoef (m_scalingList q) (log2TrSize - 2) (scalingListTypeOf cu ttype)
       (rem (m_qpParam q ttype))).

(** The [double] that line 893 converts to the [int64_t] [rdFactor]. *)
Definition rdoFactorDouble (q : Quant) (ttype : TextType) : float :=
  let invQuant :=
    s32 (Z.shiftl (s_invQuantScales (m_scalingList q) !!! Z.to_nat (rem (m_qpParam q ttype)))
                  (per (m_qpParam q ttype))) in
  (double_of_Z (s64 (invQuant * invQuant)) / (m_lambda2 q ttype * 16) + 0.5)%float.

(** The conversion of a [double] to [int64_t] is defined for a number (not a
    NaN) whose truncation fits the type. *)
Definition int64_cast_defined (f : float) : bool :=
  ((-0x1p+63 <=? f) && (f <? 0x1p+63))%float.

(** What RDOQ needs on top: the DCT coefficients are [int32_t] values, the
    table of error scales covers the block, the conversion that gives
    [rdFactor] is defined, and [rdFactor] fits 32 bits. *)
Definition valid_rdoq (q : Quant) (cu : TComDataCU) (log2TrSize : Z) (ttype : TextType)
    : bool :=
  all_int (m_resiDctCoeff q) &&
  (Z.to_nat (Z.shiftl 1 (log2TrSize * 2))
   <=? length (m_errScale (m_scalingList q) (log2TrSize - 2) (scalingListTypeOf cu ttype)
                 (rem (m_qpParam q ttype))))%nat &&
  int64_cast_defined (rdoFactorDouble q ttype) &&
  (Z.abs (rdoFactor q ttype) <=? 2147483648).

Lemma rdoFactor_cast (q : Quant) (ttype : TextType) :
  rdoFactor q ttype = int64_of_double (rdoFactorDouble q ttype).
Proof. reflexivity. Qed.

Lemma nonneg_lookup (l : list Z) (i : nat) :
  forallb (fun x => 0 <=? x) l = true -> 0 <= l !!! i.
Proof.
  intros H. rewrite forallb_forall in H.
  destruct (l !! i) as [x|] eqn:Hx.
  - rewrite (list_lookup_total_correct l i x Hx).
    assert (Hin : In x l) by (apply list_elem_of_In, list_elem_of_lookup; eauto).
    specialize (H x Hin). lia.
  - rewrite list_lookup_total_alt, Hx. simpl. lia.
Qed.

Lemma block_size (log2TrSize : Z) (cg : nat) :
  2 <= log2TrSize <= 5 -> Z.of_nat cg = log2TrSize - 2 ->
  (2 ^ (cg * 2) * SCAN_SET_SIZE)%nat = Z.to_nat (Z.shiftl 1 (log2TrSize * 2)) /\
  Z.of_nat (Z.to_nat (Z.shiftl 1 (log2TrSize * 2))) < 4294967295.
Proof.
  intros Hl Hcg.
  assert (Hc : log2TrSize = 2 \/ log2TrSize = 3 \/ log2TrSize = 4 \/ log2TrSize = 5) by lia.
  destruct Hc as [-> | [-> | [-> | ->]]].
  - replace cg with 0%nat by lia. vm_compute. split; reflexivity.
  - replace cg with 1%nat by lia. vm_compute. split; reflexivity.
  - replace cg with 2%nat by lia. vm_compute. split; reflexivity.
  - replace cg with 3%nat by lia. vm_compute. split; reflexivity.
Qed.

Lemma valid_call_parts X265_DEPTH q cu coeff log2TrSize ttype :
  valid_call X265_DEPTH q cu coeff log2TrSize ttype = true ->
  let cp := getTUEntropyCodingParameters cu log2TrSize (isLuma ttype) in
  let numCoeff := Z.to_nat (Z.shiftl 1 (log2TrSize * 2)) in
  2 <= log2TrSize <= 5 /\
  9 <= QUANT_SHIFT + per (m_qpParam q ttype)
       + (MAX_TR_DYNAMIC_RANGE - X265_DEPTH - log2TrSize) /\
  length coeff = numCoeff /\
  scan_ok (scan cp) numCoeff = true /\
  (2 ^ (log2TrSizeCG cp * 2) * SCAN_SET_SIZE)%nat = numCoeff /\
  Z.of_nat numCoeff < 4294967295 /\
  (forall i, 0 <= m_quantCoef (m_scalingList q) (log2TrSize - 2)
                    (scalingListTypeOf cu ttype) (rem (m_qpParam q ttype)) !!! i).
Proof.
  intros H cp numCoeff. unfold valid_call in H. fold cp in H. fold numCoeff in H.
  repeat (apply andb_prop in H as [H ?]).
  assert (Hl : 2 <= log2TrSize <= 5) by lia.
  assert (Hcg : Z.of_nat (log2TrSizeCG cp) = log2TrSize - 2) by lia.
  destruct (block_size log2TrSize (log2TrSizeCG cp) Hl Hcg) as [Hsz Hsmall].
  split; [exact Hl|]. split; [lia|].
  split; [apply Nat.eqb_eq; assumption|]. split; [assumption|].
  split; [exact Hsz|]. split; [exact Hsmall|].
  intros i. apply nonneg_lookup. assumption.
Qed.

(** Plain quantisation leaves 16-bit levels with the signs of the DCT
    coefficients, and the number of nonzero levels. *)
Lemma quant_spec X265_DEPTH q cu coeff log2TrSize ttype :
  valid_call X265_DEPTH q cu coeff log2TrSize ttype = true ->
  exists out numSig,
    quant X265_DEPTH q cu coeff log2TrSize ttype = (out, numSig) /\
    passInv (m_resiDctCoeff q) (Z.to_nat (Z.shiftl 1 (log2TrSize * 2))) out numSig.
Proof.
  intros Hv.
  destruct (valid_call_parts _ _ _ _ _ _ Hv) as (Hl & Hqb & Hlen & Hscan & Hsz & Hsmall & Hqc).
  unfold quant.
  set (numCoeff := Z.to_nat (Z.shiftl 1 (log2TrSize * 2))) in *.
  set (qbits := QUANT_SHIFT + per (m_qpParam q ttype)
                + (MAX_TR_DYNAMIC_RANGE - X265_DEPTH - log2TrSize)) in *.
  set (add := Z.shiftl (if sliceIsI cu then 171 else 85) (qbits - 9)).
  assert (Hadd : 0 <= add <= 2 ^ qbits).
  { unfold add. rewrite Z.shiftl_mul_pow2 by lia.
    assert (Hp : 2 ^ qbits = 512 * 2 ^ (qbits - 9)).
    { replace qbits with (9 + (qbits - 9)) at 1 by lia.
      rewrite Z.pow_add_r by lia. reflexivity. }
    assert (0 < 2 ^ (qbits - 9)) by (apply Z.pow_pos_nonneg; lia).
    rewrite Hp. destruct (sliceIsI cu); nia. }
  destruct (prim_quant_spec (m_resiDctCoeff q)
              (m_quantCoef (m_scalingList q) (log2TrSize - 2) (scalingListTypeOf cu ttype)
                 (rem (m_qpParam q ttype)))
              (replicate (32 * 32) 0) coeff qbits add numCoeff)
    as (dU & q' & n & Heq & Hinv & HdU & _); try assumption; try lia.
  { apply all_int_Forall. apply Forall_replicate. lia. }
  rewrite Heq.
  destruct ((2 <=? n) && bSignHideEnabled cu).
  - destruct (signBitHidingHDQ_spec q' (m_resiDctCoeff q) dU n
                (getTUEntropyCodingParameters cu log2TrSize (isLuma ttype)) numCoeff)
      as (q2 & n2 & Heq2 & Hinv2 & _); try assumption.
    { cbv zeta. lia. }
    exists q2, n2. split; [exact Heq2 | exact Hinv2].
  - exists q', n. split; [reflexivity | exact Hinv].
Qed.

(** The level [primitives.nquant] leaves at a position: the magnitude RDOQ
    starts from. *)
Definition nquantLevel (X265_DEPTH : Z) (q : Quant) (cu : TComDataCU) (log2TrSize : Z)
    (ttype : TextType) (blk : nat) : Z :=
  let qbits := QUANT_SHIFT + per (m_qpParam q ttype)
               + (MAX_TR_DYNAMIC_RANGE - X265_DEPTH - log2TrSize) in
  Z.min
    (quant_level (m_resiDctCoeff q !!! blk)
       (m_quantCoef (m_scalingList q) (log2TrSize - 2) (scalingListTypeOf cu ttype)
          (rem (m_qpParam q ttype)) !!! blk)
       qbits (Z.shiftl 1 (qbits - 1)))
    32767.

Lemma saturate_sign_abs (c level : Z) :
  0 <= level -> Z.abs (saturate_sign c level) = Z.min level 32767.
Proof. intros H. unfold saturate_sign. destruct (c <? 0); lia. Qed.

(** The sign-bit hiding of RDOQ keeps the invariant of the passes and moves
    no magnitude by more than one. *)
Lemma rdoSignBitHiding_spec (q : Quant) (cu : TComDataCU) (log2TrSize : Z) (ttype : TextType)
    (s : RdoState) (dst : list Z) (numSig : Z) (numCoeff : nat) :
  scan_ok (scan (getTUEntropyCodingParameters cu log2TrSize (isLuma ttype))) numCoeff = true ->
  Z.of_nat numCoeff < 4294967295 ->
  (Z.to_nat (cgLastScanPos s + 1) * SCAN_SET_SIZE <= numCoeff)%nat ->
  Z.abs (rdoFactor q ttype) <= 2147483648 ->
  all_int (deltaU s) = true -> all_int (rateIncDown s) = true ->
  passInv (m_resiDctCoeff q) numCoeff dst numSig ->
  exists out n,
    rdoSignBitHiding q cu log2TrSize ttype s dst numSig = (out, n) /\
    passInv (m_resiDctCoeff q) numCoeff out n /\
    (forall blk, Z.abs (out !!! blk) <= Z.abs (dst !!! blk) + 1).
Proof.
  intros Hscan Hsmall HK Hrd HdU Hdown Hinv. unfold rdoSignBitHiding.
  set (cp := getTUEntropyCodingParameters cu log2TrSize (isLuma ttype)) in *.
  destruct (sbhPass_spec s32
              (rdoSearch q cu log2TrSize ttype s (rdoFactor q ttype))
              (m_resiDctCoeff q) (scan cp) numCoeff s32_keepsParity)
    with (K := Z.to_nat (cgLastScanPos s + 1)) (q0 := dst) (numSig0 := numSig) (lastCG0 := 1)
    as (out & n & lastCG & Heq & Hout & Hgroups & Hrest).
  - intros d subPos lastCG firstNZ lastNZ signbit Hth Hl Hnz.
    apply (rdoSearch_selected q cu log2TrSize ttype s (rdoFactor q ttype) d subPos lastCG
             firstNZ lastNZ signbit); try assumption.
    + intros i. apply all_int_lookup. exact HdU.
    + intros i. apply all_int_lookup. exact Hdown.
  - apply (scan_ok_lt _ _ Hscan).
  - apply (scan_ok_inj _ _ Hscan).
  - exact Hsmall.
  - exact HK.
  - exact Hinv.
  - rewrite Heq. exists out, n. split; [reflexivity|]. split; [exact Hout|].
    apply (sbhPass_magnitude (scan cp) numCoeff (Z.to_nat (cgLastScanPos s + 1)) dst out).
    + exact HK.
    + intros g Hg. apply Hgroups. exact Hg.
    + exact Hrest.
Qed.

(** RDOQ leaves 16-bit levels with the signs of the DCT coefficients and the
    number of nonzero levels; no magnitude exceeds the level of
    [primitives.nquant] by more than the one step of the sign-bit hiding. *)
Lemma rdoQuant_spec X265_DEPTH g_goRiceRange getGroupIdx q cu coeff log2TrSize ttype :
  valid_call X265_DEPTH q cu coeff log2TrSize ttype = true ->
  valid_rdoq q cu log2TrSize ttype = true ->
  exists out numSig,
    rdoQuant X265_DEPTH g_goRiceRange getGroupIdx q cu coeff log2TrSize ttype = (out, numSig) /\
    passInv (m_resiDctCoeff q) (Z.to_nat (Z.shiftl 1 (log2TrSize * 2))) out numSig /\
    (forall blk, (blk < Z.to_nat (Z.shiftl 1 (log2TrSize * 2)))%nat ->
       Z.abs (out !!! blk)
       <= nquantLevel X265_DEPTH q cu log2TrSize ttype blk
          + (if bSignHideEnabled cu then 1 else 0)).
Proof.
  intros Hv Hr.
  destruct (valid_call_parts _ _ _ _ _ _ Hv) as (Hl & Hqb & Hlen & Hscan & Hsz & Hsmall & Hqc).
  unfold valid_rdoq in Hr. apply andb_prop in Hr as [Hresi Hrd].
  apply andb_prop in Hresi as [Hresi _]. apply andb_prop in Hresi as [Hresi _].
  apply Z.leb_le in Hrd.
  unfold rdoQuant, nquantLevel.
  set (numCoeff := Z.to_nat (Z.shiftl 1 (log2TrSize * 2))) in *.
  set (qbits := QUANT_SHIFT + per (m_qpParam q ttype)
                + (MAX_TR_DYNAMIC_RANGE - X265_DEPTH - log2TrSize)) in *.
  set (cp := getTUEntropyCodingParameters cu log2TrSize (isLuma ttype)) in *.
  set (qc := m_quantCoef (m_scalingList q) (log2TrSize - 2) (scalingListTypeOf cu ttype)
               (rem (m_qpParam q ttype))) in *.
  set (add := Z.shiftl 1 (qbits - 1)).
  assert (Hadd : 0 <= add) by (unfold add; apply Z.shiftl_nonneg; lia).
  destruct (prim_nquant_spec (m_resiDctCoeff q) qc (replicate (32 * 32) 0) coeff qbits add
              numCoeff Hlen Hadd Hqc)
    as (sc & d0 & n0 & Heq & Hinv0 & Hval0 & _).
  rewrite Heq.
  assert (Habs0 : forall blk, (blk < numCoeff)%nat ->
            Z.abs (d0 !!! blk)
            = Z.min (quant_level (m_resiDctCoeff q !!! blk) (qc !!! blk) qbits add) 32767).
  { intros blk Hblk. rewrite Hval0 by exact Hblk. apply saturate_sign_abs.
    apply quant_level_nonneg; [apply Hqc | exact Hadd]. }
  assert (Hhide : 0 <= (if bSignHideEnabled cu then 1 else 0))
    by (destruct (bSignHideEnabled cu); lia).
  destruct (Z.eqb_spec n0 0) as [Hn0|Hn0].
  { exists d0, 0. split; [reflexivity|]. split.
    - rewrite <- Hn0. exact Hinv0.
    - intros blk Hblk. rewrite Habs0 by exact Hblk. lia. }
  destruct Hinv0 as (Hlen0 & Hlev0 & Hcnt0).
  assert (Hs : scanInv cu log2TrSize ttype d0 numCoeff 0
                 (rdoScan X265_DEPTH g_goRiceRange q cu log2TrSize ttype sc d0)).
  { apply (rdoScan_inv X265_DEPTH g_goRiceRange q cu log2TrSize ttype sc d0 numCoeff).
    - exact Hscan.
    - fold qbits. lia.
    - intros blk Hblk. destruct (Hlev0 blk Hblk) as (Hrg & _). exact Hrg.
    - exact Hlen0.
    - exact Hsz. }
  set (s := rdoScan X265_DEPTH g_goRiceRange q cu log2TrSize ttype sc d0) in *.
  destruct Hs as (Hls & Hmag & Hpos & Hlast & _ & Hcg & HdU & Hdown).
  fold cp in Hpos.
  destruct (Z.ltb_spec (lastScanPos s) 0) as [Hneg|Hnn].
  { exists (dstCoeff s), 0. 
    assert (Hzero : forall blk, (blk < numCoeff)%nat -> dstCoeff s !!! blk = 0).
    { intros blk Hblk. destruct (scan_ok_surj _ _ Hscan blk Hblk) as (p & Hp & <-).
      apply (Hpos p); lia. }
    split; [reflexivity|]. split.
    - split; [exact Hls|]. split.
      + intros blk Hblk. rewrite Hzero by exact Hblk. unfold levelOK. lia.
      + symmetry. apply count_nonzero_zero. intros i Hi. apply Hzero. lia.
    - intros blk Hblk. rewrite Hzero by exact Hblk. rewrite <- Habs0 by exact Hblk. lia. }
  pose proof (rdoLastPos_bound getGroupIdx q cu log2TrSize ttype numCoeff s
                ltac:(lia)) as Hbest.
  destruct (rdoFinish_spec q cu log2TrSize ttype d0 numCoeff Hscan Hsmall Hresi Hlev0 s
              (bestLastIdx (rdoLastPos getGroupIdx q cu log2TrSize ttype s)))
    as (d1 & n1 & Heq1 & Hinv1 & Hmag1).
  { exact Hls. }
  { intros blk Hblk. split; [|pose proof (Hmag blk Hblk); lia].
    destruct (scan_ok_surj _ _ Hscan blk Hblk) as (p & Hp & <-).
    apply (Hpos p). lia. }
  { intros p Hp Hlt. apply (Hpos p); lia. }
  { exact Hlast. }
  { exact Hbest. }
  rewrite Heq1.
  destruct (bSignHideEnabled cu && (2 <=? n1)) eqn:Hsbh.
  - destruct (rdoSignBitHiding_spec q cu log2TrSize ttype s d1 n1 numCoeff)
      as (out & n & Heq2 & Hinv2 & Hmag2); try assumption.
    { destruct (Z.ltb_spec (lastScanPos s) 0); [lia|]. rewrite Hcg.
      unfold SCAN_SET_SIZE in *.
      assert (Z.of_nat (Z.to_nat (lastScanPos s / 16 + 1)) * 16 <= Z.of_nat numCoeff);
        [|lia].
      rewrite Z2Nat.id by (Z.div_mod_to_equations; lia).
      assert (Hm : Z.of_nat numCoeff
                   = Z.of_nat (2 ^ (log2TrSizeCG cp * 2)) * 16) by lia.
      Z.div_mod_to_equations. lia. }
    exists out, n. split; [exact Heq2|]. split; [exact Hinv2|].
    intros blk Hblk. apply andb_prop in Hsbh as [-> _].
    specialize (Hmag2 blk). specialize (Hmag1 blk Hblk).
    rewrite <- Habs0 by exact Hblk. lia.
  - exists d1, n1. split; [reflexivity|]. split; [exact Hinv1|].
    intros blk Hblk. specialize (Hmag1 blk Hblk). rewrite <- Habs0 by exact Hblk. lia.
Qed.

(** ** The encode path on a valid call *)

Definition int16b (x : Z) : bool := (-32768 <=? x) && (x <? 32768).

(** A valid call of [transformNxN]: with transform-quant bypass the residual
    holds [int16_t] samples and the coefficient buffer holds the block;
    otherwise the quantiser that runs is called validly on the DCT
    coefficients the forward transform has left in [m_resiDctCoeff]. *)
Definition valid_encode (X265_DEPTH : Z) (primitives : Primitives) (q : Quant)
    (cu : TComDataCU) (fenc : list Z) (fencStride : nat) (residual : list Z) (stride : nat)
    (coeff : list Z) (log2TrSize : Z) (ttype : TextType)
    (useTransformSkip curUseRDOQ : bool) : bool :=
  if getCUTransquantBypass cu then
    let trSize := Z.to_nat (Z.shiftl 1 log2TrSize) in
    (2 <=? log2TrSize) && (log2TrSize <=? 5) && (length coeff =? trSize * trSize)%nat &&
    forallb (fun k => forallb (fun j => int16b (residual !!! (k * stride + j)%nat))
                        (seq 0 trSize))
      (seq 0 trSize)
  else
    let q' := forwardTransform X265_DEPTH primitives q cu fenc fencStride residual stride
                log2TrSize ttype useTransformSkip in
    valid_call X265_DEPTH q' cu coeff log2TrSize ttype &&
    (if m_useRDOQ q' && curUseRDOQ then valid_rdoq q' cu log2TrSize ttype else true).

Lemma passInv_levels (coef : list Z) (numCoeff : nat) (out : list Z) (numSig : Z) :
  passInv coef numCoeff out numSig ->
  numSig = count_nonzero out /\
  (forall blk, (blk < length out)%nat -> -32768 <= out !!! blk <= 32767) /\
  (forall blk, (blk < length out)%nat -> out !!! blk <> 0 ->
     (out !!! blk < 0 <-> coef !!! blk < 0)).
Proof.
  intros (Hlen & Hlev & Hn). split; [exact Hn|]. split.
  - intros blk Hb. apply Hlev. lia.
  - intros blk Hb Hnz. destruct (Hlev blk ltac:(lia)) as (_ & Hp & Hm). split; lia.
Qed.

Lemma bypass_levels (residual : list Z) (stride : nat) (coeff : list Z) (log2TrSize : Z) :
  let trSize := Z.to_nat (Z.shiftl 1 log2TrSize) in
  2 <= log2TrSize <= 5 ->
  length coeff = (trSize * trSize)%nat ->
  forallb (fun k => forallb (fun j => int16b (residual !!! (k * stride + j)%nat))
                      (seq 0 trSize))
    (seq 0 trSize) = true ->
  exists out numSig,
    transformBypass residual stride coeff trSize = (out, numSig) /\
    numSig = count_nonzero out /\
    (forall blk, (blk < length out)%nat -> -32768 <= out !!! blk <= 32767).
Proof.
  intros trSize Hl Hlen Hres.
  assert (HT : (0 < trSize <= 32)%nat).
  { subst trSize. rewrite Z.shiftl_mul_pow2 by lia.
    assert (Hc : log2TrSize = 2 \/ log2TrSize = 3 \/ log2TrSize = 4 \/ log2TrSize = 5)
      by lia.
    destruct Hc as [-> | [-> | [-> | ->]]]; vm_compute; split; lia. }
  assert (Hint : forall k j, (k < trSize)%nat -> (j < trSize)%nat ->
            int16 (residual !!! (k * stride + j)%nat)).
  { intros k j Hk Hj. rewrite forallb_forall in Hres.
    specialize (Hres k ltac:(apply in_seq; lia)). rewrite forallb_forall in Hres.
    specialize (Hres j ltac:(apply in_seq; lia)). unfold int16b in Hres. unfold int16. lia. }
  destruct (transformBypass residual stride coeff trSize) as [out numSig] eqn:Heq.
  destruct (transformBypass_spec residual stride coeff trSize Hlen ltac:(nia) Hint
              out numSig Heq) as (Hlo & Hcopy & Hn).
  exists out, numSig. split; [reflexivity|]. split; [exact Hn|].
  intros blk Hb. rewrite Hlo in Hb.
  pose proof (Nat.div_mod blk trSize ltac:(lia)) as Hdm.
  pose proof (Nat.mod_upper_bound blk trSize ltac:(lia)) as Hj.
  assert (Hk : (blk / trSize < trSize)%nat)
    by (apply Nat.Div0.div_lt_upper_bound; lia).
  replace blk with (blk / trSize * trSize + blk mod trSize)%nat at 1 2 by lia.
  rewrite Hcopy by assumption.
  specialize (Hint _ _ Hk Hj). unfold int16 in Hint. lia.
Qed.

(** What [transformNxN] returns on a valid call. *)
Lemma transformNxN_spec X265_DEPTH g_goRiceRange getGroupIdx primitives q cu fenc fencStride
    residual stride coeff log2TrSize ttype useTransformSkip curUseRDOQ :
  valid_encode X265_DEPTH primitives q cu fenc fencStride residual stride coeff log2TrSize
    ttype useTransformSkip curUseRDOQ = true ->
  exists q' out numSig,
    transformNxN X265_DEPTH g_goRiceRange getGroupIdx primitives q cu fenc fencStride
      residual stride coeff log2TrSize ttype useTransformSkip curUseRDOQ
    = (q', out, numSig) /\
    numSig = count_nonzero out /\
    (forall blk, (blk < length out)%nat -> -32768 <= out !!! blk <= 32767) /\
    (getCUTransquantBypass cu = false ->
     forall blk, (blk < length out)%nat -> out !!! blk <> 0 ->
       (out !!! blk < 0 <-> m_resiDctCoeff q' !!! blk < 0)).
Proof.
  unfold valid_encode, transformNxN. intros Hv.
  destruct (getCUTransquantBypass cu).
  - repeat (apply andb_prop in Hv as [Hv ?]).
    destruct (bypass_levels residual stride coeff log2TrSize) as (out & n & Heq & Hn & Hrg);
      [lia | apply Nat.eqb_eq; assumption | assumption |].
    rewrite Heq. exists q, out, n. split; [reflexivity|]. split; [exact Hn|].
    split; [exact Hrg|]. intros Hb. discriminate Hb.
  - apply andb_prop in Hv as [Hcall Hrdoq].
    set (q' := forwardTransform X265_DEPTH primitives q cu fenc fencStride residual stride
                 log2TrSize ttype useTransformSkip) in *.
    destruct (m_useRDOQ q' && curUseRDOQ).
    + destruct (rdoQuant_spec X265_DEPTH g_goRiceRange getGroupIdx q' cu coeff log2TrSize
                  ttype Hcall Hrdoq) as (out & n & Heq & Hinv & _).
      rewrite Heq. exists q', out, n. split; [reflexivity|].
      destruct (passInv_levels _ _ _ _ Hinv) as (Hn & Hrg & Hsg).
      split; [exact Hn|]. split; [exact Hrg|]. intros _. exact Hsg.
    + destruct (quant_spec X265_DEPTH q' cu coeff log2TrSize ttype Hcall)
        as (out & n & Heq & Hinv).
      rewrite Heq. exists q', out, n. split; [reflexivity|].
      destruct (passInv_levels _ _ _ _ Hinv) as (Hn & Hrg & Hsg).
      split; [exact Hn|]. split; [exact Hrg|]. intros _. exact Hsg.
Qed.

(** C1.  On every valid call of [transformNxN] (the bypass copy, plain
    quantisation with or without sign-bit hiding, RDOQ with or without
    sign-bit hiding) the returned [numSig] is the number of nonzero entries
    of the returned coefficient block.  Both sign-bit-hiding passes run
    inside the call, so their bookkeeping of [numSig] (one more when a zero
    becomes nonzero, one less when a magnitude 1 is decremented) keeps the
    count exact.  The kernels [primitives.quant] and [primitives.nquant] are
    [prim_quant] and [prim_nquant]. *)
Theorem transformNxN_numSig X265_DEPTH g_goRiceRange getGroupIdx primitives q cu fenc
    fencStride residual stride coeff log2TrSize ttype useTransformSkip curUseRDOQ :
  valid_encode X265_DEPTH primitives q cu fenc fencStride residual stride coeff log2TrSize
    ttype useTransformSkip curUseRDOQ = true ->
  let r := transformNxN X265_DEPTH g_goRiceRange getGroupIdx primitives q cu fenc fencStride
             residual stride coeff log2TrSize ttype useTransformSkip curUseRDOQ in
  snd r = count_nonzero (snd (fst r)).
Proof.
  intros Hv r.
  destruct (transformNxN_spec X265_DEPTH g_goRiceRange getGroupIdx primitives q cu fenc
              fencStride residual stride coeff log2TrSize ttype useTransformSkip curUseRDOQ
              Hv) as (q' & out & n & Heq & Hn & _).
  subst r. rewrite Heq. exact Hn.
Qed.

(** Rate tables of context states that expect large levels: a
    greater-than-one or greater-than-two flag of 1 costs 475/32768 of a bit,
    a flag of 0 about 6.6 bits. *)
Definition est_skewed : EstBitsSbac :=
  {| significantCoeffGroupBits := replicate 4 [32768; 32768];
     significantBits := replicate 64 [32768; 32768];
     lastXBits := [10; 20; 30; 40; 50; 60; 70; 80; 90; 100];
     lastYBits := [11; 21; 31; 41; 51; 61; 71; 81; 91; 101];
     greaterOneBits := replicate 32 [217700; 475];
     levelAbsBits := replicate 8 [217700; 475];
     blockCbpBits := replicate 8 [32768; 32768];
     blockRootCbpBits := replicate 8 [32768; 32768] |}.

(** [quant_example] with the rate tables [est_skewed]. *)
Definition quant_skewed (resi : list Z) : Quant :=
  let q := quant_example resi in
  {| m_useRDOQ := m_useRDOQ q; m_psyRdoqScale := m_psyRdoqScale q;
     m_scalingList := m_scalingList q; m_qpParam := m_qpParam q;
     m_lambda2 := m_lambda2 q; m_estBitsSbac := est_skewed; m_nr := m_nr q;
     m_resiDctCoeff := resi; m_fencDctCoeff := m_fencDctCoeff q;
     m_fencShortBuf := m_fencShortBuf q |}.

(** DCT coefficients of a 4x4 block: 64 at position 0 and 96 at position 12,
    the places 0 and 6 of the scan [scan4x4]; both are multiples of the
    quantiser step 32 of [quant_example] at bit depth 8. *)
Definition dct_example : list Z := [64; 0; 0; 0; 0; 0; 0; 0; 0; 0; 0; 0; 96; 0; 0; 0].

Lemma transformNxN_numSig_witness :
  let r := transformNxN 8 g_goRiceRange_hevc getGroupIdx_hevc primitives_example
             (quant_skewed dct_example) cu_example [] 0 [] 0 (replicate 16 0) 2 TEXT_LUMA
             false true in
  snd r = count_nonzero (snd (fst r)).
Proof.
  apply (transformNxN_numSig 8 g_goRiceRange_hevc getGroupIdx_hevc primitives_example
           (quant_skewed dct_example) cu_example [] 0 [] 0 (replicate 16 0) 2 TEXT_LUMA
           false true).
  vm_compute. reflexivity.
Defined.

(** C2, as amended.  On every valid call of [transformNxN] that quantises
    (no transform-quant bypass) a nonzero output coefficient is negative
    exactly when the DCT coefficient the quantiser read at its position in
    [m_resiDctCoeff] is negative, and positive exactly when that coefficient
    is positive or zero: its sign is the sign of the DCT coefficient wherever
    the DCT coefficient is nonzero.  This is the sign the code tests,
    [m_resiDctCoeff[pos] >= 0] in the sign-bit-hiding passes and the sign
    mask of line 881.  The property holds for plain quantisation and after
    its sign-bit hiding, after the sign pass of RDOQ and after its sign-bit
    hiding.  The kernels [primitives.quant] and [primitives.nquant] are
    [prim_quant] and [prim_nquant]. *)
Theorem transformNxN_sign X265_DEPTH g_goRiceRange getGroupIdx primitives q cu fenc
    fencStride residual stride coeff log2TrSize ttype useTransformSkip curUseRDOQ
    (i : nat) :
  valid_encode X265_DEPTH primitives q cu fenc fencStride residual stride coeff log2TrSize
    ttype useTransformSkip curUseRDOQ = true ->
  getCUTransquantBypass cu = false ->
  let r := transformNxN X265_DEPTH g_goRiceRange getGroupIdx primitives q cu fenc fencStride
             residual stride coeff log2TrSize ttype useTransformSkip curUseRDOQ in
  let out := snd (fst r) in
  let dct := m_resiDctCoeff (fst (fst r)) in
  (i < length out)%nat ->
  out !!! i <> 0 ->
  (out !!! i < 0 <-> dct !!! i < 0) /\
  (0 < out !!! i <-> 0 <= dct !!! i) /\
  (dct !!! i <> 0 -> Z.sgn (out !!! i) = Z.sgn (dct !!! i)).
Proof.
  intros Hv Hb r out dct Hi Hnz.
  destruct (transformNxN_spec X265_DEPTH g_goRiceRange getGroupIdx primitives q cu fenc
              fencStride residual stride coeff log2TrSize ttype useTransformSkip curUseRDOQ
              Hv) as (q' & o & n & Heq & _ & _ & Hsg).
  subst out dct r. rewrite Heq in *. cbn [fst snd] in *.
  specialize (Hsg Hb i Hi Hnz). split; [exact Hsg|]. split; [lia|].
  intros Hd. pose proof (Z.sgn_spec (o !!! i)) as Ho.
  pose proof (Z.sgn_spec (m_resiDctCoeff q' !!! i)) as Hq. lia.
Qed.

(** DCT coefficients of a 4x4 block with both signs. *)
Definition dct_signed_example : list Z :=
  [100; -40; 33; 0; 70; 0; 0; 0; -31; 0; 0; 0; 0; 0; 0; 32].

Lemma transformNxN_sign_witness :
  let r := transformNxN 8 g_goRiceRange_hevc getGroupIdx_hevc primitives_example
             (quant_example dct_signed_example) cu_example [] 0 [] 0 (replicate 16 0) 2
             TEXT_LUMA false false in
  let out := snd (fst r) in
  let dct := m_resiDctCoeff (fst (fst r)) in
  (out !!! 1%nat < 0 <-> dct !!! 1%nat < 0) /\
  (0 < out !!! 1%nat <-> 0 <= dct !!! 1%nat) /\
  (dct !!! 1%nat <> 0 -> Z.sgn (out !!! 1%nat) = Z.sgn (dct !!! 1%nat)).
Proof.
  apply (transformNxN_sign 8 g_goRiceRange_hevc getGroupIdx_hevc primitives_example
           (quant_example dct_signed_example) cu_example [] 0 [] 0 (replicate 16 0) 2
           TEXT_LUMA false false 1).
  - vm_compute. reflexivity.
  - reflexivity.
  - vm_compute. lia.
  - vm_compute. discriminate.
Defined.

(** The up-right diagonal scan of an 8x8 block: the four coefficient groups
    in the order 0, 2, 1, 3, each scanned like a 4x4 block. *)
Definition scanCG8x8 : list nat := [0; 2; 1; 3]%nat.

Definition scan8x8 : list nat :=
  flat_map
    (fun c => map (fun b => ((c / 2 * 4 + b / 4) * 8 + (c mod 2 * 4 + b mod 4))%nat) scan4x4)
    scanCG8x8.

(** [cu_example] for an 8x8 luma block. *)
Definition cu_8x8 : TComDataCU :=
  {| isIntra := true; getCUTransquantBypass := false; predModeIsIntra := true;
     sliceIsI := true; bSignHideEnabled := true; getTransformIdx := 0;
     getCtxQtCbf := fun _ => 0;
     getTUEntropyCodingParameters := fun _ _ =>
       {| scan := scan8x8; scanCG := scanCG8x8; scanType := 0; log2TrSizeCG := 1%nat;
          firstSignificanceMapContext := 0 |} |}.

(** [quant_example] with tables for the 64 coefficients of an 8x8 block. *)
Definition quant_8x8 (resi : list Z) : Quant :=
  let q := quant_example resi in
  {| m_useRDOQ := m_useRDOQ q; m_psyRdoqScale := m_psyRdoqScale q;
     m_scalingList :=
       {| m_bEnabled := false;
          m_quantCoef := fun _ _ _ => replicate 64 16384;
          m_errScale := fun _ _ _ => replicate 64 1%float;
          s_invQuantScales := s_invQuantScales (m_scalingList q) |};
     m_qpParam := m_qpParam q; m_lambda2 := m_lambda2 q;
     m_estBitsSbac := m_estBitsSbac q; m_nr := m_nr q;
     m_resiDctCoeff := resi; m_fencDctCoeff := replicate 64 0;
     m_fencShortBuf := replicate 64 0 |}.

(** DCT coefficients of an 8x8 block, multiples of the quantiser step 16:
    32 at position 0 and 16 at position 2 (places 0 and 5 of the first
    coefficient group), 16 at position 32 (place 0 of the second group), zero
    elsewhere. *)
Definition dct_8x8_example : list Z :=
  <[0%nat := 32]> (<[2%nat := 16]> (<[32%nat := 16]> (replicate 64 0))).

(** C2 as stated fails where the DCT coefficient is zero.  Plain
    quantisation of [dct_8x8_example] gives the levels 2 and 1 in the first
    coefficient group, an odd sum against the sign bit 0; the group is not
    the last one, so the search of the sign-bit hiding starts at place 15,
    whose cost 0 no other place undercuts, and raises the level there
    (position 27) from 0 to +1 since its DCT coefficient 0 passes the test
    [coef[minPos] >= 0]: a nonzero output at a position whose DCT coefficient
    has no sign. *)
Lemma transformNxN_sign_zero_dct :
  let r := transformNxN 8 g_goRiceRange_hevc getGroupIdx_hevc primitives_example
             (quant_8x8 dct_8x8_example) cu_8x8 [] 0 [] 0 (replicate 64 0) 3 TEXT_LUMA
             false false in
  let out := snd (fst r) in
  let dct := m_resiDctCoeff (fst (fst r)) in
  valid_encode 8 primitives_example (quant_8x8 dct_8x8_example) cu_8x8 [] 0 [] 0
    (replicate 64 0) 3 TEXT_LUMA false false = true /\
  out !!! 27%nat = 1 /\ dct !!! 27%nat = 0 /\
  ~ (forall i, (i < length out)%nat -> out !!! i <> 0 ->
       Z.sgn (out !!! i) = Z.sgn (dct !!! i)).
Proof.
  intros r out dct.
  assert (Hout : out !!! 27%nat = 1) by (vm_compute; reflexivity).
  assert (Hdct : dct !!! 27%nat = 0) by (vm_compute; reflexivity).
  split; [vm_compute; reflexivity|]. split; [exact Hout|]. split; [exact Hdct|].
  intros H. specialize (H 27%nat). rewrite Hout, Hdct in H.
  assert (Hlen : (27 < length out)%nat) by (vm_compute; lia).
  specialize (H Hlen ltac:(discriminate)). discriminate H.
Qed.

(** C4.  On every valid call of [transformNxN] every coefficient of the
    returned block lies in [-32768, 32767]: the bypass copies 16-bit
    samples, the kernels clip, RDOQ only lowers magnitudes, and a
    sign-bit-hiding pass that selects a coefficient equal to 32767 or -32768
    turns its change into a decrement.  The kernels [primitives.quant] and
    [primitives.nquant] are [prim_quant] and [prim_nquant]. *)
Theorem transformNxN_int16 X265_DEPTH g_goRiceRange getGroupIdx primitives q cu fenc
    fencStride residual stride coeff log2TrSize ttype useTransformSkip curUseRDOQ
    (i : nat) :
  valid_encode X265_DEPTH primitives q cu fenc fencStride residual stride coeff log2TrSize
    ttype useTransformSkip curUseRDOQ = true ->
  let out := snd (fst (transformNxN X265_DEPTH g_goRiceRange getGroupIdx primitives q cu
                         fenc fencStride residual stride coeff log2TrSize ttype
                         useTransformSkip curUseRDOQ)) in
  (i < length out)%nat ->
  -32768 <= out !!! i <= 32767.
Proof.
  intros Hv out Hi.
  destruct (transformNxN_spec X265_DEPTH g_goRiceRange getGroupIdx primitives q cu fenc
              fencStride residual stride coeff log2TrSize ttype useTransformSkip curUseRDOQ
              Hv) as (q' & o & n & Heq & _ & Hrg & _).
  subst out. rewrite Heq in *. cbn [fst snd] in *. apply Hrg. exact Hi.
Qed.

(** DCT coefficients of a 4x4 block that reach the clamp of line 305: the
    level 62500 of position 0 is clipped to 32767, the sum with the level 2
    of position 12 is odd against the sign bit 0, and position 0 has the
    lowest cost (its [deltaU] is 168), so the sign-bit hiding selects a
    coefficient equal to 32767 and turns its change +1 into -1. *)
Definition dct_large_example : list Z :=
  [2000021; 0; 0; 0; 0; 0; 0; 0; 0; 0; 0; 0; 64; 0; 0; 0].

Lemma transformNxN_int16_witness :
  let out := snd (fst (transformNxN 8 g_goRiceRange_hevc getGroupIdx_hevc primitives_example
                         (quant_example dct_large_example) cu_example [] 0 [] 0
                         (replicate 16 0) 2 TEXT_LUMA false false)) in
  out !!! 0%nat = 32766 /\ -32768 <= out !!! 0%nat <= 32767.
Proof.
  intros out. split; [vm_compute; reflexivity|].
  apply (transformNxN_int16 8 g_goRiceRange_hevc getGroupIdx_hevc primitives_example
           (quant_example dct_large_example) cu_example [] 0 [] 0 (replicate 16 0) 2
           TEXT_LUMA false false 0).
  - vm_compute. reflexivity.
  - vm_compute. lia.
Defined.

(** ** RDOQ against the plain-quant candidate *)

(** The candidate magnitude the specification compares RDOQ with:
    [ceil(|dct * quantCoef| / 2^qbits)]. *)
Definition plainQuantCandidate (dct quantCoef qbits : Z) : Z :=
  (Z.abs (dct * quantCoef) + 2 ^ qbits - 1) / 2 ^ qbits.

(** The candidate at a position of a call of [rdoQuant]. *)
Definition rdoCandidateBound (X265_DEPTH : Z) (q : Quant) (cu : TComDataCU) (log2TrSize : Z)
    (ttype : TextType) (i : nat) : Z :=
  plainQuantCandidate (m_resiDctCoeff q !!! i)
    (m_quantCoef (m_scalingList q) (log2TrSize - 2) (scalingListTypeOf cu ttype)
       (rem (m_qpParam q ttype)) !!! i)
    (QUANT_SHIFT + per (m_qpParam q ttype)
     + (MAX_TR_DYNAMIC_RANGE - X265_DEPTH - log2TrSize)).

Lemma quant_level_le_candidate (c qc qbits : Z) :
  0 <= qc -> 1 <= qbits ->
  quant_level c qc qbits (Z.shiftl 1 (qbits - 1)) <= plainQuantCandidate c qc qbits.
Proof.
  intros Hq Hb. unfold quant_level, plainQuantCandidate.
  rewrite Z.shiftr_div_pow2 by lia. rewrite Z.shiftl_mul_pow2 by lia.
  rewrite Z.abs_mul, (Z.abs_eq qc) by exact Hq.
  assert (Hp : 2 ^ qbits = 2 * 2 ^ (qbits - 1)).
  { replace qbits with (1 + (qbits - 1)) at 1 by lia.
    rewrite Z.pow_add_r by lia. reflexivity. }
  assert (0 < 2 ^ (qbits - 1)) by (apply Z.pow_pos_nonneg; lia).
  apply Z.div_le_mono; lia.
Qed.

(** C3, as amended.  On every valid call of [rdoQuant] the magnitude of an
    output coefficient is at most the plain-quant candidate
    [ceil(|dct * quantCoef| / 2^qbits)] when sign-bit hiding is disabled, and
    at most one more when it is enabled: the level search keeps the level of
    [primitives.nquant] or lowers it, and the RDO sign-bit hiding moves one
    coefficient of a group by one, upwards too.  The kernel
    [primitives.nquant] is [prim_nquant]. *)
Theorem rdoQuant_candidate_bound X265_DEPTH g_goRiceRange getGroupIdx q cu coeff log2TrSize
    ttype (i : nat) :
  valid_call X265_DEPTH q cu coeff log2TrSize ttype = true ->
  valid_rdoq q cu log2TrSize ttype = true ->
  let out := fst (rdoQuant X265_DEPTH g_goRiceRange getGroupIdx q cu coeff log2TrSize ttype) in
  (i < length out)%nat ->
  Z.abs (out !!! i)
  <= rdoCandidateBound X265_DEPTH q cu log2TrSize ttype i
     + (if bSignHideEnabled cu then 1 else 0).
Proof.
  intros Hv Hr out Hi.
  destruct (valid_call_parts _ _ _ _ _ _ Hv) as (Hl & Hqb & _ & _ & _ & _ & Hqc).
  destruct (rdoQuant_spec X265_DEPTH g_goRiceRange getGroupIdx q cu coeff log2TrSize ttype
              Hv Hr) as (o & n & Heq & (Hlen & _) & Hmag).
  subst out. rewrite Heq in *. cbn [fst] in *.
  specialize (Hmag i ltac:(lia)). unfold nquantLevel in Hmag. unfold rdoCandidateBound.
  pose proof (quant_level_le_candidate (m_resiDctCoeff q !!! i)
                (m_quantCoef (m_scalingList q) (log2TrSize - 2) (scalingListTypeOf cu ttype)
                   (rem (m_qpParam q ttype)) !!! i)
                (QUANT_SHIFT + per (m_qpParam q ttype)
                 + (MAX_TR_DYNAMIC_RANGE - X265_DEPTH - log2TrSize))
                (Hqc i) ltac:(lia)) as Hle.
  lia.
Qed.

Lemma rdoQuant_candidate_bound_witness :
  let q := quant_skewed dct_example in
  let out := fst (rdoQuant 8 g_goRiceRange_hevc getGroupIdx_hevc q cu_example
                    (replicate 16 0) 2 TEXT_LUMA) in
  Z.abs (out !!! 12%nat) <= rdoCandidateBound 8 q cu_example 2 TEXT_LUMA 12 + 1.
Proof.
  apply (rdoQuant_candidate_bound 8 g_goRiceRange_hevc getGroupIdx_hevc
           (quant_skewed dct_example) cu_example (replicate 16 0) 2 TEXT_LUMA 12).
  - vm_compute. reflexivity.
  - vm_compute. reflexivity.
  - vm_compute. lia.
Defined.

(** C3 as stated fails.  With the rate tables [est_skewed] the levels of
    [dct_example] stay 2 and 3 through the level search (the DCT
    coefficients are exact multiples of the step), their sum 5 is odd
    against the sign bit 0 of the first one, and the sign-bit hiding raises
    the level 3 at position 12 to 4 (going up is the cheaper change by
    rate): above the candidate [ceil(96 * 16384 / 2^19) = 3]. *)
Lemma rdoQuant_exceeds_candidate :
  let q := quant_skewed dct_example in
  let out := fst (rdoQuant 8 g_goRiceRange_hevc getGroupIdx_hevc q cu_example
                    (replicate 16 0) 2 TEXT_LUMA) in
  valid_call 8 q cu_example (replicate 16 0) 2 TEXT_LUMA = true /\
  valid_rdoq q cu_example 2 TEXT_LUMA = true /\
  out = [2; 0; 0; 0; 0; 0; 0; 0; 0; 0; 0; 0; 4; 0; 0; 0] /\
  rdoCandidateBound 8 q cu_example 2 TEXT_LUMA 12 = 3 /\
  ~ (forall i, (i < length out)%nat ->
       Z.abs (out !!! i) <= rdoCandidateBound 8 q cu_example 2 TEXT_LUMA i).
Proof.
  intros q out.
  assert (Hout : out = [2; 0; 0; 0; 0; 0; 0; 0; 0; 0; 0; 0; 4; 0; 0; 0])
    by (vm_compute; reflexivity).
  assert (Hc : rdoCandidateBound 8 q cu_example 2 TEXT_LUMA 12 = 3)
    by (vm_compute; reflexivity).
  split; [vm_compute; reflexivity|]. split; [vm_compute; reflexivity|].
  split; [exact Hout|]. split; [exact Hc|].
  intros H. specialize (H 12%nat). rewrite Hc, Hout in H.
  specialize (H ltac:(simpl; lia)). vm_compute in H. apply H. reflexivity.
Qed.

(* ================================================================== *)
(** * Part III: further properties of the code *)
(* ================================================================== *)

(** ** The branch-free helpers (lines 34, 47-50) *)

(** X1.  [fastMin] is the minimum of two [int] values whose difference does
    not overflow [int]. *)
Theorem fastMin_min (x y : Z) :
  -2147483648 <= x < 2147483648 ->
  -2147483648 <= y < 2147483648 ->
  -2147483648 <= x - y < 2147483648 ->
  fastMin x y = Z.min x y.
Proof.
  intros Hx Hy Hd. unfold fastMin. rewrite (s32_id (x - y)) by exact Hd.
  destruct (Z.ltb_spec (x - y) 0) as [Hneg|Hpos].
  - rewrite asr31_neg by lia. rewrite Z.land_m1_r. rewrite s32_id by lia. lia.
  - rewrite asr31_nonneg by lia. rewrite Z.land_0_r. rewrite s32_id by lia. lia.
Qed.

Lemma fastMin_min_witness : fastMin 9 8 = Z.min 9 8 /\ fastMin (-3) 5 = Z.min (-3) 5.
Proof. split; [apply (fastMin_min 9 8) | apply (fastMin_min (-3) 5)]; lia. Defined.

(** X2.  The macro [SIGN(x, y)] gives [x] the sign of [y]: it negates [x]
    when [y] is negative and returns [x] when [y] is zero or positive.  [x] is
    an [int] other than its minimum, whose negation does not exist. *)
Theorem SIGN_spec (x y : Z) :
  -2147483648 < x < 2147483648 ->
  -2147483648 <= y < 2147483648 ->
  SIGN x y = (if y <? 0 then - x else x).
Proof.
  intros Hx Hy. unfold SIGN. destruct (Z.ltb_spec y 0) as [Hneg|Hpos].
  - rewrite asr31_neg by lia. rewrite lxor_m1. rewrite s32_id by lia. lia.
  - rewrite asr31_nonneg by lia. rewrite Z.lxor_0_r, Z.sub_0_r. apply s32_id. lia.
Qed.

Lemma SIGN_spec_witness : SIGN 7 (-2) = -7 /\ SIGN (-7) 0 = -7.
Proof. split; [apply (SIGN_spec 7 (-2)) | apply (SIGN_spec (-7) 0)]; lia. Defined.

(** ** Noise reduction (lines 52-63) *)

(** X3.  [denoiseDct] touches the first [size] entries only: both arrays
    keep their lengths, and the coefficients and sums from index [size] on
    are the ones passed in. *)
Theorem denoiseDct_frame (dctCoef resSum off : list Z) (size : nat) (j : nat) :
  (size <= length dctCoef)%nat -> (size <= length resSum)%nat ->
  (size <= j)%nat ->
  let out := denoiseDct dctCoef resSum off size in
  length (fst out) = length dctCoef /\ length (snd out) = length resSum /\
  fst out !!! j = dctCoef !!! j /\ snd out !!! j = resSum !!! j.
Proof.
  intros Hd Hr Hj out.
  destruct (denoiseDct dctCoef resSum off size) as [d r] eqn:Heq.
  destruct (denoiseDct_pointwise dctCoef resSum off size Hd Hr d r Heq)
    as (Hl1 & Hl2 & _ & Hrest).
  subst out. cbn [fst snd]. destruct (Hrest j Hj) as [H1 H2].
  split; [exact Hl1|]. split; [exact Hl2|]. split; assumption.
Qed.

Lemma denoiseDct_frame_witness :
  let out := denoiseDct [5; -3; 7; -9] [1; 1; 1; 1] [2; 2; 2; 2] 2 in
  length (fst out) = 4%nat /\ length (snd out) = 4%nat /\
  fst out !!! 3%nat = -9 /\ snd out !!! 3%nat = 1.
Proof.
  apply (denoiseDct_frame [5; -3; 7; -9] [1; 1; 1; 1] [2; 2; 2; 2] 2 3);
    simpl; lia.
Defined.

(** X4.  The dead zone of [denoiseDct]: a coefficient whose magnitude does
    not exceed its offset becomes zero, and a coefficient whose offset is
    zero passes through unchanged.  The coefficients are [int] values other
    than the minimum, the offsets are 16-bit unsigned. *)
Theorem denoiseDct_dead_zone (dctCoef resSum off : list Z) (size : nat) (i : nat) :
  (size <= length dctCoef)%nat -> (size <= length resSum)%nat ->
  (i < size)%nat ->
  -2147483648 < dctCoef !!! i < 2147483648 ->
  0 <= off !!! i < 65536 ->
  let out := fst (denoiseDct dctCoef resSum off size) in
  (Z.abs (dctCoef !!! i) <= off !!! i -> out !!! i = 0) /\
  (off !!! i = 0 -> out !!! i = dctCoef !!! i).
Proof.
  intros Hd Hr Hi Hc Ho out.
  destruct (denoiseDct dctCoef resSum off size) as [d r] eqn:Heq.
  destruct (denoiseDct_pointwise dctCoef resSum off size Hd Hr d r Heq)
    as (_ & _ & Hin & _).
  subst out. cbn [fst]. destruct (Hin i Hi) as [Hv _]. rewrite Hv.
  destruct (denoise_coef_spec (dctCoef !!! i) (off !!! i) Hc Ho) as [Habs Hsgn].
  split.
  - intros Hle. lia.
  - intros H0. rewrite H0 in *.
    destruct (Z.eq_dec (denoise_coef (dctCoef !!! i) 0) 0) as [He|Hne].
    + rewrite He in *. lia.
    + specialize (Hsgn Hne).
      pose proof (Z.sgn_spec (denoise_coef (dctCoef !!! i) 0)) as H1.
      pose proof (Z.sgn_spec (dctCoef !!! i)) as H2. lia.
Qed.

Lemma denoiseDct_dead_zone_witness :
  let out := fst (denoiseDct [5; -3; 7; -9] [1; 1; 1; 1] [0; 4; 2; 2] 4) in
  (Z.abs (-3) <= 4 -> out !!! 1%nat = 0) /\ (4 = 0 -> out !!! 1%nat = -3).
Proof.
  apply (denoiseDct_dead_zone [5; -3; 7; -9] [1; 1; 1; 1] [0; 4; 2; 2] 4 1);
    simpl; lia.
Defined.

(** ** The bypass copy of [invtransformNxN] (lines 429-436) *)

(** X5.  With transform-quant bypass [invtransformNxN] writes the
    [trSize x trSize] window of the residual buffer only: the buffer keeps
    its length, and every sample that is not at [k * stride + j] for a row
    [k] and a column [j] of the block (the padding between the rows when the
    stride exceeds the block width, and whatever follows the block) is the
    one passed in. *)
Theorem invtransformNxN_bypass_frame (inverseKernels : list Z -> list Z -> list Z)
    (residual : list Z) (stride : nat) (coeff : list Z) (log2TrSize : Z) (p : nat) :
  let T := Z.to_nat (Z.shiftl 1 log2TrSize) in
  let out := invtransformNxN inverseKernels true residual stride coeff log2TrSize in
  (forall k j, (k < T)%nat -> (j < T)%nat -> p <> (k * stride + j)%nat) ->
  length out = length residual /\ out !!! p = residual !!! p.
Proof.
  intros T out Hp. subst out. unfold invtransformNxN, invtransformBypass. fold T.
  pose (Q := fun (idx : nat) (r : list Z) =>
    length r = length residual /\ r !!! p = residual !!! p).
  assert (HQ : Q (T * T)%nat
    (for_up T 0 (fun k r => for_up T 0 (invBypassCopy coeff stride T k) r) residual)).
  { apply nested_for_up_ind.
    - split; reflexivity.
    - intros k j r Hk Hj [Hl Hv]. unfold Q, invBypassCopy.
      rewrite length_insert. split; [exact Hl|].
      rewrite list_lookup_total_insert_ne; [exact Hv|].
      intros He. apply (Hp k j Hk Hj). symmetry. exact He. }
  exact HQ.
Qed.

Lemma invtransformNxN_bypass_frame_witness :
  let out := invtransformNxN (fun r _ => r) true residual_example 8
               (replicate 16 1) 2 in
  length out = length residual_example /\ out !!! 4%nat = residual_example !!! 4%nat.
Proof.
  apply (invtransformNxN_bypass_frame (fun r _ => r) residual_example 8 (replicate 16 1) 2 4).
  intros k j Hk Hj. change (Z.to_nat (Z.shiftl 1 2)) with 4%nat in *. lia.
Defined.

(** ** Context derivation (lines 998-1077, 1105-1118) *)

(** The flag of the coefficient group at column [cgPosX] and row [cgPosY] in
    the significance map [sigCoeffGroupFlag64]: bit
    [(cgPosY << log2TrSizeCG) + cgPosX], the bit line 806 sets. *)
Definition cgFlagged (flag log2TrSizeCG cgPosX cgPosY : Z) : bool :=
  Z.testbit flag (Z.shiftl cgPosY log2TrSizeCG + cgPosX).

(** The group to the right is inside the block and flagged. *)
Definition sigRightCG (flag log2TrSizeCG cgPosX cgPosY : Z) : bool :=
  (cgPosX <? Z.shiftl 1 log2TrSizeCG - 1) && cgFlagged flag log2TrSizeCG (cgPosX + 1) cgPosY.

(** The group below is inside the block and flagged. *)
Definition sigLowerCG (flag log2TrSizeCG cgPosX cgPosY : Z) : bool :=
  (cgPosY <? Z.shiftl 1 log2TrSizeCG - 1) && cgFlagged flag log2TrSizeCG cgPosX (cgPosY + 1).

Lemma edge_mask (x t : Z) :
  0 <= x < 2147483648 -> 0 <= t < 2147483648 ->
  u32 (asr31 (s32 (x - t))) = if x <? t then 4294967295 else 0.
Proof.
  intros Hx Ht. rewrite s32_id by lia. destruct (Z.ltb_spec x t).
  - rewrite asr31_neg by lia. reflexivity.
  - rewrite asr31_nonneg by lia. reflexivity.
Qed.

Lemma testbit_u32 (a n : Z) : 0 <= n < 32 -> Z.testbit (u32 a) n = Z.testbit a n.
Proof.
  intros Hn. unfold u32. change 4294967296 with (2 ^ 32).
  apply Z.mod_pow2_bits_low. lia.
Qed.

Lemma land_1_bit (a : Z) : Z.land a 1 = Z.b2z (Z.testbit a 0).
Proof. rewrite land1_mod2. symmetry. apply Z.bit0_mod. Qed.

Lemma land_2_bit (a : Z) : Z.land a 2 = 2 * Z.b2z (Z.testbit a 1).
Proof.
  apply Z.bits_inj'. intros n Hn. rewrite Z.land_spec.
  change 2 with (2 ^ 1) at 1. rewrite Z.pow2_bits_eqb by lia.
  destruct (Z.testbit a 1) eqn:Hb.
  - change (2 * Z.b2z true) with (2 ^ 1). rewrite Z.pow2_bits_eqb by lia.
    destruct (Z.eqb_spec 1 n) as [<-|Hne]; [rewrite Hb; reflexivity|].
    apply andb_false_r.
  - change (2 * Z.b2z false) with 0. rewrite Z.bits_0.
    destruct (Z.eqb_spec 1 n) as [<-|Hne]; [rewrite Hb; reflexivity|].
    apply andb_false_r.
Qed.

Lemma land_mask32 (c : bool) (v : Z) :
  0 <= v < 4294967296 -> Z.land (if c then 4294967295 else 0) v = if c then v else 0.
Proof.
  intros Hv. destruct c; [|apply Z.land_0_l].
  rewrite Z.land_comm. change 4294967295 with (Z.ones 32).
  rewrite Z.land_ones by lia. apply Z.mod_small. change (2 ^ 32) with 4294967296. lia.
Qed.

(** The bits of the shifted map that the two functions test: bit 0 is the
    flag of the group to the right, bit [trSizeCG - 1] the flag of the group
    below. *)
Lemma sigPos_bits (flag log2TrSizeCG cgPosX cgPosY : Z) :
  0 <= log2TrSizeCG <= 3 -> 0 <= cgPosX -> 0 <= cgPosY ->
  let sigPos := u32 (Z.shiftr flag (1 + Z.shiftl cgPosY log2TrSizeCG + cgPosX)) in
  0 <= sigPos < 4294967296 /\
  Z.testbit sigPos 0 = cgFlagged flag log2TrSizeCG (cgPosX + 1) cgPosY /\
  Z.testbit sigPos (Z.shiftl 1 log2TrSizeCG - 1)
  = cgFlagged flag log2TrSizeCG cgPosX (cgPosY + 1).
Proof.
  intros Hl Hx Hy sigPos. unfold cgFlagged.
  assert (HT : 1 <= Z.shiftl 1 log2TrSizeCG <= 8).
  { assert (Hc : log2TrSizeCG = 0 \/ log2TrSizeCG = 1 \/ log2TrSizeCG = 2 \/ log2TrSizeCG = 3)
      by lia.
    destruct Hc as [-> | [-> | [-> | ->]]]; vm_compute; split; discriminate. }
  assert (Hs : 0 <= Z.shiftl cgPosY log2TrSizeCG) by (apply Z.shiftl_nonneg; lia).
  split; [apply u32_range|]. subst sigPos. split.
  - rewrite testbit_u32 by lia. rewrite Z.shiftr_spec by lia. f_equal. lia.
  - rewrite testbit_u32 by lia. rewrite Z.shiftr_spec by lia. f_equal.
    rewrite !Z.shiftl_mul_pow2 in * by lia. lia.
Qed.

Lemma getSigCoeffGroupCtxInc_bits (flag log2TrSizeCG cgPosX cgPosY : Z) :
  0 <= log2TrSizeCG <= 3 ->
  0 <= cgPosX < Z.shiftl 1 log2TrSizeCG -> 0 <= cgPosY < Z.shiftl 1 log2TrSizeCG ->
  getSigCoeffGroupCtxInc flag cgPosX cgPosY log2TrSizeCG
  = Z.b2z (sigRightCG flag log2TrSizeCG cgPosX cgPosY
           || sigLowerCG flag log2TrSizeCG cgPosX cgPosY).
Proof.
  intros Hl Hx Hy. unfold getSigCoeffGroupCtxInc, sigRightCG, sigLowerCG.
  destruct (sigPos_bits flag log2TrSizeCG cgPosX cgPosY Hl ltac:(lia) ltac:(lia))
    as (Hrange & Hb0 & HbT).
  set (sigPos := u32 (Z.shiftr flag (1 + Z.shiftl cgPosY log2TrSizeCG + cgPosX))) in *.
  set (T := Z.shiftl 1 log2TrSizeCG) in *.
  assert (HT : 1 <= T <= 8).
  { subst T.
    assert (Hc : log2TrSizeCG = 0 \/ log2TrSizeCG = 1 \/ log2TrSizeCG = 2 \/ log2TrSizeCG = 3)
      by lia.
    destruct Hc as [-> | [-> | [-> | ->]]]; vm_compute; split; discriminate. }
  rewrite !edge_mask by lia.
  assert (Hsh : 0 <= Z.shiftr sigPos (T - 1) < 4294967296).
  { rewrite Z.shiftr_div_pow2 by lia.
    assert (0 < 2 ^ (T - 1)) by (apply Z.pow_pos_nonneg; lia).
    split; [apply Z.div_pos; lia|].
    apply Z.div_lt_upper_bound; [lia|]. nia. }
  rewrite !land_mask32 by assumption.
  rewrite land_1_bit, Z.lor_spec. f_equal. f_equal.
  - destruct (cgPosX <? T - 1); [exact Hb0 | reflexivity].
  - destruct (cgPosY <? T - 1); [|reflexivity].
    rewrite Z.shiftr_spec by lia. rewrite Z.add_0_l. exact HbT.
Qed.

Lemma calcPatternSigCtx_bits (flag log2TrSizeCG cgPosX cgPosY : Z) :
  1 <= log2TrSizeCG <= 3 ->
  0 <= cgPosX < Z.shiftl 1 log2TrSizeCG -> 0 <= cgPosY < Z.shiftl 1 log2TrSizeCG ->
  calcPatternSigCtx flag cgPosX cgPosY log2TrSizeCG
  = Z.b2z (sigRightCG flag log2TrSizeCG cgPosX cgPosY)
    + 2 * Z.b2z (sigLowerCG flag log2TrSizeCG cgPosX cgPosY).
Proof.
  intros Hl Hx Hy. unfold calcPatternSigCtx, sigRightCG, sigLowerCG.
  destruct (Z.eqb_spec log2TrSizeCG 0) as [He|_]; [lia|].
  destruct (sigPos_bits flag log2TrSizeCG cgPosX cgPosY ltac:(lia) ltac:(lia) ltac:(lia))
    as (Hrange & Hb0 & HbT).
  set (sigPos := u32 (Z.shiftr flag (1 + Z.shiftl cgPosY log2TrSizeCG + cgPosX))) in *.
  set (T := Z.shiftl 1 log2TrSizeCG) in *.
  assert (HT : 2 <= T <= 8).
  { subst T.
    assert (Hc : log2TrSizeCG = 1 \/ log2TrSizeCG = 2 \/ log2TrSizeCG = 3) by lia.
    destruct Hc as [-> | [-> | ->]]; vm_compute; split; discriminate. }
  rewrite !edge_mask by lia.
  assert (Hsh : 0 <= Z.shiftr sigPos (T - 2) < 4294967296).
  { rewrite Z.shiftr_div_pow2 by lia.
    assert (0 < 2 ^ (T - 2)) by (apply Z.pow_pos_nonneg; lia).
    split; [apply Z.div_pos; lia|].
    apply Z.div_lt_upper_bound; [lia|]. nia. }
  assert (H1 : 0 <= Z.land sigPos 1 < 4294967296)
    by (rewrite land_1_bit; destruct (Z.testbit sigPos 0); simpl; lia).
  rewrite !land_mask32 by assumption.
  assert (Hr : (if cgPosX <? T - 1 then Z.land sigPos 1 else 0)
               = Z.b2z ((cgPosX <? T - 1)
                        && cgFlagged flag log2TrSizeCG (cgPosX + 1) cgPosY)).
  { destruct (cgPosX <? T - 1); [|reflexivity].
    rewrite land_1_bit, Hb0. reflexivity. }
  assert (Hw : Z.land (if cgPosY <? T - 1 then Z.shiftr sigPos (T - 2) else 0) 2
               = 2 * Z.b2z ((cgPosY <? T - 1)
                            && cgFlagged flag log2TrSizeCG cgPosX (cgPosY + 1))).
  { destruct (cgPosY <? T - 1); [|reflexivity].
    rewrite land_2_bit. rewrite Z.shiftr_spec by lia.
    replace (1 + (T - 2)) with (T - 1) by lia. rewrite HbT. reflexivity. }
  rewrite Hr, Hw. apply u32_id.
  destruct ((cgPosX <? T - 1) && cgFlagged flag log2TrSizeCG (cgPosX + 1) cgPosY);
    destruct ((cgPosY <? T - 1) && cgFlagged flag log2TrSizeCG cgPosX (cgPosY + 1));
    simpl; lia.
Qed.

(** X6.  [getSigCoeffGroupCtxInc] is 1 exactly when the coefficient group to
    the right or the one below is inside the block and flagged in the
    significance map, and 0 otherwise; for the bottom-right group, which has
    neither neighbour, it is 0 whatever the map holds.  The block has 1, 2, 4
    or 8 groups a side. *)
Theorem getSigCoeffGroupCtxInc_neighbours (flag log2TrSizeCG cgPosX cgPosY : Z) :
  0 <= log2TrSizeCG <= 3 ->
  0 <= cgPosX < Z.shiftl 1 log2TrSizeCG -> 0 <= cgPosY < Z.shiftl 1 log2TrSizeCG ->
  let ctx := getSigCoeffGroupCtxInc flag cgPosX cgPosY log2TrSizeCG in
  (ctx = 0 \/ ctx = 1) /\
  (ctx = 1 <-> sigRightCG flag log2TrSizeCG cgPosX cgPosY = true \/
               sigLowerCG flag log2TrSizeCG cgPosX cgPosY = true) /\
  (cgPosX = Z.shiftl 1 log2TrSizeCG - 1 -> cgPosY = Z.shiftl 1 log2TrSizeCG - 1 -> ctx = 0).
Proof.
  intros Hl Hx Hy ctx. subst ctx.
  rewrite (getSigCoeffGroupCtxInc_bits flag log2TrSizeCG cgPosX cgPosY Hl Hx Hy).
  split; [|split].
  - destruct (sigRightCG flag log2TrSizeCG cgPosX cgPosY || _); [right | left]; reflexivity.
  - destruct (sigRightCG flag log2TrSizeCG cgPosX cgPosY);
      destruct (sigLowerCG flag log2TrSizeCG cgPosX cgPosY); simpl; split;
      try (intros; reflexivity); try (intros; discriminate); auto.
    intros [H|H]; discriminate H.
  - intros Hx' Hy'. unfold sigRightCG, sigLowerCG.
    destruct (Z.ltb_spec cgPosX (Z.shiftl 1 log2TrSizeCG - 1)); [lia|].
    destruct (Z.ltb_spec cgPosY (Z.shiftl 1 log2TrSizeCG - 1)); [lia|]. reflexivity.
Qed.

Lemma getSigCoeffGroupCtxInc_neighbours_witness :
  let ctx := getSigCoeffGroupCtxInc 4 0 0 1 in
  (ctx = 0 \/ ctx = 1) /\
  (ctx = 1 <-> sigRightCG 4 1 0 0 = true \/ sigLowerCG 4 1 0 0 = true) /\
  (0 = Z.shiftl 1 1 - 1 -> 0 = Z.shiftl 1 1 - 1 -> ctx = 0).
Proof.
  apply (getSigCoeffGroupCtxInc_neighbours 4 1 0 0); [lia | |]; vm_compute; split;
    (discriminate || reflexivity).
Defined.

(** X7.  [calcPatternSigCtx] is the two-bit pattern of the same neighbours:
    bit 0 says that the group to the right is inside the block and flagged,
    bit 1 that the group below is; so it is one of 0, 1, 2, 3, the first
    index of [table_cnt], and it is 0 for a block of a single group. *)
Theorem calcPatternSigCtx_neighbours (flag log2TrSizeCG cgPosX cgPosY : Z) :
  0 <= log2TrSizeCG <= 3 ->
  0 <= cgPosX < Z.shiftl 1 log2TrSizeCG -> 0 <= cgPosY < Z.shiftl 1 log2TrSizeCG ->
  let pat := calcPatternSigCtx flag cgPosX cgPosY log2TrSizeCG in
  pat = Z.b2z (sigRightCG flag log2TrSizeCG cgPosX cgPosY)
        + 2 * Z.b2z (sigLowerCG flag log2TrSizeCG cgPosX cgPosY) /\
  0 <= pat <= 3 /\
  (log2TrSizeCG = 0 -> pat = 0).
Proof.
  intros Hl Hx Hy pat.
  assert (Hpat : pat = Z.b2z (sigRightCG flag log2TrSizeCG cgPosX cgPosY)
                       + 2 * Z.b2z (sigLowerCG flag log2TrSizeCG cgPosX cgPosY)).
  { subst pat. destruct (Z.eq_dec log2TrSizeCG 0) as [->|Hne].
    - change (Z.shiftl 1 0) with 1 in *. unfold calcPatternSigCtx, sigRightCG, sigLowerCG.
      change (Z.shiftl 1 0 - 1) with 0.
      destruct (Z.ltb_spec cgPosX 0); [lia|]. destruct (Z.ltb_spec cgPosY 0); [lia|].
      reflexivity.
    - apply calcPatternSigCtx_bits; lia. }
  split; [exact Hpat|]. split.
  - rewrite Hpat. destruct (sigRightCG flag log2TrSizeCG cgPosX cgPosY);
      destruct (sigLowerCG flag log2TrSizeCG cgPosX cgPosY); simpl; lia.
  - intros ->. reflexivity.
Qed.

Lemma calcPatternSigCtx_neighbours_witness :
  let pat := calcPatternSigCtx 6 0 0 1 in
  pat = Z.b2z (sigRightCG 6 1 0 0) + 2 * Z.b2z (sigLowerCG 6 1 0 0) /\
  0 <= pat <= 3 /\ (1 = 0 -> pat = 0).
Proof.
  apply (calcPatternSigCtx_neighbours 6 1 0 0); [lia | |]; vm_compute; split;
    (discriminate || reflexivity).
Defined.

(** X8.  The two context functions agree: the context increment of the
    coefficient-group flag is 1 exactly when the significance pattern of the
    group is not 0. *)
Theorem getSigCoeffGroupCtxInc_calcPatternSigCtx (flag log2TrSizeCG cgPosX cgPosY : Z) :
  0 <= log2TrSizeCG <= 3 ->
  0 <= cgPosX < Z.shiftl 1 log2TrSizeCG -> 0 <= cgPosY < Z.shiftl 1 log2TrSizeCG ->
  getSigCoeffGroupCtxInc flag cgPosX cgPosY log2TrSizeCG
  = (if calcPatternSigCtx flag cgPosX cgPosY log2TrSizeCG =? 0 then 0 else 1).
Proof.
  intros Hl Hx Hy.
  rewrite (getSigCoeffGroupCtxInc_bits flag log2TrSizeCG cgPosX cgPosY Hl Hx Hy).
  destruct (Z.eq_dec log2TrSizeCG 0) as [->|Hne].
  - change (Z.shiftl 1 0) with 1 in *. unfold calcPatternSigCtx, sigRightCG, sigLowerCG.
    change (Z.shiftl 1 0 - 1) with 0.
    destruct (Z.ltb_spec cgPosX 0); [lia|]. destruct (Z.ltb_spec cgPosY 0); [lia|].
    reflexivity.
  - rewrite (calcPatternSigCtx_bits flag log2TrSizeCG cgPosX cgPosY) by lia.
    destruct (sigRightCG flag log2TrSizeCG cgPosX cgPosY);
      destruct (sigLowerCG flag log2TrSizeCG cgPosX cgPosY); reflexivity.
Qed.

Lemma getSigCoeffGroupCtxInc_calcPatternSigCtx_witness :
  getSigCoeffGroupCtxInc 6 0 0 1 = (if calcPatternSigCtx 6 0 0 1 =? 0 then 0 else 1).
Proof.
  apply (getSigCoeffGroupCtxInc_calcPatternSigCtx 6 1 0 0); [lia | |]; vm_compute; split;
    (discriminate || reflexivity).
Defined.

Lemma table_cnt_range (p x y : Z) :
  0 <= p <= 3 -> 0 <= x <= 3 -> 0 <= y <= 3 ->
  0 <= ((table_cnt !!! Z.to_nat p) !!! Z.to_nat x) !!! Z.to_nat y <= 2.
Proof.
  intros Hp Hx Hy.
  assert (Cp : p = 0 \/ p = 1 \/ p = 2 \/ p = 3) by lia.
  assert (Cx : x = 0 \/ x = 1 \/ x = 2 \/ x = 3) by lia.
  assert (Cy : y = 0 \/ y = 1 \/ y = 2 \/ y = 3) by lia.
  destruct Cp as [-> | [-> | [-> | ->]]]; destruct Cx as [-> | [-> | [-> | ->]]];
    destruct Cy as [-> | [-> | [-> | ->]]]; vm_compute; split; discriminate.
Qed.

Lemma ctxIndMap_range (blkPos : Z) :
  0 <= blkPos < 16 -> 0 <= ctxIndMap !!! Z.to_nat blkPos <= 8.
Proof.
  intros H.
  assert (Hn : (Z.to_nat blkPos < 16)%nat) by lia.
  revert Hn. generalize (Z.to_nat blkPos). intros n Hn.
  do 16 (destruct n as [|n]; [vm_compute; split; discriminate|]). lia.
Qed.

(** X9.  The context of a significance flag stays inside its table: the DC
    position has context 0; in a 4x4 block the context is at most 8; in a
    larger block it is [firstSignificanceMapContext] plus at most 2 for
    chroma and for the luma positions of the first 4x4 sub-block, and plus 3
    to 5 for the other luma positions.  The pattern is one of 0..3 and the
    position lies in the block. *)
Theorem getSigCtxInc_range (patternSigCtx log2TrSize blkPos : Z) (bIsLuma : bool)
    (firstSignificanceMapContext : Z) :
  0 <= patternSigCtx <= 3 -> 2 <= log2TrSize <= 5 ->
  0 <= blkPos < Z.shiftl 1 (log2TrSize * 2) ->
  0 <= firstSignificanceMapContext < 1073741824 ->
  let trSize := Z.shiftl 1 log2TrSize in
  let ctx := getSigCtxInc patternSigCtx log2TrSize trSize blkPos bIsLuma
               firstSignificanceMapContext in
  let posX := Z.land blkPos (trSize - 1) in
  let posY := Z.shiftr blkPos log2TrSize in
  (blkPos = 0 -> ctx = 0) /\
  (log2TrSize = 2 -> 0 <= ctx <= 8) /\
  (blkPos <> 0 -> 2 < log2TrSize ->
   if bIsLuma && (4 <=? Z.lor posX posY)
   then firstSignificanceMapContext + 3 <= ctx <= firstSignificanceMapContext + 5
   else firstSignificanceMapContext <= ctx <= firstSignificanceMapContext + 2).
Proof.
  intros Hp Hl Hb Hf trSize ctx posX posY. subst ctx posX posY.
  unfold getSigCtxInc. split; [|split].
  - intros ->. reflexivity.
  - intros ->. change (Z.shiftl 1 (2 * 2)) with 16 in Hb.
    destruct (blkPos =? 0); [lia|]. change (2 =? 2) with true. cbv iota.
    apply ctxIndMap_range. exact Hb.
  - intros Hnz Hbig.
    destruct (Z.eqb_spec blkPos 0) as [He|_]; [contradiction|].
    destruct (Z.eqb_spec log2TrSize 2) as [He|_]; [lia|].
    assert (Hx : 0 <= Z.land blkPos 3 <= 3).
    { change 3 with (Z.ones 2). rewrite Z.land_ones by lia.
      pose proof (Z.mod_pos_bound blkPos (2 ^ 2) ltac:(lia)) as H.
      change (2 ^ 2) with 4 in *. change (Z.ones 2) with 3. lia. }
    assert (Hy : 0 <= Z.land (Z.shiftr blkPos log2TrSize) 3 <= 3).
    { change 3 with (Z.ones 2). rewrite Z.land_ones by lia.
      pose proof (Z.mod_pos_bound (Z.shiftr blkPos log2TrSize) (2 ^ 2) ltac:(lia)) as H.
      change (2 ^ 2) with 4 in *. change (Z.ones 2) with 3. lia. }
    pose proof (table_cnt_range patternSigCtx (Z.land blkPos 3)
                  (Z.land (Z.shiftr blkPos log2TrSize) 3) Hp Hx Hy) as Hc.
    set (cnt := ((table_cnt !!! Z.to_nat patternSigCtx) !!! Z.to_nat (Z.land blkPos 3))
                  !!! Z.to_nat (Z.land (Z.shiftr blkPos log2TrSize) 3)) in *.
    rewrite (s32_id (firstSignificanceMapContext + cnt)) by lia.
    destruct (bIsLuma && (4 <=? Z.lor (Z.land blkPos (trSize - 1))
                                   (Z.shiftr blkPos log2TrSize))).
    + rewrite u32_id by lia. lia.
    + rewrite u32_id by lia. lia.
Qed.

Lemma getSigCtxInc_range_witness :
  let ctx := getSigCtxInc 1 3 (Z.shiftl 1 3) 37 true 9 in
  (37 = 0 -> ctx = 0) /\ (3 = 2 -> 0 <= ctx <= 8) /\
  (37 <> 0 -> 2 < 3 ->
   if true && (4 <=? Z.lor (Z.land 37 (Z.shiftl 1 3 - 1)) (Z.shiftr 37 3))
   then 9 + 3 <= ctx <= 9 + 5 else 9 <= ctx <= 9 + 2).
Proof.
  apply (getSigCtxInc_range 1 3 37 true 9); [lia | lia | | lia].
  vm_compute; split; (discriminate || reflexivity).
Defined.

(** ** Sign-bit hiding is idempotent (lines 219-324, 888-992) *)

(** A pass over a block whose groups all hide their sign already returns the
    block and its count as they are. *)
Lemma sbhPass_hidden_fixed (wrap : Z -> Z)
    (search : list Z -> nat -> Z -> nat -> nat -> Z -> SbhSearch)
    (coef : list Z) (scan : list nat) (numCoeff K : nat) (q0 : list Z)
    (numSig0 lastCG0 : Z) :
  keepsParity wrap ->
  (forall q subPos lastCG firstNZ lastNZ signbit,
     SBH_THRESHOLD <= Z.of_nat lastNZ - Z.of_nat firstNZ ->
     (lastNZ < SCAN_SET_SIZE)%nat ->
     cgAt q scan subPos lastNZ <> 0 ->
     selected q coef scan subPos firstNZ signbit
       (search q subPos lastCG firstNZ lastNZ signbit)) ->
  scan_ok scan numCoeff = true ->
  Z.of_nat numCoeff < 4294967295 ->
  (K * SCAN_SET_SIZE <= numCoeff)%nat ->
  passInv coef numCoeff q0 numSig0 ->
  (forall g, (g < K)%nat -> signHidden q0 scan (g * SCAN_SET_SIZE)) ->
  exists lastCG,
    for_down K (sbhSubSet wrap search coef scan) (q0, numSig0, lastCG0)
    = (q0, numSig0, lastCG).
Proof.
  intros Hwrap Hsearch Hscan Hsmall HK Hinv Hhid.
  destruct (sbhPass_spec wrap search coef scan numCoeff Hwrap Hsearch
              (scan_ok_lt _ _ Hscan) (scan_ok_inj _ _ Hscan) Hsmall K q0 numSig0 lastCG0
              HK Hinv)
    as (q & numSig & lastCG & Heq & (Hlen & _ & Hn) & Hgroups & Hrest).
  destruct Hinv as (Hlen0 & _ & Hn0).
  assert (Hq : q = q0).
  { apply list_eq_total; [lia|]. intros blk _.
    destruct (classic_in_groups scan numCoeff K blk) as [(g & m & Hg & Hm & ->)|Hno].
    - destruct (Hgroups g Hg) as [_ [[_ Hsame]|[Hnot _]]].
      + apply (Hsame m Hm).
      + exfalso. apply Hnot. apply Hhid. exact Hg.
    - apply Hrest. intros g m Hg Hm He. apply Hno. exists g, m. auto. }
  exists lastCG. rewrite Heq. subst q. rewrite Hn, <- Hn0. reflexivity.
Qed.

(** X10.  The plain sign-bit hiding is idempotent: run on its own output,
    with the count it returned and whatever [int] deltas, it returns that
    output again.  The first input is a block as the quantiser leaves it:
    levels in the 16-bit range with the signs of the DCT coefficients, their
    count, a scan of distinct positions. *)
Theorem signBitHidingHDQ_idempotent (qCoef coef deltaUq deltaUq' : list Z) (numSig : Z)
    (cp : TUEntropyCodingParameters) :
  let numCoeff := (2 ^ (log2TrSizeCG cp * 2) * SCAN_SET_SIZE)%nat in
  let r := signBitHidingHDQ qCoef coef deltaUq numSig cp in
  (log2TrSizeCG cp <= 3)%nat ->
  scan_ok (scan cp) numCoeff = true ->
  length qCoef = numCoeff ->
  levels_ok coef qCoef = true ->
  all_int deltaUq = true -> all_int deltaUq' = true ->
  numSig = count_nonzero qCoef ->
  signBitHidingHDQ (fst r) coef deltaUq' (snd r) cp = r.
Proof.
  intros numCoeff r Hcg Hscan Hlen Hlev Hd Hd' Hn.
  assert (Hsmall : Z.of_nat numCoeff < 4294967295).
  { subst numCoeff. unfold SCAN_SET_SIZE.
    assert (H : (2 ^ (log2TrSizeCG cp * 2) <= 2 ^ 6)%nat)
      by (apply Nat.pow_le_mono_r; lia).
    change (2 ^ 6)%nat with 64%nat in H. lia. }
  assert (Hinv : passInv coef numCoeff qCoef numSig).
  { split; [exact Hlen|]. split; [|exact Hn].
    intros blk Hblk. apply levels_ok_at; [exact Hlev | lia]. }
  destruct (signBitHidingHDQ_spec qCoef coef deltaUq numSig cp numCoeff
              ltac:(subst numCoeff; lia) Hsmall Hscan Hd Hinv)
    as (q' & numSig' & Heq & Hinv' & Hgroups & _).
  subst r. rewrite Heq. cbn [fst snd].
  unfold signBitHidingHDQ, hdqSubSet.
  destruct (sbhPass_hidden_fixed u32
              (fun (qCoef : list Z) (subPos : nat) (lastCG : Z)
                   (firstNZPosInCG lastNZPosInCG : nat) (signbit : Z) =>
                 hdqSearch qCoef coef deltaUq' (scan cp) subPos lastCG firstNZPosInCG
                   lastNZPosInCG signbit)
              coef (scan cp) numCoeff (2 ^ (log2TrSizeCG cp * 2)) q' numSig' 1)
    as (lastCG & Hfix).
  - exact u32_keepsParity.
  - intros q subPos lastCG firstNZ lastNZ signbit Hth Hl Hnz.
    apply (hdqSearch_selected q coef deltaUq' (scan cp) subPos lastCG firstNZ lastNZ signbit);
      try assumption.
    intros i. apply all_int_lookup. exact Hd'.
  - exact Hscan.
  - exact Hsmall.
  - subst numCoeff. lia.
  - exact Hinv'.
  - intros g Hg. apply Hgroups. exact Hg.
  - rewrite Hfix. reflexivity.
Qed.

Lemma signBitHidingHDQ_idempotent_witness :
  let coef := [100; -40; 33; 0; 70; 0; 0; 0; -31; 0; 0; 0; 0; 0; 0; 32] in
  let qCoef := [3; -1; 1; 0; 2; 0; 0; 0; -1; 0; 0; 0; 0; 0; 0; 1] in
  let r := signBitHidingHDQ qCoef coef (replicate 16 7) 6 cp_example in
  signBitHidingHDQ (fst r) coef (replicate 16 (-3)) (snd r) cp_example = r.
Proof.
  intros coef qCoef r.
  apply (signBitHidingHDQ_idempotent qCoef coef (replicate 16 7) (replicate 16 (-3)) 6
           cp_example).
  - simpl. lia.
  - vm_compute. reflexivity.
  - reflexivity.
  - vm_compute. reflexivity.
  - reflexivity.
  - reflexivity.
  - reflexivity.
Defined.

(** X11.  The sign-bit hiding of RDOQ is idempotent on the same cost arrays:
    run on its own output with the count it returned, it returns that output
    again.  The first input holds levels in the 16-bit range with the signs
    of the DCT coefficients and their count; the cost arrays hold [int]
    values, [rdFactor] fits 32 bits, and the groups up to [cgLastScanPos] lie
    in the block. *)
Theorem rdoSignBitHiding_idempotent (q : Quant) (cu : TComDataCU) (log2TrSize : Z)
    (ttype : TextType) (s : RdoState) (dst : list Z) (numSig : Z) (numCoeff : nat) :
  let r := rdoSignBitHiding q cu log2TrSize ttype s dst numSig in
  scan_ok (scan (getTUEntropyCodingParameters cu log2TrSize (isLuma ttype))) numCoeff = true ->
  Z.of_nat numCoeff < 4294967295 ->
  (Z.to_nat (cgLastScanPos s + 1) * SCAN_SET_SIZE <= numCoeff)%nat ->
  Z.abs (rdoFactor q ttype) <= 2147483648 ->
  all_int (deltaU s) = true -> all_int (rateIncDown s) = true ->
  length dst = numCoeff ->
  levels_ok (m_resiDctCoeff q) dst = true ->
  numSig = count_nonzero dst ->
  rdoSignBitHiding q cu log2TrSize ttype s (fst r) (snd r) = r.
Proof.
  intros r Hscan Hsmall HK Hrd HdU Hdown Hlen Hlev Hn.
  set (cp := getTUEntropyCodingParameters cu log2TrSize (isLuma ttype)) in *.
  assert (Hinv : passInv (m_resiDctCoeff q) numCoeff dst numSig).
  { split; [exact Hlen|]. split; [|exact Hn].
    intros blk Hblk. apply levels_ok_at; [exact Hlev | lia]. }
  assert (Hsearch : forall d subPos lastCG firstNZ lastNZ signbit,
            SBH_THRESHOLD <= Z.of_nat lastNZ - Z.of_nat firstNZ ->
            (lastNZ < SCAN_SET_SIZE)%nat ->
            cgAt d (scan cp) subPos lastNZ <> 0 ->
            selected d (m_resiDctCoeff q) (scan cp) subPos firstNZ signbit
              (rdoSearch q cu log2TrSize ttype s (rdoFactor q ttype) d subPos lastCG
                 firstNZ lastNZ signbit)).
  { intros d subPos lastCG firstNZ lastNZ signbit Hth Hl Hnz.
    apply (rdoSearch_selected q cu log2TrSize ttype s (rdoFactor q ttype) d subPos lastCG
             firstNZ lastNZ signbit); try assumption.
    - intros i. apply all_int_lookup. exact HdU.
    - intros i. apply all_int_lookup. exact Hdown. }
  destruct (sbhPass_spec s32 (rdoSearch q cu log2TrSize ttype s (rdoFactor q ttype))
              (m_resiDctCoeff q) (scan cp) numCoeff s32_keepsParity Hsearch
              (scan_ok_lt _ _ Hscan) (scan_ok_inj _ _ Hscan) Hsmall
              (Z.to_nat (cgLastScanPos s + 1)) dst numSig 1 HK Hinv)
    as (out & n & lastCG & Heq & Hout & Hgroups & _).
  destruct (sbhPass_hidden_fixed s32 (rdoSearch q cu log2TrSize ttype s (rdoFactor q ttype))
              (m_resiDctCoeff q) (scan cp) numCoeff (Z.to_nat (cgLastScanPos s + 1)) out n 1
              s32_keepsParity Hsearch Hscan Hsmall HK Hout)
    as (lastCG' & Hfix).
  { intros g Hg. apply Hgroups. exact Hg. }
  subst r. unfold rdoSignBitHiding. fold cp. rewrite Heq. cbn [fst snd].
  rewrite Hfix. reflexivity.
Qed.

Lemma rdoSignBitHiding_idempotent_witness :
  let q := quant_skewed dct_example in
  let nq := prim_nquant (m_resiDctCoeff q) (replicate 16 16384) (replicate 1024 0)
              (replicate 16 0) 19 262144 16 in
  let s := rdoScan 8 g_goRiceRange_hevc q cu_example 2 TEXT_LUMA (fst (fst nq))
             (snd (fst nq)) in
  let dst := [2; 0; 0; 0; 0; 0; 0; 0; 0; 0; 0; 0; 3; 0; 0; 0] in
  let r := rdoSignBitHiding q cu_example 2 TEXT_LUMA s dst 2 in
  fst r = [2; 0; 0; 0; 0; 0; 0; 0; 0; 0; 0; 0; 4; 0; 0; 0] /\
  rdoSignBitHiding q cu_example 2 TEXT_LUMA s (fst r) (snd r) = r.
Proof.
  intros q nq s dst r. split; [vm_compute; reflexivity|].
  apply (rdoSignBitHiding_idempotent q cu_example 2 TEXT_LUMA s dst 2 16).
  - vm_compute. reflexivity.
  - lia.
  - vm_compute. lia.
  - vm_compute. discriminate.
  - vm_compute. reflexivity.
  - vm_compute. reflexivity.
  - reflexivity.
  - vm_compute. reflexivity.
  - reflexivity.
Defined.

(** ** The dead zone of the quantisers (lines 326-351, 510-520) *)

Lemma quant_level_zero (c qc qBits add : Z) :
  0 <= qBits -> 0 <= qc -> 0 <= add ->
  Z.abs c * qc + add < 2 ^ qBits ->
  saturate_sign c (quant_level c qc qBits add) = 0.
Proof.
  intros Hb Hq Ha Hlt. unfold quant_level.
  rewrite Z.shiftr_div_pow2 by lia. rewrite Z.div_small by nia.
  unfold saturate_sign. destruct (c <? 0); reflexivity.
Qed.

Lemma all_zero_replicate (l : list Z) (n : nat) :
  length l = n -> (forall i, (i < n)%nat -> l !!! i = 0) -> l = replicate n 0.
Proof.
  intros Hlen H. apply list_eq_total.
  - rewrite length_replicate. exact Hlen.
  - intros i Hi. rewrite H by lia. symmetry. apply lookup_total_replicate_2. lia.
Qed.

(** X12.  The dead zone of plain quantisation: when every scaled DCT
    coefficient plus the rounding offset stays below one quantiser step,
    [quant] returns the all-zero block and [numSig] 0, and the sign-bit
    hiding does not run.  The kernel [primitives.quant] is [prim_quant]. *)
Theorem quant_dead_zone X265_DEPTH q cu coeff log2TrSize ttype :
  let qbits := QUANT_SHIFT + per (m_qpParam q ttype)
               + (MAX_TR_DYNAMIC_RANGE - X265_DEPTH - log2TrSize) in
  let add := Z.shiftl (if sliceIsI cu then 171 else 85) (qbits - 9) in
  let quantCoeff := m_quantCoef (m_scalingList q) (log2TrSize - 2)
                      (scalingListTypeOf cu ttype) (rem (m_qpParam q ttype)) in
  let numCoeff := Z.to_nat (Z.shiftl 1 (log2TrSize * 2)) in
  valid_call X265_DEPTH q cu coeff log2TrSize ttype = true ->
  (forall i, (i < numCoeff)%nat ->
     Z.abs (m_resiDctCoeff q !!! i) * quantCoeff !!! i + add < 2 ^ qbits) ->
  quant X265_DEPTH q cu coeff log2TrSize ttype = (replicate numCoeff 0, 0).
Proof.
  intros qbits add quantCoeff numCoeff Hv Hdead.
  destruct (valid_call_parts _ _ _ _ _ _ Hv) as (Hl & Hqb & Hlen & Hscan & Hsz & Hsmall & Hqc).
  fold qbits in Hqb. fold quantCoeff in Hqc. fold numCoeff in Hlen.
  assert (Hadd : 0 <= add <= 2 ^ qbits).
  { unfold add. rewrite Z.shiftl_mul_pow2 by lia.
    assert (Hp : 2 ^ qbits = 512 * 2 ^ (qbits - 9)).
    { replace qbits with (9 + (qbits - 9)) at 1 by lia.
      rewrite Z.pow_add_r by lia. reflexivity. }
    assert (0 < 2 ^ (qbits - 9)) by (apply Z.pow_pos_nonneg; lia).
    rewrite Hp. destruct (sliceIsI cu); nia. }
  unfold quant. fold qbits. fold add. fold quantCoeff. fold numCoeff.
  destruct (prim_quant_spec (m_resiDctCoeff q) quantCoeff (replicate (32 * 32) 0) coeff
              qbits add numCoeff)
    as (dU & q' & n & Heq & (Hlen' & _ & Hn) & _ & Hval); try assumption; try lia.
  { apply all_int_Forall. apply Forall_replicate. lia. }
  rewrite Heq.
  assert (Hzero : forall i, (i < numCoeff)%nat -> q' !!! i = 0).
  { intros i Hi. rewrite Hval by exact Hi.
    apply quant_level_zero; [lia | apply Hqc | lia | apply Hdead; exact Hi]. }
  assert (Hn0 : n = 0).
  { rewrite Hn. apply count_nonzero_zero. intros i Hi. apply Hzero. lia. }
  rewrite Hn0. change ((2 <=? 0) && bSignHideEnabled cu) with false. cbv iota.
  f_equal. apply all_zero_replicate; assumption.
Qed.

(** DCT coefficients of a 4x4 block below the dead zone of [quant_example]:
    magnitudes up to 21 against a step of 32 and a rounding offset of a
    third. *)
Definition dct_small_example : list Z :=
  [21; -20; 7; 0; -21; 0; 3; 0; -1; 0; 0; 0; 0; 0; 0; 15].

Lemma quant_dead_zone_witness :
  quant 8 (quant_example dct_small_example) cu_example (replicate 16 5) 2 TEXT_LUMA
  = (replicate 16 0, 0).
Proof.
  apply (quant_dead_zone 8 (quant_example dct_small_example) cu_example (replicate 16 5) 2
           TEXT_LUMA).
  - vm_compute. reflexivity.
  - intros i Hi. change (Z.to_nat (Z.shiftl 1 (2 * 2))) with 16%nat in Hi.
    do 16 (destruct i as [|i]; [vm_compute; reflexivity|]). lia.
Defined.

(** X13.  The dead zone of RDOQ: when every scaled DCT coefficient is below
    half a quantiser step, [rdoQuant] returns the all-zero block and
    [numSig] 0 straight after [primitives.nquant], before any rate is
    looked up.  The kernel [primitives.nquant] is [prim_nquant]. *)
Theorem rdoQuant_dead_zone X265_DEPTH g_goRiceRange getGroupIdx q cu coeff log2TrSize ttype :
  let qbits := QUANT_SHIFT + per (m_qpParam q ttype)
               + (MAX_TR_DYNAMIC_RANGE - X265_DEPTH - log2TrSize) in
  let quantCoeff := m_quantCoef (m_scalingList q) (log2TrSize - 2)
                      (scalingListTypeOf cu ttype) (rem (m_qpParam q ttype)) in
  let numCoeff := Z.to_nat (Z.shiftl 1 (log2TrSize * 2)) in
  valid_call X265_DEPTH q cu coeff log2TrSize ttype = true ->
  (forall i, (i < numCoeff)%nat ->
     Z.abs (m_resiDctCoeff q !!! i) * quantCoeff !!! i < 2 ^ (qbits - 1)) ->
  rdoQuant X265_DEPTH g_goRiceRange getGroupIdx q cu coeff log2TrSize ttype
  = (replicate numCoeff 0, 0).
Proof.
  intros qbits quantCoeff numCoeff Hv Hdead.
  destruct (valid_call_parts _ _ _ _ _ _ Hv) as (Hl & Hqb & Hlen & Hscan & Hsz & Hsmall & Hqc).
  fold qbits in Hqb. fold quantCoeff in Hqc. fold numCoeff in Hlen.
  unfold rdoQuant. fold qbits. fold quantCoeff. fold numCoeff.
  set (add := Z.shiftl 1 (qbits - 1)).
  assert (Hadd : add = 2 ^ (qbits - 1))
    by (unfold add; rewrite Z.shiftl_mul_pow2 by lia; lia).
  assert (Hp : 2 ^ qbits = 2 * 2 ^ (qbits - 1)).
  { replace qbits with (1 + (qbits - 1)) at 1 by lia.
    rewrite Z.pow_add_r by lia. reflexivity. }
  assert (Hpos : 0 < 2 ^ (qbits - 1)) by (apply Z.pow_pos_nonneg; lia).
  destruct (prim_nquant_spec (m_resiDctCoeff q) quantCoeff (replicate (32 * 32) 0) coeff
              qbits add numCoeff Hlen ltac:(lia) Hqc)
    as (sc & d0 & n0 & Heq & (Hlen' & _ & Hn) & Hval & _).
  rewrite Heq.
  assert (Hzero : forall i, (i < numCoeff)%nat -> d0 !!! i = 0).
  { intros i Hi. rewrite Hval by exact Hi.
    apply quant_level_zero; [lia | apply Hqc | lia |].
    specialize (Hdead i Hi). lia. }
  assert (Hn0 : n0 = 0).
  { rewrite Hn. apply count_nonzero_zero. intros i Hi. apply Hzero. lia. }
  rewrite Hn0. change (0 =? 0) with true. cbv iota.
  f_equal. apply all_zero_replicate; assumption.
Qed.

Lemma rdoQuant_dead_zone_witness :
  rdoQuant 8 g_goRiceRange_hevc getGroupIdx_hevc
    (quant_example [15; -15; 7; 0; -1; 0; 3; 0; -1; 0; 0; 0; 0; 0; 0; 15]) cu_example
    (replicate 16 5) 2 TEXT_LUMA
  = (replicate 16 0, 0).
Proof.
  apply (rdoQuant_dead_zone 8 g_goRiceRange_hevc getGroupIdx_hevc
           (quant_example [15; -15; 7; 0; -1; 0; 3; 0; -1; 0; 0; 0; 0; 0; 0; 15]) cu_example
           (replicate 16 5) 2 TEXT_LUMA).
  - vm_compute. reflexivity.
  - intros i Hi. change (Z.to_nat (Z.shiftl 1 (2 * 2))) with 16%nat in Hi.
    do 16 (destruct i as [|i]; [vm_compute; reflexivity|]). lia.
Defined.

(** ** The level search of RDOQ (lines 616-649, 652-670) *)

Lemma RDO_CODED_LEVEL_candidates X265_DEPTH q log2TrSize ttype blkPos levelDouble maxAbsLevel
    baseLevel g1 la goRice c1c2Idx scaleFactor curCostSig cc cs :
  0 <= maxAbsLevel < 4294967296 ->
  let level := ls_level (RDO_CODED_LEVEL X265_DEPTH q log2TrSize ttype blkPos levelDouble
                           maxAbsLevel baseLevel g1 la goRice c1c2Idx scaleFactor
                           curCostSig cc cs) in
  level = 0 \/ level = maxAbsLevel \/ (level = maxAbsLevel - 1 /\ 2 <= maxAbsLevel).
Proof.
  intros Hm level. subst level. unfold RDO_CODED_LEVEL.
  set (minAbs := Z.max (u32 (maxAbsLevel - 1)) 1).
  assert (Hmin : (maxAbsLevel = 0 /\ minAbs = 4294967295) \/
                 (1 <= maxAbsLevel /\ minAbs = Z.max (maxAbsLevel - 1) 1)).
  { subst minAbs. destruct (Z.eq_dec maxAbsLevel 0) as [->|Hne].
    - left. split; reflexivity.
    - right. rewrite u32_id by lia. split; [lia | reflexivity]. }
  match goal with |- context [rdoLevelLoop ?c ?b ?l ?s] =>
    destruct (rdoLevelLoop_level b
                ltac:(intros; apply rdoLevelBody_level) c l s) as [He|Hr]
  end.
  - left. rewrite He. reflexivity.
  - match type of Hr with _ < ?t <= _ => set (lv := t) in * end.
    clearbody lv. clearbody minAbs. destruct Hmin as [[H0 Hv]|[H1 Hv]]; lia.
Qed.

(** X14.  The level RDOQ chooses for a coefficient is the magnitude
    [maxAbsLevel] that [primitives.nquant] left there, that magnitude less
    one, or zero; the decrement is only tried from a magnitude of at least 2,
    so a level does not reach zero through it. *)
Theorem rdoChooseLevel_candidates X265_DEPTH q cu log2TrSize ttype scaledCoeff patternSigCtx
    scanPos c1c2Idx baseLevel g1 la s :
  let blkPos := scan (getTUEntropyCodingParameters cu log2TrSize (isLuma ttype)) !!! scanPos in
  let maxAbsLevel := u32 (Z.abs (dstCoeff s !!! blkPos)) in
  let level := ls_level (rdoChooseLevel X265_DEPTH q cu log2TrSize ttype scaledCoeff
                           patternSigCtx scanPos c1c2Idx baseLevel g1 la s) in
  level = 0 \/ level = maxAbsLevel \/ (level = maxAbsLevel - 1 /\ 2 <= maxAbsLevel).
Proof.
  intros blkPos maxAbsLevel level. subst level. unfold rdoChooseLevel.
  fold blkPos. fold maxAbsLevel.
  pose proof (u32_range (Z.abs (dstCoeff s !!! blkPos))) as Hu. fold maxAbsLevel in Hu.
  destruct (Z.of_nat scanPos =? lastScanPos s).
  - apply RDO_CODED_LEVEL_candidates. exact Hu.
  - match goal with |- context [if ?b then (_, _) else _] => destruct b end;
      destruct (maxAbsLevel =? 0); cbn [negb ls_level];
      try (apply RDO_CODED_LEVEL_candidates; exact Hu); left; reflexivity.
Qed.

(** ** Plain quantisation against its kernel (lines 326-351) *)

Lemma cgStep_near (q q' : list Z) (scan : list nat) (subPos m : nat) :
  cgStep q q' scan subPos -> (m < SCAN_SET_SIZE)%nat ->
  Z.abs (cgAt q scan subPos m) - 1 <= Z.abs (cgAt q' scan subPos m)
  <= Z.abs (cgAt q scan subPos m) + 1.
Proof.
  intros [[_ Hsame]|[_ (n & Hn & Habs & Hother & _)]] Hm.
  - rewrite Hsame by exact Hm. lia.
  - destruct (decide (m = n)) as [->|Hne]; [lia|].
    rewrite Hother by assumption. lia.
Qed.

(** X15.  [quant] stays within one of its kernel: the magnitude of every
    output coefficient differs by at most 1 from the level
    [min((|dct| * quantCoef + add) >> qbits, 32767)] of [primitives.quant],
    and with sign-bit hiding disabled the output is that level with the sign
    of the DCT coefficient.  The kernel [primitives.quant] is
    [prim_quant]. *)
Theorem quant_near_kernel X265_DEPTH q cu coeff log2TrSize ttype (i : nat) :
  let qbits := QUANT_SHIFT + per (m_qpParam q ttype)
               + (MAX_TR_DYNAMIC_RANGE - X265_DEPTH - log2TrSize) in
  let add := Z.shiftl (if sliceIsI cu then 171 else 85) (qbits - 9) in
  let quantCoeff := m_quantCoef (m_scalingList q) (log2TrSize - 2)
                      (scalingListTypeOf cu ttype) (rem (m_qpParam q ttype)) in
  let level := quant_level (m_resiDctCoeff q !!! i) (quantCoeff !!! i) qbits add in
  let out := fst (quant X265_DEPTH q cu coeff log2TrSize ttype) in
  valid_call X265_DEPTH q cu coeff log2TrSize ttype = true ->
  (i < length out)%nat ->
  Z.min level 32767 - 1 <= Z.abs (out !!! i) <= Z.min level 32767 + 1 /\
  (bSignHideEnabled cu = false -> out !!! i = saturate_sign (m_resiDctCoeff q !!! i) level).
Proof.
  intros qbits add quantCoeff level out Hv Hi.
  destruct (valid_call_parts _ _ _ _ _ _ Hv) as (Hl & Hqb & Hlen & Hscan & Hsz & Hsmall & Hqc).
  fold qbits in Hqb. fold quantCoeff in Hqc.
  set (numCoeff := Z.to_nat (Z.shiftl 1 (log2TrSize * 2))) in *.
  set (cp := getTUEntropyCodingParameters cu log2TrSize (isLuma ttype)) in *.
  assert (Hadd : 0 <= add <= 2 ^ qbits).
  { unfold add. rewrite Z.shiftl_mul_pow2 by lia.
    assert (Hp : 2 ^ qbits = 512 * 2 ^ (qbits - 9)).
    { replace qbits with (9 + (qbits - 9)) at 1 by lia.
      rewrite Z.pow_add_r by lia. reflexivity. }
    assert (0 < 2 ^ (qbits - 9)) by (apply Z.pow_pos_nonneg; lia).
    rewrite Hp. destruct (sliceIsI cu); nia. }
  subst out. unfold quant in *. fold qbits in Hi |- *. fold add in Hi |- *.
  fold quantCoeff in Hi |- *. fold numCoeff in Hi |- *. fold cp in Hi |- *.
  destruct (prim_quant_spec (m_resiDctCoeff q) quantCoeff (replicate (32 * 32) 0) coeff
              qbits add numCoeff)
    as (dU & q' & n & Heq & Hinv & HdU & Hval); try assumption; try lia.
  { apply all_int_Forall. apply Forall_replicate. lia. }
  rewrite Heq in Hi |- *.
  assert (Hlev : 0 <= level) by (apply quant_level_nonneg; [apply Hqc | lia]).
  assert (Hkernel : forall j, (j < numCoeff)%nat -> j = i ->
            q' !!! j = saturate_sign (m_resiDctCoeff q !!! i) level).
  { intros j Hj ->. apply Hval. exact Hj. }
  destruct (bSignHideEnabled cu) eqn:Hsbh.
  - destruct (2 <=? n); cbn [andb] in Hi |- *.
    + destruct (signBitHidingHDQ_spec q' (m_resiDctCoeff q) dU n cp numCoeff)
        as (q2 & n2 & Heq2 & (Hlen2 & _) & Hgroups & _); try assumption.
      { cbv zeta. lia. }
      rewrite Heq2 in Hi |- *. cbn [fst] in Hi |- *.
      split; [|intros Hf; discriminate Hf].
      assert (Hin : (i < numCoeff)%nat) by lia.
      destruct (scan_ok_surj _ _ Hscan i Hin) as (p & Hp & Hpi).
      assert (Hg : (p / SCAN_SET_SIZE < 2 ^ (log2TrSizeCG cp * 2))%nat).
      { apply Nat.Div0.div_lt_upper_bound. unfold SCAN_SET_SIZE in *. lia. }
      assert (Hm : (p mod SCAN_SET_SIZE < SCAN_SET_SIZE)%nat)
        by (apply Nat.mod_upper_bound; unfold SCAN_SET_SIZE; lia).
      destruct (Hgroups _ Hg) as [_ Hstep].
      pose proof (cgStep_near _ _ _ _ _ Hstep Hm) as Hnear. unfold cgAt in Hnear.
      replace (p mod SCAN_SET_SIZE + p / SCAN_SET_SIZE * SCAN_SET_SIZE)%nat with p in Hnear
        by (pose proof (Nat.div_mod p SCAN_SET_SIZE ltac:(unfold SCAN_SET_SIZE; lia)); lia).
      rewrite Hpi in Hnear. rewrite (Hkernel i Hin eq_refl) in Hnear.
      rewrite saturate_sign_abs in Hnear by exact Hlev. exact Hnear.
    + cbn [fst] in Hi |- *. destruct Hinv as (Hlen' & _).
      rewrite (Hkernel i ltac:(lia) eq_refl). rewrite saturate_sign_abs by exact Hlev.
      split; [lia | intros Hf; discriminate Hf].
  - rewrite andb_false_r in Hi |- *. cbn [fst] in Hi |- *. destruct Hinv as (Hlen' & _).
    rewrite (Hkernel i ltac:(lia) eq_refl). rewrite saturate_sign_abs by exact Hlev.
    split; [lia | intros _; reflexivity].
Qed.

Lemma quant_near_kernel_witness :
  let q := quant_8x8 dct_8x8_example in
  let out := fst (quant 8 q cu_8x8 (replicate 64 0) 3 TEXT_LUMA) in
  let level := quant_level (m_resiDctCoeff q !!! 27%nat) 16384 18 (Z.shiftl 171 9) in
  Z.min level 32767 - 1 <= Z.abs (out !!! 27%nat) <= Z.min level 32767 + 1 /\
  (bSignHideEnabled cu_8x8 = false ->
   out !!! 27%nat = saturate_sign (m_resiDctCoeff q !!! 27%nat) level).
Proof.
  apply (quant_near_kernel 8 (quant_8x8 dct_8x8_example) cu_8x8 (replicate 64 0) 3
           TEXT_LUMA 27).
  - vm_compute. reflexivity.
  - vm_compute. lia.
Defined.

(** ** The quantisation parameters: [Quant::setQPforQuant] (lines 190-216) *)

(** [Clip3] and [X265_MIN] are declared in common.h: the clip of a value to
    an interval and the minimum. *)
Definition Clip3 (minVal maxVal a : Z) : Z := Z.min (Z.max minVal a) maxVal.

Definition X265_MIN (a b : Z) : Z := if a <? b then a else b.

Section QpSetup.

(** [QP_BD_OFFSET], the chroma format [X265_CSP_I420] and the chroma QP table
    [g_chromaScale] are declared outside this file; [setQpParam] of quant.h
    turns a QP into the parameters of a text type. *)
Variables (QP_BD_OFFSET X265_CSP_I420 : Z) (g_chromaScale : list Z).
Variable setQpParam : Z -> QpParam.

(** The chroma QP of lines 205-213, before the bit-depth offset is added. *)
Definition chromaQp (qpy chromaQPOffset chFmt : Z) : Z :=
  let qp := Clip3 (- QP_BD_OFFSET) 57 (s32 (qpy + chromaQPOffset)) in
  if 30 <=? qp then
    if chFmt =? X265_CSP_I420 then g_chromaScale !!! Z.to_nat qp
    else X265_MIN qp 51
  else qp.

Definition withQpParam (q : Quant) (ttype : TextType) (p : QpParam) : Quant :=
  {| m_useRDOQ := m_useRDOQ q; m_psyRdoqScale := m_psyRdoqScale q;
     m_scalingList := m_scalingList q;
     m_qpParam := fun t => if ttypeIdx t =? ttypeIdx ttype then p else m_qpParam q t;
     m_lambda2 := m_lambda2 q; m_estBitsSbac := m_estBitsSbac q; m_nr := m_nr q;
     m_resiDctCoeff := m_resiDctCoeff q; m_fencDctCoeff := m_fencDctCoeff q;
     m_fencShortBuf := m_fencShortBuf q |}.

(** [setQPforQuant(qpy, ttype, chromaQPOffset, chFmt)] *)
Definition setQPforQuant_chroma (q : Quant) (qpy : Z) (ttype : TextType)
    (chromaQPOffset chFmt : Z) : Quant :=
  withQpParam q ttype (setQpParam (s32 (chromaQp qpy chromaQPOffset chFmt + QP_BD_OFFSET))).

(** [setQPforQuant(cu)]; [qpy], [chFmt] and the two offsets are what the
    function reads from the CU and its picture parameter set. *)
Definition setQPforQuant (q : Quant) (qpy chFmt chromaCbQpOffset chromaCrQpOffset : Z)
    : Quant :=
  let q := withQpParam q TEXT_LUMA (setQpParam (s32 (qpy + QP_BD_OFFSET))) in
  let q := setQPforQuant_chroma q qpy TEXT_CHROMA_U chromaCbQpOffset chFmt in
  setQPforQuant_chroma q qpy TEXT_CHROMA_V chromaCrQpOffset chFmt.

End QpSetup.

(** X16.  The chroma QP of [setQPforQuant].  For a chroma format other than
    4:2:0 the clip to 57 and the later minimum with 51 amount to one clip of
    [qpy + chromaQPOffset] to [-QP_BD_OFFSET, 51].  For 4:2:0 a QP below 30
    is the clipped sum itself, and [g_chromaScale] is read only at an index
    from 30 to 57. *)
Theorem chromaQp_spec (QP_BD_OFFSET X265_CSP_I420 : Z) (g_chromaScale : list Z)
    (qpy chromaQPOffset chFmt : Z) :
  0 <= QP_BD_OFFSET ->
  -2147483648 <= qpy + chromaQPOffset < 2147483648 ->
  let clipped := Clip3 (- QP_BD_OFFSET) 57 (qpy + chromaQPOffset) in
  let qp := chromaQp QP_BD_OFFSET X265_CSP_I420 g_chromaScale qpy chromaQPOffset chFmt in
  (chFmt <> X265_CSP_I420 ->
   qp = Clip3 (- QP_BD_OFFSET) 51 (qpy + chromaQPOffset) /\ - QP_BD_OFFSET <= qp <= 51) /\
  (chFmt = X265_CSP_I420 -> clipped < 30 -> qp = clipped) /\
  (chFmt = X265_CSP_I420 -> 30 <= clipped ->
   qp = g_chromaScale !!! Z.to_nat clipped /\ 30 <= clipped <= 57).
Proof.
  intros Hbd Hsum clipped qp. subst qp clipped. unfold chromaQp.
  rewrite s32_id by exact Hsum. unfold Clip3, X265_MIN.
  split; [|split].
  - intros Hne. destruct (Z.eqb_spec chFmt X265_CSP_I420) as [He|_]; [contradiction|].
    destruct (Z.leb_spec 30 (Z.min (Z.max (- QP_BD_OFFSET) (qpy + chromaQPOffset)) 57)).
    + destruct (Z.ltb_spec (Z.min (Z.max (- QP_BD_OFFSET) (qpy + chromaQPOffset)) 57) 51);
        lia.
    + lia.
  - intros He Hlt.
    destruct (Z.leb_spec 30 (Z.min (Z.max (- QP_BD_OFFSET) (qpy + chromaQPOffset)) 57));
      [lia | reflexivity].
  - intros He Hge. destruct (Z.eqb_spec chFmt X265_CSP_I420) as [_|Hne]; [|contradiction].
    destruct (Z.leb_spec 30 (Z.min (Z.max (- QP_BD_OFFSET) (qpy + chromaQPOffset)) 57));
      [|lia].
    split; [reflexivity | lia].
Qed.

(** The chroma QP table of HEVC for 4:2:0, indices 0..57. *)
Definition g_chromaScale_hevc : list Z :=
  [0; 1; 2; 3; 4; 5; 6; 7; 8; 9; 10; 11; 12; 13; 14; 15; 16; 17; 18; 19; 20; 21; 22; 23; 24;
   25; 26; 27; 28; 29; 29; 30; 31; 32; 33; 33; 34; 34; 35; 35; 36; 36; 37; 37; 38; 39; 40;
   41; 42; 43; 44; 45; 46; 47; 48; 49; 50; 51].

Lemma chromaQp_spec_witness :
  let clipped := Clip3 (- 0) 57 (54 + 6) in
  let qp := chromaQp 0 1 g_chromaScale_hevc 54 6 2 in
  (2 <> 1 -> qp = Clip3 (- 0) 51 (54 + 6) /\ - 0 <= qp <= 51) /\
  (2 = 1 -> clipped < 30 -> qp = clipped) /\
  (2 = 1 -> 30 <= clipped ->
   qp = g_chromaScale_hevc !!! Z.to_nat clipped /\ 30 <= clipped <= 57).
Proof. apply (chromaQp_spec 0 1 g_chromaScale_hevc 54 6 2); lia. Defined.

(** X17.  With both chroma offsets zero and a luma QP from [-QP_BD_OFFSET]
    to 29, [setQPforQuant] gives the three text types the same parameters,
    those of [qpy + QP_BD_OFFSET], whatever the chroma format; and it changes
    nothing of the quantiser but [m_qpParam]: each of the nine other members
    is the one passed in. *)
Theorem setQPforQuant_low_qp (QP_BD_OFFSET X265_CSP_I420 : Z) (g_chromaScale : list Z)
    (setQpParam : Z -> QpParam) (q : Quant) (qpy chFmt : Z) (ttype : TextType) :
  0 <= QP_BD_OFFSET < 1073741824 -> - QP_BD_OFFSET <= qpy < 30 ->
  let q' := setQPforQuant QP_BD_OFFSET X265_CSP_I420 g_chromaScale setQpParam q qpy chFmt
              0 0 in
  m_qpParam q' ttype = setQpParam (s32 (qpy + QP_BD_OFFSET)) /\
  m_useRDOQ q' = m_useRDOQ q /\ m_psyRdoqScale q' = m_psyRdoqScale q /\
  m_scalingList q' = m_scalingList q /\ m_lambda2 q' = m_lambda2 q /\
  m_estBitsSbac q' = m_estBitsSbac q /\ m_nr q' = m_nr q /\
  m_resiDctCoeff q' = m_resiDctCoeff q /\ m_fencDctCoeff q' = m_fencDctCoeff q /\
  m_fencShortBuf q' = m_fencShortBuf q.
Proof.
  intros Hbd Hq q'. subst q'. unfold setQPforQuant, setQPforQuant_chroma, withQpParam.
  cbn [m_qpParam m_useRDOQ m_psyRdoqScale m_scalingList m_lambda2 m_estBitsSbac m_nr
       m_resiDctCoeff m_fencDctCoeff m_fencShortBuf].
  assert (Hc : chromaQp QP_BD_OFFSET X265_CSP_I420 g_chromaScale qpy 0 chFmt = qpy).
  { unfold chromaQp, Clip3. rewrite Z.add_0_r. rewrite s32_id by lia.
    destruct (Z.leb_spec 30 (Z.min (Z.max (- QP_BD_OFFSET) qpy) 57)); lia. }
  rewrite Hc. split; [|repeat split].
  destruct ttype; reflexivity.
Qed.

Lemma setQPforQuant_low_qp_witness :
  let q' := setQPforQuant 0 1 g_chromaScale_hevc
              (fun qp => {| rem := qp mod 6; per := qp / 6 |})
              (quant_example []) 27 1 0 0 in
  let q := quant_example [] in
  m_qpParam q' TEXT_CHROMA_V = {| rem := s32 (27 + 0) mod 6; per := s32 (27 + 0) / 6 |} /\
  m_useRDOQ q' = m_useRDOQ q /\ m_psyRdoqScale q' = m_psyRdoqScale q /\
  m_scalingList q' = m_scalingList q /\ m_lambda2 q' = m_lambda2 q /\
  m_estBitsSbac q' = m_estBitsSbac q /\ m_nr q' = m_nr q /\
  m_resiDctCoeff q' = m_resiDctCoeff q /\ m_fencDctCoeff q' = m_fencDctCoeff q /\
  m_fencShortBuf q' = m_fencShortBuf q.
Proof.
  apply (setQPforQuant_low_qp 0 1 g_chromaScale_hevc
           (fun qp => {| rem := qp mod 6; per := qp / 6 |}) (quant_example []) 27 1
           TEXT_CHROMA_V); lia.
Defined.

(** ** The reverse scan and the clean-up of RDOQ (lines 566-808, 872-886) *)

(** X18.  What the reverse scan of RDOQ leaves behind, for levels of
    [primitives.nquant] in the 16-bit range: every level is nonnegative and
    at most the magnitude it started from; the positions after
    [lastScanPos] hold zero; [lastScanPos] is -1 or a position of the block
    and [cgLastScanPos] is its coefficient group; the arrays [deltaU] and
    [rateIncDown] that the sign-bit hiding multiplies and adds hold [int]
    values. *)
Theorem rdoScan_leaves X265_DEPTH g_goRiceRange q cu coeff log2TrSize ttype scaledCoeff
    (dst0 : list Z) :
  let numCoeff := Z.to_nat (Z.shiftl 1 (log2TrSize * 2)) in
  let cp := getTUEntropyCodingParameters cu log2TrSize (isLuma ttype) in
  let s := rdoScan X265_DEPTH g_goRiceRange q cu log2TrSize ttype scaledCoeff dst0 in
  valid_call X265_DEPTH q cu coeff log2TrSize ttype = true ->
  length dst0 = numCoeff ->
  (forall blk, (blk < numCoeff)%nat -> -32768 <= dst0 !!! blk <= 32767) ->
  length (dstCoeff s) = numCoeff /\
  (forall blk, (blk < numCoeff)%nat -> 0 <= dstCoeff s !!! blk <= Z.abs (dst0 !!! blk)) /\
  (forall p, (p < numCoeff)%nat -> lastScanPos s < Z.of_nat p ->
     dstCoeff s !!! (scan cp !!! p) = 0) /\
  -1 <= lastScanPos s < Z.of_nat numCoeff /\
  cgLastScanPos s = (if lastScanPos s <? 0 then -1 else lastScanPos s / 16) /\
  all_int (deltaU s) = true /\ all_int (rateIncDown s) = true.
Proof.
  intros numCoeff cp s Hv Hlen Hrange.
  destruct (valid_call_parts _ _ _ _ _ _ Hv) as (Hl & Hqb & _ & Hscan & Hsz & _ & _).
  fold numCoeff in Hscan, Hsz. fold cp in Hscan, Hsz.
  assert (Hs : scanInv cu log2TrSize ttype dst0 numCoeff 0 s).
  { apply (rdoScan_inv X265_DEPTH g_goRiceRange q cu log2TrSize ttype scaledCoeff dst0
             numCoeff); [exact Hscan | lia | exact Hrange | exact Hlen | exact Hsz]. }
  destruct Hs as (Hls & Hmag & Hpos & Hlast & _ & Hcg & HdU & Hdown). fold cp in Hpos.
  split; [exact Hls|]. split; [|split; [|split; [exact Hlast|split; [exact Hcg|split]]]].
  - intros blk Hblk. split; [|pose proof (Hmag blk Hblk); lia].
    destruct (scan_ok_surj _ _ Hscan blk Hblk) as (p & Hp & <-). apply (Hpos p). lia.
  - intros p Hp Hlt. apply (Hpos p); lia.
  - exact HdU.
  - exact Hdown.
Qed.

Lemma rdoScan_leaves_witness :
  let q := quant_skewed dct_example in
  let nq := prim_nquant (m_resiDctCoeff q) (replicate 16 16384) (replicate 1024 0)
              (replicate 16 0) 19 262144 16 in
  let s := rdoScan 8 g_goRiceRange_hevc q cu_example 2 TEXT_LUMA (fst (fst nq))
             (snd (fst nq)) in
  length (dstCoeff s) = 16%nat /\
  (forall blk, (blk < 16)%nat -> 0 <= dstCoeff s !!! blk <= Z.abs (snd (fst nq) !!! blk)) /\
  (forall p, (p < 16)%nat -> lastScanPos s < Z.of_nat p ->
     dstCoeff s !!! (scan4x4 !!! p) = 0) /\
  -1 <= lastScanPos s < Z.of_nat 16 /\
  cgLastScanPos s = (if lastScanPos s <? 0 then -1 else lastScanPos s / 16) /\
  all_int (deltaU s) = true /\ all_int (rateIncDown s) = true.
Proof.
  intros q nq s.
  apply (rdoScan_leaves 8 g_goRiceRange_hevc q cu_example (replicate 16 0) 2 TEXT_LUMA
           (fst (fst nq)) (snd (fst nq))).
  - vm_compute. reflexivity.
  - vm_compute. reflexivity.
  - intros blk Hblk. change (Z.to_nat (Z.shiftl 1 (2 * 2))) with 16%nat in Hblk.
    do 16 (destruct blk as [|blk]; [vm_compute; split; discriminate|]). lia.
Defined.

(** X19.  The sign pass and the clean-up that end the last-position search
    of RDOQ, for a last index between 0 and [lastScanPos + 1]: a level before
    the last index gets the sign of its DCT coefficient; the positions from
    the last index to [lastScanPos] become zero; what lies after
    [lastScanPos] is not written; and [numSig] is the number of nonzero
    levels before the last index.  The levels are nonnegative and at most
    32768, the DCT coefficients are [int] values. *)
Theorem rdoFinish_truncates (q : Quant) (cu : TComDataCU) (log2TrSize : Z) (ttype : TextType)
    (s : RdoState) (bestLastIdx : Z) (numCoeff : nat) :
  let scanOrder := scan (getTUEntropyCodingParameters cu log2TrSize (isLuma ttype)) in
  let r := rdoFinish q cu log2TrSize ttype s bestLastIdx in
  scan_ok scanOrder numCoeff = true ->
  Z.of_nat numCoeff < 4294967295 ->
  length (dstCoeff s) = numCoeff ->
  all_int (m_resiDctCoeff q) = true ->
  (forall blk, (blk < numCoeff)%nat -> 0 <= dstCoeff s !!! blk <= 32768) ->
  -1 <= lastScanPos s < Z.of_nat numCoeff ->
  0 <= bestLastIdx <= lastScanPos s + 1 ->
  (forall p, (p < numCoeff)%nat ->
     let blkPos := scanOrder !!! p in
     fst r !!! blkPos
     = if Z.of_nat p <? bestLastIdx
       then (if m_resiDctCoeff q !!! blkPos <? 0
             then - dstCoeff s !!! blkPos else dstCoeff s !!! blkPos)
       else if Z.of_nat p <=? lastScanPos s then 0
       else dstCoeff s !!! blkPos) /\
  snd r = count_nonzero (vals (dstCoeff s) (take (Z.to_nat bestLastIdx) scanOrder)).
Proof.
  intros scanOrder r Hscan Hsmall Hlen Hresi Hlev Hlast Hbest.
  subst r. unfold rdoFinish.
  set (b := Z.to_nat bestLastIdx).
  set (cnt := Z.to_nat (lastScanPos s + 1 - bestLastIdx)).
  assert (Hb : (b <= numCoeff)%nat) by lia.
  assert (Hbc : (b + cnt <= numCoeff)%nat) by lia.
  destruct (rdoSign_loop q cu log2TrSize ttype numCoeff Hscan Hsmall (dstCoeff s) b Hlen Hb)
    as (Hl1 & Hsigned & Hrest & Hn).
  fold scanOrder in Hsigned, Hrest, Hn.
  destruct (for_up b 0 (rdoSignStep q cu log2TrSize ttype) (dstCoeff s, 0)) as [d1 n].
  cbn [fst snd] in *.
  destruct (rdoClean_loop cu log2TrSize ttype numCoeff Hscan d1 b cnt Hl1 Hbc)
    as (_ & Hclean).
  fold scanOrder in Hclean.
  split; [|exact Hn].
  intros p Hp. cbv zeta. rewrite Hclean by exact Hp.
  assert (Hblk : (scanOrder !!! p < numCoeff)%nat)
    by (apply (scan_ok_lt _ _ Hscan); exact Hp).
  destruct (Z.ltb_spec (Z.of_nat p) bestLastIdx) as [Hpb|Hpb].
  - destruct (Nat.leb_spec b p); [lia|]. cbn [andb].
    rewrite Hsigned by lia.
    apply signedLevel_spec; [apply Hlev; exact Hblk | apply all_int_lookup; exact Hresi].
  - destruct (Nat.leb_spec b p); [|lia].
    destruct (Z.leb_spec (Z.of_nat p) (lastScanPos s)) as [Hpl|Hpl].
    + destruct (Nat.ltb_spec p (b + cnt)); [reflexivity | lia].
    + destruct (Nat.ltb_spec p (b + cnt)); [lia|]. cbn [andb].
      apply Hrest. lia.
Qed.

Lemma rdoFinish_truncates_witness :
  let q := quant_skewed [64; -40; 0; 0; 0; 0; 0; 0; 0; 0; 0; 0; 96; 0; 0; 0] in
  let nq := prim_nquant (m_resiDctCoeff q) (replicate 16 16384) (replicate 1024 0)
              (replicate 16 0) 19 262144 16 in
  let s := rdoScan 8 g_goRiceRange_hevc q cu_example 2 TEXT_LUMA (fst (fst nq))
             (snd (fst nq)) in
  let r := rdoFinish q cu_example 2 TEXT_LUMA s 3 in
  (forall p, (p < 16)%nat ->
     let blkPos := scan4x4 !!! p in
     fst r !!! blkPos
     = if Z.of_nat p <? 3
       then (if m_resiDctCoeff q !!! blkPos <? 0
             then - dstCoeff s !!! blkPos else dstCoeff s !!! blkPos)
       else if Z.of_nat p <=? lastScanPos s then 0
       else dstCoeff s !!! blkPos) /\
  snd r = count_nonzero (vals (dstCoeff s) (take (Z.to_nat 3) scan4x4)).
Proof.
  intros q nq s r.
  apply (rdoFinish_truncates q cu_example 2 TEXT_LUMA s 3 16).
  - vm_compute. reflexivity.
  - lia.
  - vm_compute. reflexivity.
  - vm_compute. reflexivity.
  - intros blk Hblk.
    do 16 (destruct blk as [|blk]; [vm_compute; split; discriminate|]). lia.
  - vm_compute. split; [discriminate | reflexivity].
  - vm_compute. split; discriminate.
Defined.
